(** * TurboIndex: the rewrite engine and the plan analyzer

    A shallow embedding of [turboindex/rewriter.py] and
    [turboindex/index_recommender.py], and the properties of the two
    engines stated over it; with them the configuration of
    [turboindex/connection.py] and what [turboindex/profiler.py] reads
    off a plan.

    Text.  A Python [str] is modelled by [string]; a character is one of
    the 256 code points of Latin-1 and is classified the way Python
    classifies that code point ([str.isspace], [str.lower] and the classes
    [\s], [\w], [\d] of the [re] module on [str] patterns).  Beyond
    Latin-1 a [str] has letters that [re.IGNORECASE] takes for letters of
    ASCII; [Schema.ident_char_ci] names them.

    Effects.  The rules append to a shared [changes] list and may, as far
    as the language is concerned, raise; both are explicit here: a
    computation is a function from the change list to either an exception
    or a value with the new change list.

    Plan rows.  A row is a dictionary from column names to scalar values,
    a [gmap string value].

    The database.  The functions that reach a server take the server as
    a parameter, a function from statements to answers or exceptions. *)

From Stdlib Require Import String Ascii ZArith Lia Bool DecimalString.
From stdpp Require Import base option list gmap strings.

Local Open Scope list_scope.

(** ** Python scalars *)

Module Py.

(** The exceptions the modelled operations can raise. *)
Inductive exn : Type :=
| TypeError
| ValueError.

Inductive result (A : Type) : Type :=
| Ok (a : A)
| Raise (e : exn).
Arguments Ok {A} a.
Arguments Raise {A} e.

(** A computation over a mutable store of type [St] that may raise. *)
Definition M (St A : Type) : Type := St -> result (A * St).

Global Instance M_ret {St} : MRet (M St) :=
  fun A a st => Ok (a, st).

Global Instance M_bind {St} : MBind (M St) :=
  fun A B f c st =>
    match c st with
    | Ok (a, st') => f a st'
    | Raise e => Raise e
    end.

Definition raise {St A} (e : exn) : M St A := fun _ => Raise e.

(** Running a computation that cannot touch the store. *)
Definition lift {St A} (r : result A) : M St A :=
  fun st => match r with Ok a => Ok (a, st) | Raise e => Raise e end.

(** *** Characters *)

Definition code (c : ascii) : nat := nat_of_ascii c.

(** [str.isspace] on one character, which is also the class [\s]. *)
Definition is_space (c : ascii) : bool :=
  let n := code c in
  ((9 <=? n) && (n <=? 13)) || ((28 <=? n) && (n <=? 32))
  || (n =? 133) || (n =? 160).

(** The class [\d]. *)
Definition is_digit (c : ascii) : bool :=
  let n := code c in (48 <=? n) && (n <=? 57).

(** The class [\w]: alphanumeric characters and the underscore. *)
Definition is_word (c : ascii) : bool :=
  let n := code c in
  is_digit c
  || ((65 <=? n) && (n <=? 90)) || (n =? 95) || ((97 <=? n) && (n <=? 122))
  || (n =? 170) || (n =? 178) || (n =? 179) || (n =? 181) || (n =? 185)
  || (n =? 186) || ((188 <=? n) && (n <=? 190))
  || ((192 <=? n) && (n <=? 214)) || ((216 <=? n) && (n <=? 246))
  || (248 <=? n).

(** [str.lower] on one character. *)
Definition char_lower (c : ascii) : ascii :=
  let n := code c in
  if ((65 <=? n) && (n <=? 90)) || ((192 <=? n) && (n <=? 214))
     || ((216 <=? n) && (n <=? 222))
  then ascii_of_nat (n + 32) else c.

(** *** Strings as lists of characters *)

Abbreviation chars := list_ascii_of_string.
Abbreviation text := string_of_list_ascii.

Definition lower (s : string) : string := text (map char_lower (chars s)).

(** [s.startswith(pre)] on character lists. *)
Fixpoint starts_with (pre s : list ascii) : bool :=
  match pre, s with
  | [], _ => true
  | a :: pre', b :: s' => if Ascii.eqb a b then starts_with pre' s' else false
  | _ :: _, [] => false
  end.

Fixpoint find_sub (needle hay : list ascii) : bool :=
  starts_with needle hay
  || match hay with
     | [] => false
     | _ :: hay' => find_sub needle hay'
     end.

(** [needle in hay]. *)
Definition contains (needle hay : string) : bool :=
  find_sub (chars needle) (chars hay).

Fixpoint lstrip (s : list ascii) : list ascii :=
  match s with
  | c :: s' => if is_space c then lstrip s' else s
  | [] => []
  end.

(** [s.strip()]. *)
Definition strip (s : string) : string :=
  text (rev (lstrip (rev (lstrip (chars s))))).

(** [s.partition(sep)] for a one-character separator: the text before the
    first separator, the separator, and the text after it; the whole text
    and two empty strings when there is no separator. *)
Fixpoint partition_go (sep : ascii) (s : list ascii) (acc : list ascii)
  : list ascii * list ascii * list ascii :=
  match s with
  | [] => (rev acc, [], [])
  | c :: s' =>
      if Ascii.eqb c sep then (rev acc, [sep], s')
      else partition_go sep s' (c :: acc)
  end.

Definition partition (s : string) (sep : ascii) : string * string * string :=
  let '(a, b, c) := partition_go sep (chars s) [] in (text a, text b, text c).

(** [sep.join(items)]. *)
Fixpoint join (sep : string) (items : list string) : string :=
  match items with
  | [] => ""
  | [x] => x
  | x :: rest => x +:+ sep +:+ join sep rest
  end.

(** *** Integers *)

Definition digit_value (c : ascii) : Z := Z.of_nat (code c) - 48.

Fixpoint int_go (s : list ascii) (acc : Z) : result Z :=
  match s with
  | [] => Ok acc
  | c :: s' => if is_digit c then int_go s' (10 * acc + digit_value c)
               else Raise ValueError
  end.

(** [int(s)] on a string of decimal digits.  Python also accepts a sign,
    blanks around the number and underscores between digits; here those
    raise, as does the empty string. *)
Definition int (s : string) : result Z :=
  match chars s with
  | [] => Raise ValueError
  | cs => int_go cs 0
  end.

(** [str(n)] for an integer. *)
Definition str_of_int (n : Z) : string :=
  NilZero.string_of_int (Z.to_int n).

Fixpoint zeros (n : nat) : string :=
  match n with
  | O => ""
  | S n' => "0" +:+ zeros n'
  end.

(** [f"{n:04d}"]: at least four characters, the sign first, padded with
    zeros. *)
Definition format_04d (n : Z) : string :=
  if (n <? 0)%Z
  then let d := str_of_int (Z.abs n) in
       "-" +:+ zeros (3 - String.length d) +:+ d
  else let d := str_of_int n in zeros (4 - String.length d) +:+ d.

End Py.

(** ** Counting characters *)

Module Counting.
Import Py.

(** The number of times [c] occurs in a text. *)
Fixpoint count (c : ascii) (s : list ascii) : nat :=
  match s with
  | [] => 0
  | a :: s' => (if Ascii.eqb a c then 1 else 0) + count c s'
  end.

(** The occurrences of [c] in a list of texts. *)
Fixpoint total (c : ascii) (items : list string) : nat :=
  match items with
  | [] => 0
  | x :: rest => count c (chars x) + total c rest
  end.

End Counting.

(** ** The regular expressions of the [re] module

    The fragment the rewriter uses, compiled with [re.IGNORECASE]:
    literals compared case-insensitively, character classes, sequencing,
    the greedy star, capturing groups and backreferences.  The matcher is
    a backtracking one, as Python's is: [run r s g k] matches [r] at the
    head of [s] with the groups [g] captured so far and hands the rest of
    the text and the groups to the continuation [k]; when [k] fails the
    next way of matching [r] is tried. *)

Module Re.

Inductive regex : Type :=
| Eps
| Chr (c : ascii)
| Cls (p : ascii -> bool)
| Seq (r1 r2 : regex)
| Star (r : regex)
| Grp (n : nat) (r : regex)
| Ref (n : nat).

Abbreviation groups := (gmap nat (list ascii)).

(** Two characters are the same up to case, the way [re.IGNORECASE]
    compares a character of the text with a character of the pattern.
    Of the letters beyond Latin-1 that it takes for a letter of ASCII
    (see [Schema.ident_char_ci]) the words of the patterns meet one: the
    long s is taken for the [S] of [SELECT]. *)
Definition ieq (a b : ascii) : bool :=
  Ascii.eqb (Py.char_lower a) (Py.char_lower b).

(** [eat u s]: the text after a case-insensitive copy of [u] at the head
    of [s]. *)
Fixpoint eat (u s : list ascii) : option (list ascii) :=
  match u, s with
  | [], _ => Some s
  | a :: u', b :: s' => if ieq b a then eat u' s' else None
  | _ :: _, [] => None
  end.

Section Matcher.
Context {A : Type}.

(** The greedy star: one more copy of the body when that leads to a
    match, as long as the copy is not empty; otherwise the
    continuation.  [n] bounds the number of copies by the length of
    the text. *)
Fixpoint star_loop
    (body : list ascii -> groups -> (list ascii -> groups -> option A)
            -> option A)
    (k : list ascii -> groups -> option A)
    (n : nat) (s : list ascii) (g : groups) {struct n} : option A :=
  match n with
  | O => k s g
  | S n' =>
      match body s g (fun s1 g1 =>
              if length s1 <? length s then star_loop body k n' s1 g1
              else None) with
      | Some x => Some x
      | None => k s g
      end
  end.

Fixpoint run (r : regex) (s : list ascii) (g : groups)
    (k : list ascii -> groups -> option A) {struct r} : option A :=
  match r with
  | Eps => k s g
  | Chr c =>
      match s with
      | a :: s' => if ieq a c then k s' g else None
      | [] => None
      end
  | Cls p =>
      match s with
      | a :: s' => if p a then k s' g else None
      | [] => None
      end
  | Seq r1 r2 => run r1 s g (fun s1 g1 => run r2 s1 g1 k)
  | Star r1 => star_loop (run r1) k (length s) s g
  | Grp n r1 =>
      run r1 s g (fun s1 g1 =>
        k s1 (<[n := take (length s - length s1) s]> g1))
  | Ref n =>
      match g !! n with
      | Some u =>
          match eat u s with
          | Some s' => k s' g
          | None => None
          end
      | None => None
      end
  end.
End Matcher.

(** One or more; a sequence of patterns; a literal word. *)
Definition Plus (r : regex) : regex := Seq r (Star r).

Fixpoint Cat (rs : list regex) : regex :=
  match rs with
  | [] => Eps
  | r :: rs' => Seq r (Cat rs')
  end.

Definition Word (w : string) : regex := Cat (map Chr (Py.chars w)).

(** A match object: the matched text and the captured groups. *)
Record found : Type := Found {
  whole : list ascii;
  caps : groups
}.

(** [m.group(n)] for [n >= 1]; [None] when the group took no part. *)
Definition group (m : found) (n : nat) : option string :=
  Py.text <$> (caps m !! n).

(** [pattern.match(s)]: the match at the head of [s], with the text left
    over. *)
Definition match_at (r : regex) (s : list ascii)
  : option (list ascii * groups) :=
  run r s ∅ (fun s' g' => Some (s', g')).

Definition hit_of (s rest : list ascii) (g : groups) : found :=
  Found (take (length s - length rest) s) g.

Fixpoint search_go (r : regex) (s : list ascii) : option found :=
  match match_at r s with
  | Some (rest, g) => Some (hit_of s rest g)
  | None =>
      match s with
      | [] => None
      | _ :: s' => search_go r s'
      end
  end.

(** [pattern.search(s)]: the leftmost match. *)
Definition search (r : regex) (s : string) : option found :=
  search_go r (Py.chars s).

(** [if pattern.search(s)]: a match object is true. *)
Definition found_in (r : regex) (s : string) : bool :=
  match search r s with
  | Some _ => true
  | None => false
  end.

(** The scan behind [sub] and [split]: the text cut into the
    non-overlapping matches, leftmost first, and the characters between
    them.  An empty match is followed by the next character, kept. *)
Inductive piece : Type :=
| Keep (c : ascii)
| Hit (m : found).

Fixpoint scan (fuel : nat) (r : regex) (s : list ascii) : list piece :=
  match fuel with
  | O => []
  | S fuel' =>
      match match_at r s with
      | Some (rest, g) =>
          if length rest <? length s
          then Hit (hit_of s rest g) :: scan fuel' r rest
          else match s with
               | [] => [Hit (hit_of s rest g)]
               | c :: s' => Hit (hit_of s rest g) :: Keep c :: scan fuel' r s'
               end
      | None =>
          match s with
          | [] => []
          | c :: s' => Keep c :: scan fuel' r s'
          end
      end
  end.

Definition pieces (r : regex) (s : list ascii) : list piece :=
  scan (S (length s)) r s.

Section Sub.
Context {St : Type}.

Fixpoint subst (repl : found -> Py.M St string) (ps : list piece)
  : Py.M St string :=
  match ps with
  | [] => mret ""
  | Keep c :: ps' => t ← subst repl ps'; mret (String c t)
  | Hit m :: ps' => r ← repl m; t ← subst repl ps'; mret (r +:+ t)
  end.

(** [pattern.sub(repl, s)] with a callable [repl], which runs once per
    match, in order. *)
Definition sub (r : regex) (repl : found -> Py.M St string) (s : string)
  : Py.M St string :=
  subst repl (pieces r (Py.chars s)).
End Sub.

(** [pattern.sub(repl, s)] with a constant replacement. *)
Definition replace_all (r : regex) (repl : string) (s : list ascii)
  : list ascii :=
  flat_map (fun p => match p with
                     | Keep c => [c]
                     | Hit _ => Py.chars repl
                     end) (pieces r s).

Definition sub_const (r : regex) (repl : string) (s : string) : string :=
  Py.text (replace_all r repl (Py.chars s)).

Fixpoint split_go (ps : list piece) (cur : list ascii) : list string :=
  match ps with
  | [] => [Py.text (rev cur)]
  | Keep c :: ps' => split_go ps' (c :: cur)
  | Hit _ :: ps' => Py.text (rev cur) :: split_go ps' []
  end.

(** [re.split(pattern, s)] for a pattern without capturing groups. *)
Definition split (r : regex) (s : string) : list string :=
  split_go (pieces r (Py.chars s)) [].

End Re.

(** ** What a pattern means

    [matches r g t g']: the pattern [r] can match the text [t] when the
    groups captured so far are [g], and leaves the groups [g']. *)

Module ReSem.
Import Re.

Definition same_ci (t u : list ascii) : Prop :=
  Forall2 (fun a b => ieq a b = true) t u.

Inductive matches : regex -> groups -> list ascii -> groups -> Prop :=
| matches_eps g :
    matches Eps g [] g
| matches_chr c a g :
    ieq a c = true -> matches (Chr c) g [a] g
| matches_cls (p : ascii -> bool) a g :
    p a = true -> matches (Cls p) g [a] g
| matches_seq r1 r2 g t1 g1 t2 g2 :
    matches r1 g t1 g1 -> matches r2 g1 t2 g2 ->
    matches (Seq r1 r2) g (t1 ++ t2) g2
| matches_star_stop r g :
    matches (Star r) g [] g
| matches_star_more r g t1 g1 t2 g2 :
    matches r g t1 g1 -> t1 <> [] -> matches (Star r) g1 t2 g2 ->
    matches (Star r) g (t1 ++ t2) g2
| matches_grp n r g t g1 :
    matches r g t g1 -> matches (Grp n r) g t (<[n := t]> g1)
| matches_ref n g u t :
    g !! n = Some u -> same_ci t u -> matches (Ref n) g t g.

(** A pattern without capturing groups. *)
Fixpoint groupless (r : regex) : bool :=
  match r with
  | Eps | Chr _ | Cls _ | Ref _ => true
  | Seq r1 r2 => groupless r1 && groupless r2
  | Star r1 => groupless r1
  | Grp _ _ => false
  end.

(** The text [s] does not go on with a character of the class [p]. *)
Definition stops (p : ascii -> bool) (s : list ascii) : Prop :=
  match s with
  | [] => True
  | b :: _ => p b = false
  end.

(** No match of [r] starts inside the prefix [pre] of [pre ++ s]. *)
Fixpoint clear_before (r : regex) (pre s : list ascii) : bool :=
  match pre with
  | [] => true
  | _ :: pre' =>
      match match_at r (pre ++ s) with
      | Some _ => false
      | None => clear_before r pre' s
      end
  end.

(** What a matcher for [r] owes: when it succeeds, the continuation
    succeeded on the text left by some match of [r]. *)
Definition sound_for {A : Type} (r : regex)
    (f : list ascii -> groups -> (list ascii -> groups -> option A)
         -> option A) : Prop :=
  forall s g k x, f s g k = Some x ->
    exists t s' g', s = t ++ s' /\ matches r g t g' /\ k s' g' = Some x.

(** And the converse: when some match of [r] leads the continuation to
    succeed, the matcher succeeds. *)
Definition complete_for {A : Type} (r : regex)
    (f : list ascii -> groups -> (list ascii -> groups -> option A)
         -> option A) : Prop :=
  forall g t g', matches r g t g' ->
    forall s k x, k s g' = Some x -> exists y, f (t ++ s) g k = Some y.

(** Every match of a scan is a match of the pattern. *)
Definition hit_sound (r : regex) (p : piece) : Prop :=
  match p with
  | Keep _ => True
  | Hit m => matches r ∅ (whole m) (caps m)
  end.

(** The text a piece of a scan stands for. *)
Definition piece_text (p : piece) : list ascii :=
  match p with
  | Keep c => [c]
  | Hit m => whole m
  end.

(** The text a piece becomes when each match [m] is replaced by
    [out m]. *)
Definition render (out : found -> string) (p : piece) : list ascii :=
  match p with
  | Keep c => [c]
  | Hit m => Py.chars (out m)
  end.

Definition is_hit (p : piece) : bool :=
  match p with
  | Keep _ => false
  | Hit _ => true
  end.

(** The number of matches in a scan. *)
Fixpoint hits (ps : list piece) : nat :=
  match ps with
  | [] => 0
  | p :: ps' => (if is_hit p then 1 else 0) + hits ps'
  end.

(** [u] is a part of [t]. *)
Definition part_of (u t : list ascii) : Prop := exists a b, t = a ++ u ++ b.

(** The text [pattern.sub] puts together when each match [m] of [q] is
    replaced by [out m]. *)
Definition rendered (q : regex) (out : found -> string) (s : list ascii)
  : list ascii :=
  flat_map (render out) (pieces q s).

(** No match of [p] starts inside the text [o], whatever follows it. *)
Definition inert (p : regex) (o : list ascii) : Prop :=
  forall o1 a o2 X, o = o1 ++ a :: o2 -> match_at p (a :: o2 ++ X) = None.

(** No match of [r] starts at a character of [l] in [l ++ post]. *)
Definition kept_in (r : regex) (l post : list ascii) : Prop :=
  forall l1 c l2, l = l1 ++ c :: l2 -> match_at r (c :: l2 ++ post) = None.

End ReSem.

(** ** rewriter.py *)

Module Rewriter.

Record RewriteChange : Type := { description : string }.

Record RewriteResult : Type := {
  original_sql : string;
  rewritten_sql : string;
  mode : string;
  changes : list RewriteChange
}.

(** A rule reads and extends the caller's [changes] list. *)
Abbreviation Rule := (Py.M (list RewriteChange)).

(** [changes.append(c)]. *)
Definition append (c : RewriteChange) : Rule unit :=
  fun changes => Py.Ok (tt, changes ++ [c]).

(** The classes [\s], [[^\s]], [[\w\.]] and [\d]. *)
Definition sp : Re.regex := Re.Cls Py.is_space.
Definition nsp : Re.regex := Re.Cls (fun c => negb (Py.is_space c)).
Definition wd : Re.regex :=
  Re.Cls (fun c => Py.is_word c || Ascii.eqb c ".").
Definition dg : Re.regex := Re.Cls Py.is_digit.

(** [!=\s*NULL] *)
Definition pattern_not_eq : Re.regex :=
  Re.Cat [Re.Chr "!"; Re.Chr "="; Re.Star sp; Re.Word "NULL"].

(** [=\s*NULL] *)
Definition pattern_eq : Re.regex :=
  Re.Cat [Re.Chr "="; Re.Star sp; Re.Word "NULL"].

Definition _rewrite_null_comparisons (sql : string) : Rule string :=
  sql ← (if Re.found_in pattern_not_eq sql
         then _ ← append {| description :=
                   "Replaced `!= NULL` with `IS NOT NULL`" |};
              mret (Re.sub_const pattern_not_eq "IS NOT NULL" sql)
         else mret sql);
  sql ← (if Re.found_in pattern_eq sql
         then _ ← append {| description :=
                   "Replaced `= NULL` with `IS NULL`" |};
              mret (Re.sub_const pattern_eq "IS NULL" sql)
         else mret sql);
  mret sql.

(** One more disjunct of the chain, [\s+OR\s+\1\s*=\s*[^\s]+]: blanks,
    [OR], blanks, the text of group 1, [=] between optional blanks, and
    a value. *)
Definition or_more : Re.regex :=
  Re.Cat [Re.Plus sp; Re.Word "OR"; Re.Plus sp; Re.Ref 1; Re.Star sp;
          Re.Chr "="; Re.Star sp; Re.Plus nsp].

(** The pattern of the OR rule,
    [WHERE\s+([\w\.]+)\s*=\s*([^\s]+)\s+OR\s+\1\s*=\s*(G3)], where the
    third group [G3] is [[^\s]+] followed by any number of [or_more]:
    [WHERE], blanks, group 1 (one or more of [\w] and the dot), [=]
    between optional blanks, group 2 (one or more non-blanks), blanks,
    [OR], blanks, the text of group 1 again, [=] between optional blanks,
    and group 3: a value followed by any number of further disjuncts. *)
Definition or_pattern : Re.regex :=
  Re.Cat [Re.Word "WHERE"; Re.Plus sp; Re.Grp 1 (Re.Plus wd); Re.Star sp;
          Re.Chr "="; Re.Star sp; Re.Grp 2 (Re.Plus nsp);
          Re.Plus sp; Re.Word "OR"; Re.Plus sp; Re.Ref 1; Re.Star sp;
          Re.Chr "="; Re.Star sp;
          Re.Grp 3 (Re.Seq (Re.Plus nsp) (Re.Star or_more))].

(** [\s+OR\s+], the separator of [re.split]. *)
Definition or_separator : Re.regex :=
  Re.Cat [Re.Plus sp; Re.Word "OR"; Re.Plus sp].

(** A group in an f-string: [None] prints as its name. *)
Definition fmt (o : option string) : string := default "None" o.

(** [", ".join(values)]: every item must be a string. *)
Definition join_values (values : list (option string)) : Py.result string :=
  match mapM id values with
  | Some vs => Py.Ok (Py.join ", " vs)
  | None => Py.Raise Py.TypeError
  end.

(** The loop over the parts of [rest]: the text after the first [=] of
    each part, stripped, is appended to [values]. *)
Definition or_values (first_value : option string) (parts : list string)
  : list (option string) :=
  fold_left (fun values part =>
               let '(_col, _eq, _val) := Py.partition part "=" in
               values ++ [Some (Py.strip _val)])
            parts [first_value].

Definition or_repl (m : Re.found) : Rule string :=
  let column := Re.group m 1 in
  let first_value := Re.group m 2 in
  match Re.group m 3 with
  | None => Py.raise Py.TypeError
  | Some rest =>
      let values := or_values first_value (Re.split or_separator rest) in
      in_list ← Py.lift (join_values values);
      _ ← append {| description := "Converted OR chain to IN() list" |};
      mret ("WHERE " +:+ fmt column +:+ " IN (" +:+ in_list +:+ ")")
  end.

Definition _rewrite_or_to_in (sql : string) : Rule string :=
  Re.sub or_pattern or_repl sql.

(** The pattern of the YEAR rule,
    [YEAR\s*\(\s*([\w\.]+)\s*\)\s*=\s*(\d{4})]: [YEAR], an opening
    parenthesis, group 1 (one or more of [\w] and the dot), a closing
    parenthesis, [=] and group 2 (four digits), with optional blanks
    between them. *)
Definition year_pattern : Re.regex :=
  Re.Cat [Re.Word "YEAR"; Re.Star sp; Re.Chr "("; Re.Star sp;
          Re.Grp 1 (Re.Plus wd); Re.Star sp; Re.Chr ")"; Re.Star sp;
          Re.Chr "="; Re.Star sp; Re.Grp 2 (Re.Cat [dg; dg; dg; dg])].

Definition year_repl (m : Re.found) : Rule string :=
  let column := Re.group m 1 in
  match Re.group m 2 with
  | None => Py.raise Py.TypeError
  | Some year_str =>
      year ← Py.lift (Py.int year_str);
      let start := "'" +:+ Py.format_04d year +:+ "-01-01'" in
      let end_ := "'" +:+ Py.format_04d (year + 1) +:+ "-01-01'" in
      _ ← append {| description :=
            "Rewrote YEAR() equality to date range predicate to allow index usage" |};
      mret (fmt column +:+ " >= " +:+ start +:+ " AND " +:+ fmt column
            +:+ " < " +:+ end_)
  end.

Definition _rewrite_year_function_on_column (sql : string) : Rule string :=
  Re.sub year_pattern year_repl sql.

(** [rewrite_query(sql, mode)].  The moderate and aggressive tiers run no
    rule of their own. *)
Definition rewrite_query (sql : string) (mode : string)
  : Py.result RewriteResult :=
  let mode := Py.lower mode in
  let run : Rule string :=
    rewritten ← _rewrite_null_comparisons sql;
    rewritten ← _rewrite_or_to_in rewritten;
    rewritten ← _rewrite_year_function_on_column rewritten;
    _ ← (if bool_decide (mode ∈ ["moderate"; "aggressive"])
         then mret tt else mret tt);
    mret rewritten in
  match run [] with
  | Py.Ok (rewritten, changes) =>
      Py.Ok {| original_sql := sql; rewritten_sql := rewritten;
               mode := mode; changes := changes |}
  | Py.Raise e => Py.Raise e
  end.

End Rewriter.

(** ** The notions the properties of the rewriter are stated with *)

Module RewriteSpec.
Import Rewriter.

(** The value the loop of [or_repl] takes from one part. *)
Definition value_of (part : string) : string :=
  let '(_col, _eq, _val) := Py.partition part "=" in Py.strip _val.

(** The text a replacement function returns for a match, read off a run
    on an empty change list. *)
Definition output (repl : Re.found -> Rule string) (m : Re.found) : string :=
  match repl m [] with
  | Py.Ok (s, _) => s
  | Py.Raise _ => ""
  end.

(** What the proofs below establish of a rule: it returns, it only
    appends to the change list, it leaves the text alone when it appends
    nothing, it never adds an equals sign, and when it appends something
    the text loses an occurrence of the character [k]. *)
Definition well_behaved (k : ascii) (rule : string -> Rule string) : Prop :=
  forall sql st, exists sql' d,
    rule sql st = Py.Ok (sql', st ++ d)
    /\ (d = [] -> sql' = sql)
    /\ Counting.count "=" (Py.chars sql') <= Counting.count "=" (Py.chars sql)
    /\ (d <> [] -> Counting.count k (Py.chars sql') < Counting.count k (Py.chars sql)).

(** No rule has anything to rewrite in [sql]. *)
Definition no_rule_matches (sql : string) : Prop :=
  Re.found_in pattern_not_eq sql = false
  /\ Re.found_in pattern_eq sql = false
  /\ Re.found_in or_pattern sql = false
  /\ Re.found_in year_pattern sql = false.

(** The two halves of [_rewrite_null_comparisons]: a constant replacement
    guarded by a search. *)
Definition guarded_sub (r : Re.regex) (repl : string) (c : RewriteChange)
    (sql : string) : Rule string :=
  if Re.found_in r sql
  then _ ← append c; mret (Re.sub_const r repl sql)
  else mret sql.

(** The three tier tokens. *)
Definition tiers : list string := ["safe"; "moderate"; "aggressive"].

(** The digits, and the check that a four-digit year prints as itself. *)
Definition digits : list ascii := Py.chars "0123456789".

Definition prints_back (a b c d : ascii) : bool :=
  match Py.int (Py.text [a; b; c; d]) with
  | Py.Ok n => String.eqb (Py.format_04d n) (Py.text [a; b; c; d])
  | Py.Raise _ => false
  end.

(** An occurrence of the YEAR pattern: the word in any letter case, the
    column [col] in parentheses, the equals sign and the four digits [y],
    with the blanks [w1] to [w5] where the pattern allows them. *)
Definition year_occurrence (yr w1 w2 col w3 w4 w5 y : list ascii)
  : list ascii :=
  yr ++ w1 ++ "("%char :: w2 ++ col ++ w3 ++ ")"%char :: w4
     ++ "="%char :: w5 ++ y.

Definition blank (w : list ascii) : Prop :=
  Forall (fun a => Py.is_space a = true) w.

(** One occurrence in a text: the stretch before it, since the previous
    occurrence, and its parts. *)
Record year_use : Type := {
  u_before : list ascii;
  u_word : list ascii;
  u_w1 : list ascii;
  u_w2 : list ascii;
  u_col : list ascii;
  u_w3 : list ascii;
  u_w4 : list ascii;
  u_w5 : list ascii;
  u_d1 : ascii;
  u_d2 : ascii;
  u_d3 : ascii;
  u_d4 : ascii
}.

Definition use_digits (u : year_use) : list ascii :=
  [u_d1 u; u_d2 u; u_d3 u; u_d4 u].

Definition use_text (u : year_use) : list ascii :=
  year_occurrence (u_word u) (u_w1 u) (u_w2 u) (u_col u) (u_w3 u) (u_w4 u)
    (u_w5 u) (use_digits u).

Definition use_ok (u : year_use) : Prop :=
  ReSem.same_ci (u_word u) (Py.chars "YEAR")
  /\ blank (u_w1 u) /\ blank (u_w2 u) /\ blank (u_w3 u) /\ blank (u_w4 u)
  /\ blank (u_w5 u)
  /\ u_col u <> []
  /\ Forall (fun a => Py.is_word a || Ascii.eqb a "." = true) (u_col u)
  /\ Forall (fun a => Py.is_digit a = true) (use_digits u).

(** The text made of the occurrences [us], each after its stretch, and
    the tail. *)
Fixpoint source (us : list year_use) (tail : list ascii) : list ascii :=
  match us with
  | [] => tail
  | u :: us' => u_before u ++ use_text u ++ source us' tail
  end.

(** The occurrences are well formed, no match starts in a stretch and
    none is left in the tail. *)
Fixpoint well_cut (us : list year_use) (tail : list ascii) : Prop :=
  match us with
  | [] => Re.search_go year_pattern tail = None
  | u :: us' =>
      use_ok u
      /\ ReSem.clear_before year_pattern (u_before u)
           (use_text u ++ source us' tail) = true
      /\ well_cut us' tail
  end.

(** The year after the one written [y], as the rule prints it. *)
Definition next_year (y : list ascii) : string :=
  match Py.int (Py.text y) with
  | Py.Ok n => Py.format_04d (n + 1)
  | Py.Raise _ => ""
  end.

(** The half-open range that replaces an occurrence. *)
Definition range_of (u : year_use) : string :=
  Py.text (u_col u) +:+ " >= '" +:+ Py.text (use_digits u)
  +:+ "-01-01' AND " +:+ Py.text (u_col u) +:+ " < '"
  +:+ next_year (use_digits u) +:+ "-01-01'".

(** The text the rule is to return for [source us tail]. *)
Fixpoint target (us : list year_use) (tail : list ascii) : string :=
  match us with
  | [] => Py.text tail
  | u :: us' => Py.text (u_before u) +:+ range_of u +:+ target us' tail
  end.

(** The text of a null comparison: the operator [lead], blanks, and
    [NULL] in any letter case. *)
Definition null_text (lead t : list ascii) : Prop :=
  exists w n, t = lead ++ w ++ n /\ blank w /\ ReSem.same_ci n (Py.chars "NULL").

Definition not_null_change : RewriteChange :=
  {| description := "Replaced `!= NULL` with `IS NOT NULL`" |}.

Definition is_null_change : RewriteChange :=
  {| description := "Replaced `= NULL` with `IS NULL`" |}.

(** The text rule 1 returns: both replacements, one after the other. *)
Definition null_normal (s : list ascii) : list ascii :=
  Re.replace_all pattern_eq "IS NULL"
    (Re.replace_all pattern_not_eq "IS NOT NULL" s).

Definition or_change : RewriteChange :=
  {| description := "Converted OR chain to IN() list" |}.

Definition year_change : RewriteChange :=
  {| description :=
       "Rewrote YEAR() equality to date range predicate to allow index usage" |}.


(** *** Texts and matches of the OR rule *)

(** A character of the class [[\w\.]]. *)
Definition wordy (a : ascii) : bool := Py.is_word a || Ascii.eqb a ".".

(** A text without blanks; a text of word characters and dots. *)
Definition solid (w : list ascii) : Prop :=
  Forall (fun a => Py.is_space a = false) w.

Definition wordlike (w : list ascii) : Prop :=
  Forall (fun a => wordy a = true) w.

(** Blanks and word characters, and then an equals sign. *)
Definition eq_ahead (z : list ascii) : Prop :=
  exists w z', z = w ++ "="%char :: z'
    /\ Forall (fun a => Py.is_space a || wordy a = true) w.

(** Every blank of [t] that follows a character other than a blank and
    the equals sign has an equals sign ahead in [t ++ rest]. *)
Fixpoint gaps_ok (prev : ascii) (t rest : list ascii) : Prop :=
  match t with
  | [] => True
  | b :: t' =>
      (Py.is_space b = true -> Py.is_space prev = false -> prev <> "="%char ->
       eq_ahead (t ++ rest))
      /\ gaps_ok b t' rest
  end.

(** The text of a match of the OR pattern, part by part: [WHERE], the
    column, the first value, [OR], the column again, and the text of
    group 3, with the blanks between them. *)
Record or_use : Type := {
  o_where : list ascii;
  o_b1 : list ascii;
  o_col : list ascii;
  o_b2 : list ascii;
  o_b3 : list ascii;
  o_v1 : list ascii;
  o_b4 : list ascii;
  o_or : list ascii;
  o_b5 : list ascii;
  o_col2 : list ascii;
  o_b6 : list ascii;
  o_b7 : list ascii;
  o_rest : list ascii
}.

Definition or_use_text (u : or_use) : list ascii :=
  o_where u ++ o_b1 u ++ o_col u ++ o_b2 u ++ "="%char :: o_b3 u ++ o_v1 u
  ++ o_b4 u ++ o_or u ++ o_b5 u ++ o_col2 u ++ o_b6 u
  ++ "="%char :: o_b7 u ++ o_rest u.

(** The groups 1 and 2 of the match. *)
Definition or_env (u : or_use) : Re.groups :=
  <[2 := o_v1 u]> (<[1 := o_col u]> ∅).

(** What group 3 matches: a value and any number of further disjuncts. *)
Definition or_values_re : Re.regex := Re.Seq (Re.Plus nsp) (Re.Star or_more).

(** The parts are what the pattern asks for. *)
Record or_use_ok (u : or_use) : Prop := {
  ok_where : ReSem.same_ci (o_where u) (Py.chars "WHERE");
  ok_b1 : blank (o_b1 u) /\ o_b1 u <> [];
  ok_col : wordlike (o_col u) /\ o_col u <> [];
  ok_b2 : blank (o_b2 u);
  ok_b3 : blank (o_b3 u);
  ok_v1 : solid (o_v1 u) /\ o_v1 u <> [];
  ok_b4 : blank (o_b4 u) /\ o_b4 u <> [];
  ok_or : ReSem.same_ci (o_or u) (Py.chars "OR");
  ok_b5 : blank (o_b5 u) /\ o_b5 u <> [];
  ok_col2 : ReSem.same_ci (o_col2 u) (o_col u);
  ok_b6 : blank (o_b6 u);
  ok_b7 : blank (o_b7 u);
  ok_rest : ReSem.matches or_values_re (or_env u) (o_rest u) (or_env u)
}.

(** The values of the IN list, and the text that replaces the match,
    [WHERE col IN (v1, v2, ...)]. *)
Definition or_items (u : or_use) : list string :=
  Py.text (o_v1 u)
  :: map value_of (Re.split or_separator (Py.text (o_rest u))).

Definition or_out (u : or_use) : list ascii :=
  Py.chars "WHERE " ++ o_col u ++ Py.chars " IN ("
  ++ Py.chars (Py.join ", " (or_items u)) ++ [")"%char].

(** The text ends with a blank or an equals sign. *)
Definition ends_quiet (w : list ascii) : Prop :=
  exists w1 e, w = w1 ++ [e] /\ (Py.is_space e = true \/ e = "="%char).

(** The text starts with a separator of [re.split]. *)
Definition sep_here (l : list ascii) : Prop :=
  exists t rest g, l = t ++ rest /\ ReSem.matches or_separator ∅ t g.

(** The blank [b] after [a] starts a separator, or a separator starts
    before [a], with no equals sign between its start and [a]. *)
Definition guarded (x : list ascii) (a b : ascii) (z : list ascii) : Prop :=
  sep_here (b :: z)
  \/ exists x0 y1, x = x0 ++ y1 /\ Forall (fun e => e <> "="%char) y1
                   /\ sep_here (y1 ++ a :: b :: z).

(** Every blank of the text that follows another character is guarded. *)
Definition sep_guard (l : list ascii) : Prop :=
  forall x a b z, l = x ++ a :: b :: z ->
    Py.is_space a = false -> Py.is_space b = true -> guarded x a b z.

(** No blank of the text follows another character. *)
Definition gapless (l : list ascii) : Prop :=
  forall x a b z, l = x ++ a :: b :: z ->
    Py.is_space a = false -> Py.is_space b = true -> False.

(** The text of a null comparison starts with [=] or [!] and has no [W],
    comma or closing parenthesis. *)
Definition nullish (t : list ascii) : Prop :=
  (exists hd tl, t = hd :: tl /\ (hd = "="%char \/ hd = "!"%char))
  /\ Forall (fun a => a <> "W"%char /\ a <> ","%char /\ a <> ")"%char) t.

End RewriteSpec.

(** ** index_recommender.py *)

Module IndexRecommender.

(** The scalars a plan row holds: SQL NULL, text and integers. *)
Inductive value : Type :=
| VNone
| VStr (s : string)
| VInt (n : Z).

(** Truth value of a scalar: [None], the empty string and zero are
    false. *)
Definition truthy (v : value) : bool :=
  match v with
  | VNone => false
  | VStr s => negb (String.eqb s "")
  | VInt n => negb (n =? 0)%Z
  end.

(** [str(v)], which is also how an f-string prints [v]. *)
Definition str (v : value) : string :=
  match v with
  | VNone => "None"
  | VStr s => s
  | VInt n => Py.str_of_int n
  end.

(** [x or y]. *)
Definition or_ (x y : value) : value := if truthy x then x else y.

Abbreviation PlanRow := (gmap string value).

(** [row.get(k)]: [None] for a missing column. *)
Definition get (row : PlanRow) (k : string) : value :=
  default VNone (row !! k).

Record IndexRecommendation : Type := {
  table : value;
  suggested_index_name : string;
  columns : list string;
  reason : string
}.

Definition _suggest_index_name (table : value) (columns : list string)
  : string :=
  let cols_part := Py.join "_" (take 3 columns) in
  "idx_" +:+ str table +:+ "_" +:+ cols_part.

(** One turn of the loop of [_analyze_explain_for_indexes]. *)
Definition analyze_row (recommendations : list IndexRecommendation)
    (row : PlanRow) : list IndexRecommendation :=
  let table := get row "table" in
  let access_type := Py.lower (str (or_ (get row "type") (VStr ""))) in
  let possible_keys := get row "possible_keys" in
  let key := get row "key" in
  let extra := str (or_ (get row "Extra") (VStr "")) in
  if String.eqb access_type "all" && negb (truthy key)
     && Py.contains "Using where" extra
  then
    if truthy possible_keys then recommendations
    else if negb (truthy table) then recommendations
    else
      let where_columns := ["<choose_filter_column>"] in
      recommendations ++
        [{| table := table;
            suggested_index_name := _suggest_index_name table where_columns;
            columns := where_columns;
            reason := "Full table scan detected with WHERE filtering and no index; consider adding an index on the main filter column." |}]
  else recommendations.

Definition _analyze_explain_for_indexes (explain_rows : list PlanRow)
  : list IndexRecommendation :=
  fold_left analyze_row explain_rows [].

(** One turn of the loop of [_compute_index_health], on the running score
    and issue list. *)
Definition health_row (acc : Z * list string) (row : PlanRow)
  : Z * list string :=
  let '(score, issues) := acc in
  let table := or_ (get row "table") (VStr "?") in
  let access_type := Py.lower (str (or_ (get row "type") (VStr ""))) in
  let extra := Py.lower (str (or_ (get row "Extra") (VStr ""))) in
  let '(score, issues) :=
    if String.eqb access_type "all"
    then ((score - 20)%Z,
          issues ++ ["Full table scan on " +:+ str table +:+ " (type=ALL)"])
    else if String.eqb access_type "index"
    then ((score - 5)%Z,
          issues ++ ["Sequential index scan on " +:+ str table
                     +:+ " (type=index)"])
    else (score, issues) in
  let '(score, issues) :=
    if Py.contains "filesort" extra
    then ((score - 10)%Z, issues ++ ["Filesort required for " +:+ str table])
    else (score, issues) in
  let '(score, issues) :=
    if Py.contains "temporary" extra
    then ((score - 10)%Z,
          issues ++ ["Temporary table used for " +:+ str table])
    else (score, issues) in
  (score, issues).

Definition _compute_index_health (explain_rows : list PlanRow)
    (recommendations : list IndexRecommendation) : Z * list string :=
  let '(score, issues) := fold_left health_row explain_rows (100%Z, []) in
  let '(score, issues) :=
    match recommendations with
    | [] => (score, issues)
    | _ :: _ =>
        let penalty := Z.min (5 * Z.of_nat (length recommendations)) 20 in
        ((score - penalty)%Z,
         issues ++ [Py.str_of_int (Z.of_nat (length recommendations))
                    +:+ " index recommendation(s) suggested"])
    end in
  let score := Z.max 0 (Z.min 100 score) in
  (score, issues).

End IndexRecommender.

(** ** The plan analyzer as the specification words it

    The health score and the recommendations written row by row, to be
    compared with the loops above. *)

Module PlanSpec.
Import IndexRecommender.

Definition access_type (row : PlanRow) : string :=
  Py.lower (str (or_ (get row "type") (VStr ""))).

Definition annotation (row : PlanRow) : string :=
  str (or_ (get row "Extra") (VStr "")).

Definition is_full_scan (row : PlanRow) : bool :=
  String.eqb (access_type row) "all".

Definition is_index_scan (row : PlanRow) : bool :=
  String.eqb (access_type row) "index".

Definition mentions_filesort (row : PlanRow) : bool :=
  Py.contains "filesort" (Py.lower (annotation row)).

Definition mentions_temporary (row : PlanRow) : bool :=
  Py.contains "temporary" (Py.lower (annotation row)).

(** The table name as the issues print it. *)
Definition table_label (row : PlanRow) : string :=
  str (or_ (get row "table") (VStr "?")).

Definition row_penalty (row : PlanRow) : Z :=
  ((if is_full_scan row then 20 else if is_index_scan row then 5 else 0)
   + (if mentions_filesort row then 10 else 0)
   + (if mentions_temporary row then 10 else 0))%Z.

Definition row_issues (row : PlanRow) : list string :=
  (if is_full_scan row
   then ["Full table scan on " +:+ table_label row +:+ " (type=ALL)"]
   else if is_index_scan row
   then ["Sequential index scan on " +:+ table_label row +:+ " (type=index)"]
   else [])
  ++ (if mentions_filesort row
      then ["Filesort required for " +:+ table_label row] else [])
  ++ (if mentions_temporary row
      then ["Temporary table used for " +:+ table_label row] else []).

Definition total_penalty (rows : list PlanRow) : Z :=
  foldr (fun row acc => (row_penalty row + acc)%Z) 0%Z rows.

Definition recommendation_penalty (count : nat) : Z :=
  if Nat.eqb count 0 then 0%Z else Z.min (5 * Z.of_nat count) 20.

Definition recommendation_issue (count : nat) : list string :=
  if Nat.eqb count 0 then []
  else [Py.str_of_int (Z.of_nat count) +:+ " index recommendation(s) suggested"].

Definition clamp (lo hi x : Z) : Z := Z.max lo (Z.min hi x).

Definition health (rows : list PlanRow) (count : nat) : Z * list string :=
  (clamp 0 100 (100 - total_penalty rows - recommendation_penalty count),
   flat_map row_issues rows ++ recommendation_issue count).

(** The four conditions of the recommendation heuristic. *)
Definition no_key_chosen (row : PlanRow) : bool := negb (truthy (get row "key")).

Definition has_filter_marker (row : PlanRow) : bool :=
  Py.contains "Using where" (annotation row).

Definition no_possible_keys (row : PlanRow) : bool :=
  negb (truthy (get row "possible_keys")).

Definition flagged (row : PlanRow) : bool :=
  is_full_scan row && no_key_chosen row && has_filter_marker row
  && no_possible_keys row.

(** The guard the loop adds: the row names its table. *)
Definition names_table (row : PlanRow) : bool := truthy (get row "table").

Definition placeholder : string := "<choose_filter_column>".

Definition recommendation_for (row : PlanRow) : IndexRecommendation :=
  {| table := get row "table";
     suggested_index_name :=
       "idx_" +:+ str (get row "table") +:+ "_"
       +:+ Py.join "_" (take 3 [placeholder]);
     columns := [placeholder];
     reason := "Full table scan detected with WHERE filtering and no index; consider adding an index on the main filter column." |}.

End PlanSpec.

(** ** connection.py *)

Module Connection.
Import IndexRecommender.

Record MySQLConnectionConfig : Type := {
  host : string;
  port : Z;
  user : option string;
  password : option string;
  database : option string
}.

(** What a cursor holds after a statement was executed: the column
    names, the first field of each entry of [cursor.description], and the
    rows of the result set. *)
Record Answer : Type := {
  cursor_description : list string;
  fetchall : list (list value)
}.

End Connection.

(** ** rewriter.py: the schema-aware rewrite *)

Module Schema.
Import Rewriter Connection.

(** The class [[A-Za-z0-9_]] compiled without flags, as the guard of
    [_get_columns_for_table_from_db] has it: on a [str] it accepts these
    63 characters of ASCII and no other character. *)
Definition ident_char (c : ascii) : bool :=
  let n := Py.code c in
  ((65 <=? n) && (n <=? 90)) || ((97 <=? n) && (n <=? 122))
  || ((48 <=? n) && (n <=? 57)) || (n =? 95).

Definition idc : Re.regex := Re.Cls ident_char.

(** The same class compiled with [re.IGNORECASE], as the pattern of
    [_rewrite_select_star_with_columns] has it.  The [re] module tests
    the lower-cased character against the lower-cased class.  It also
    adds to the class the letters whose case folds to a letter of the
    class: dotless i (U+0131) and long s (U+017F); and lower-casing
    sends the capital I with dot (U+0130) to [i] and the Kelvin sign
    (U+212A) to [k].  So on a Python [str] the class accepts four
    letters beyond [[A-Za-z0-9_]].  All four lie outside Latin-1, the
    code points of this model, and all four are word characters of
    [\w]: what is stated of the names this class accepts is stated for
    names of word characters, not for names of [[A-Za-z0-9_]]. *)
Definition ident_char_ci (c : ascii) : bool := ident_char (Py.char_lower c).

Definition idc_ci : Re.regex := Re.Cls ident_char_ci.

(** The pattern of [_rewrite_select_star_with_columns],
    [^\s*SELECT\s+\*\s+FROM\s+([A-Za-z0-9_]+)\b(G2)$] where the second
    group [G2] is any text, compiled with [re.IGNORECASE | re.DOTALL] and
    used with [pattern.match]: up to group 1 it is the pattern below. *)
Definition select_star_head : Re.regex :=
  Re.Cat [Re.Star sp; Re.Word "SELECT"; Re.Plus sp; Re.Chr "*"; Re.Plus sp;
          Re.Word "FROM"; Re.Plus sp; Re.Grp 1 (Re.Plus idc_ci)].

(** [\b] after group 1: the character before is a word character, so the
    text ends here or goes on with a character outside [\w]. *)
Definition at_boundary (rest : list ascii) : bool :=
  match rest with
  | [] => true
  | c :: _ => negb (Py.is_word c)
  end.

(** [pattern.match(sql)].  What follows group 1, the boundary, group 2
    and the end of the text, is the continuation of the matcher: at a
    word boundary group 2 takes the rest of the text, newlines included,
    and the match is found; elsewhere the matcher backtracks. *)
Definition select_star_match (s : list ascii) : option Re.found :=
  Re.run select_star_head s ∅
    (fun rest g =>
       if at_boundary rest then Some (Re.Found s (<[2 := rest]> g))
       else None).

Definition select_star_change : RewriteChange :=
  {| description := "Replaced SELECT * with explicit column list" |}.

(** [get_columns_for_table] is the caller's resolver, which returns a
    list of names; whatever it raises is caught, so that [Raise] stands
    for any exception here.  Both groups take part in every match. *)
Definition _rewrite_select_star_with_columns (sql : string)
    (get_columns_for_table : string -> Py.result (list string))
  : Rule string :=
  match select_star_match (Py.chars sql) with
  | None => mret sql
  | Some m =>
      match Re.group m 1, Re.group m 2 with
      | Some table, Some tail =>
          match get_columns_for_table table with
          | Py.Raise _ => mret sql
          | Py.Ok [] => mret sql
          | Py.Ok columns =>
              let explicit_list := Py.join ", " columns in
              _ ← append select_star_change;
              mret ("SELECT " +:+ explicit_list +:+ " FROM " +:+ table
                    +:+ tail)
          end
      | _, _ => Py.raise Py.TypeError
      end
  end.

(** [$] without [re.MULTILINE]: the end of the text, or just before a
    newline that ends it. *)
Definition at_end (rest : list ascii) : bool :=
  match rest with
  | [] => true
  | [c] => Ascii.eqb c "010"
  | _ => false
  end.

(** [re.match(r"^[A-Za-z0-9_]+$", table)], as a truth value. *)
Definition safe_identifier (table : string) : bool :=
  match Re.run (Re.Plus idc) (Py.chars table) ∅
          (fun rest _ => if at_end rest then Some tt else None) with
  | Some _ => true
  | None => false
  end.

(** [x or default] on an optional string and on an optional integer, and
    [not x] on an optional string. *)
Definition str_or (x : option string) (d : string) : string :=
  match x with
  | Some s => if String.eqb s "" then d else s
  | None => d
  end.

Definition int_or (x : option Z) (d : Z) : Z :=
  match x with
  | Some n => if (n =? 0)%Z then d else n
  | None => d
  end.

Definition is_set (x : option string) : bool :=
  match x with
  | Some s => negb (String.eqb s "")
  | None => false
  end.

Section Database.
(** The server: what connecting with a configuration, executing a
    statement and reading the first field of every row gives, a list of
    names or an exception. *)
Variable show_columns : MySQLConnectionConfig -> string -> Py.result (list string).

Definition _get_columns_for_table_from_db (config : MySQLConnectionConfig)
    (table : string) : Py.result (list string) :=
  if negb (safe_identifier table) then Py.Ok []
  else show_columns config ("SHOW COLUMNS FROM `" +:+ table +:+ "`").

Definition rewrite_query_with_connection (sql mode : string)
    (host : option string) (port : option Z)
    (user password database : option string) : Py.result RewriteResult :=
  match rewrite_query sql mode with
  | Py.Raise e => Py.Raise e
  | Py.Ok base_result =>
      if negb (bool_decide (Py.lower mode ∈ ["moderate"; "aggressive"]))
      then Py.Ok base_result
      else if negb (is_set database) then Py.Ok base_result
      else
        let config :=
          {| host := str_or host "localhost"; port := int_or port 3306;
             user := user; password := password; database := database |} in
        match _rewrite_select_star_with_columns (rewritten_sql base_result)
                (fun table => _get_columns_for_table_from_db config table)
                (changes base_result) with
        | Py.Ok (rewritten, changes) =>
            Py.Ok {| original_sql := sql; rewritten_sql := rewritten;
                     mode := Py.lower mode; changes := changes |}
        | Py.Raise e => Py.Raise e
        end
  end.
End Database.

End Schema.

(** ** The schema-aware rewrite in words *)

Module SchemaSpec.
Import Rewriter RewriteSpec Connection Schema.

(** A table name made of [[A-Za-z0-9_]]: one or more of these
    characters. *)
Definition identifier (t : list ascii) : Prop :=
  t <> [] /\ Forall (fun a => ident_char a = true) t.

(** A name made of word characters, the characters of [\w]: one or more
    of them.  Every [identifier] is one. *)
Definition word_name (t : list ascii) : Prop :=
  t <> [] /\ Forall (fun a => Py.is_word a = true) t.

(** The text of a statement before its table name: optional blanks,
    [SELECT], blanks, a star, blanks, [FROM], blanks; the two words in
    any letter case. *)
Definition select_star_lead (lead : list ascii) : Prop :=
  exists b0 sel b1 b2 frm b3,
    lead = b0 ++ sel ++ b1 ++ "*"%char :: b2 ++ frm ++ b3
    /\ blank b0 /\ ReSem.same_ci sel (Py.chars "SELECT")
    /\ (blank b1 /\ b1 <> []) /\ (blank b2 /\ b2 <> [])
    /\ ReSem.same_ci frm (Py.chars "FROM") /\ (blank b3 /\ b3 <> []).

(** The statement with the column list in place of the star. *)
Definition explicit_select (columns : list string) (table tail : list ascii)
  : string :=
  "SELECT " +:+ Py.join ", " columns +:+ " FROM " +:+ Py.text table
  +:+ Py.text tail.

(** The statement that asks the server for the columns of a table. *)
Definition show_statement (table : string) : string :=
  "SHOW COLUMNS FROM `" +:+ table +:+ "`".

End SchemaSpec.

(** ** The OR chain, disjunct by disjunct *)

Module ChainSpec.
Import Rewriter RewriteSpec.

(** One further disjunct of a chain, [\s+OR\s+col\s*=\s*value], part by
    part. *)
Record disjunct : Type := {
  d_b1 : list ascii;
  d_or : list ascii;
  d_b2 : list ascii;
  d_col : list ascii;
  d_b3 : list ascii;
  d_b4 : list ascii;
  d_val : list ascii
}.

(** What [re.split] leaves of a disjunct, and the whole disjunct. *)
Definition disjunct_part (d : disjunct) : list ascii :=
  d_col d ++ d_b3 d ++ "="%char :: d_b4 d ++ d_val d.

Definition disjunct_text (d : disjunct) : list ascii :=
  d_b1 d ++ d_or d ++ d_b2 d ++ disjunct_part d.

Definition disjunct_ok (col : list ascii) (d : disjunct) : Prop :=
  (blank (d_b1 d) /\ d_b1 d <> [])
  /\ ReSem.same_ci (d_or d) (Py.chars "OR")
  /\ (blank (d_b2 d) /\ d_b2 d <> [])
  /\ ReSem.same_ci (d_col d) col
  /\ blank (d_b3 d) /\ blank (d_b4 d)
  /\ (solid (d_val d) /\ d_val d <> []).

Definition chain_text (ds : list disjunct) : list ascii :=
  flat_map disjunct_text ds.

(** The value is not the word [OR] standing after a blank, which
    [re.split] would take for a separator. *)
Definition plain_value (d : disjunct) : Prop :=
  d_b4 d = [] \/ ~ ReSem.same_ci (d_val d) (Py.chars "OR").

End ChainSpec.

(** ** index_recommender.py: the analysis of a query

    The database is a parameter: [connect] gives a cursor or raises, and
    a cursor gives for every statement it executes an answer or raises;
    what it gives for a statement does not depend on the statements
    executed before.  The driver's exceptions are the values of a type
    [Exc]. *)

Module Analysis.
Import IndexRecommender Connection.

Record IndexAnalysisResult : Type := {
  query : string;
  recommendations : list IndexRecommendation;
  explain_rows : list PlanRow;
  mysql_version : option string;
  server_version : option string;
  health_score : Z;
  issues : list string
}.

(** [{col: value for col, value in zip(columns, row)}]: the pairs are
    entered from left to right, a later one replaces an earlier one of
    the same column. *)
Definition row_dict (columns : list string) (row : list value) : PlanRow :=
  fold_left (fun d cv => <[cv.1 := cv.2]> d) (zip columns row) ∅.

Section Server.
Variable Exc : Type.

(** [cursor.execute(statement)] and the reading of the result. *)
Definition Cursor : Type := string -> Exc + Answer.

(** [connect(config)] and [conn.cursor()]. *)
Variable connect : MySQLConnectionConfig -> Exc + Cursor.

Definition _collect_explain (cursor : Cursor) (query : string)
  : Exc + list PlanRow :=
  match cursor ("EXPLAIN " +:+ query) with
  | inl e => inl e
  | inr answer =>
      let columns := cursor_description answer in
      inr (map (row_dict columns) (fetchall answer))
  end.

(** The [try] block of [analyze_query_indexes]: [cursor.fetchone()] is
    the first row if there is one, and [str(row[0])] is taken of a row
    that is not empty; every exception leaves the version unknown. *)
Definition detect_server_version (cursor : Cursor) : option string :=
  match cursor "SELECT VERSION()" with
  | inl _ => None
  | inr answer =>
      match fetchall answer with
      | (v :: _) :: _ => Some (str v)
      | _ => None
      end
  end.

Definition analyze_query_indexes (query host : string) (port : Z)
    (user password database mysql_version : option string)
  : Exc + IndexAnalysisResult :=
  let config :=
    {| host := host; port := port; user := user; password := password;
       database := database |} in
  match connect config with
  | inl e => inl e
  | inr cursor =>
      let server_version := detect_server_version cursor in
      match _collect_explain cursor query with
      | inl e => inl e
      | inr explain_rows =>
          let recommendations := _analyze_explain_for_indexes explain_rows in
          let '(health_score, issues) :=
            _compute_index_health explain_rows recommendations in
          inr {| query := query; recommendations := recommendations;
                 explain_rows := explain_rows;
                 mysql_version := mysql_version;
                 server_version := server_version;
                 health_score := health_score; issues := issues |}
      end
  end.

End Server.

End Analysis.

(** ** profiler.py: what a profile reads off the plan *)

Module Profiler.
Import IndexRecommender.

Record ExplainRow : Type := { raw : PlanRow }.

(** [QueryProfileResult.uses_filesort] and [uses_temporary], on the
    [explain_rows] of the result: the loop returns at the first row whose
    annotation mentions the word. *)
Fixpoint uses_filesort (explain_rows : list ExplainRow) : bool :=
  match explain_rows with
  | [] => false
  | row :: explain_rows' =>
      let extra := Py.lower (str (or_ (get (raw row) "Extra") (VStr ""))) in
      if Py.contains "filesort" extra then true
      else uses_filesort explain_rows'
  end.

Fixpoint uses_temporary (explain_rows : list ExplainRow) : bool :=
  match explain_rows with
  | [] => false
  | row :: explain_rows' =>
      let extra := Py.lower (str (or_ (get (raw row) "Extra") (VStr ""))) in
      if Py.contains "temporary" extra then true
      else uses_temporary explain_rows'
  end.

(** One turn of the loop of [index_usage_summary]. *)
Definition summary_row (summary : list PlanRow) (row : ExplainRow)
  : list PlanRow :=
  let key := get (raw row) "key" in
  if negb (truthy key) then summary
  else summary ++ [ {[ "index" := key; "type" := get (raw row) "type";
                       "rows" := get (raw row) "rows" ]} ].

Definition index_usage_summary (explain_rows : list ExplainRow)
  : list PlanRow :=
  fold_left summary_row explain_rows [].

End Profiler.

(** * Properties *)

(** ** The checks of tests/test_basic.py *)

Module Tests.
Import Py Rewriter IndexRecommender.

(** The rewritten text of a call, empty if the call raised. *)
Definition rewritten (r : result RewriteResult) : string :=
  match r with
  | Ok res => rewritten_sql res
  | Raise _ => ""
  end.

Example test_rewriter_null_handling :
  contains "IS NOT NULL"
    (rewritten (rewrite_query "SELECT * FROM users WHERE deleted != NULL" "safe"))
  = true.
Proof. vm_compute. reflexivity. Qed.

Example test_rewriter_or_to_in :
  contains "IN ("
    (rewritten (rewrite_query
       "SELECT * FROM t WHERE status = 'a' OR status = 'b' OR status = 'c'"
       "safe"))
  = true.
Proof. vm_compute. reflexivity. Qed.

Example test_rewriter_year_function_to_range :
  let sql :=
    rewritten (rewrite_query
      "SELECT * FROM orders WHERE YEAR(created_at) = 2024" "safe") in
  contains "created_at >= '2024-01-01'" sql = true
  /\ contains "created_at < '2025-01-01'" sql = true.
Proof. vm_compute. split; reflexivity. Qed.

Example test_index_health_penalizes_full_scan :
  let explain_rows : list PlanRow :=
    [ {[ "table" := VStr "orders"; "type" := VStr "ALL";
         "Extra" := VStr "Using where" ]} ] in
  _compute_index_health explain_rows []
  = (80%Z, ["Full table scan on orders (type=ALL)"]).
Proof. vm_compute. reflexivity. Qed.

(** Three full scans cost three times 20, a filesort and a temporary
    table 10 each, and two recommendations 10; the issues come in row
    order. *)
Example health_penalties_add_up :
  let scan t : PlanRow := {[ "table" := VStr t; "type" := VStr "ALL" ]} in
  let sorted : PlanRow :=
    {[ "table" := VStr "c"; "type" := VStr "index";
       "Extra" := VStr "Using temporary; Using filesort" ]} in
  let r := {| table := VStr "a"; suggested_index_name := "idx_a_x";
              columns := ["x"]; reason := "" |} in
  _compute_index_health [scan "a"; scan "b"; sorted; scan "d"] [r; r]
  = (5%Z, ["Full table scan on a (type=ALL)";
           "Full table scan on b (type=ALL)";
           "Sequential index scan on c (type=index)";
           "Filesort required for c";
           "Temporary table used for c";
           "Full table scan on d (type=ALL)";
           "2 index recommendation(s) suggested"]).
Proof. vm_compute. reflexivity. Qed.

(** The OR rule on the chain of the specification, step by step: the
    groups of the match, the parts of group 3, and what [partition]
    makes of the first part. *)
Example or_chain_groups :
  option_map (fun m => (Re.group m 1, Re.group m 2, Re.group m 3))
    (Re.search or_pattern
       "SELECT * FROM t WHERE status = 'a' OR status = 'b' OR status = 'c'")
  = Some (Some "status", Some "'a'", Some "'b' OR status = 'c'")
  /\ Re.split or_separator "'b' OR status = 'c'" = ["'b'"; "status = 'c'"]
  /\ partition "'b'" "=" = ("'b'", "", "")
  /\ partition "status = 'c'" "=" = ("status ", "=", " 'c'").
Proof. vm_compute. repeat split; reflexivity. Qed.

(** The matcher backtracks and compares backreferences up to case. *)
Example or_pattern_groups :
  option_map (fun m => (Re.group m 1, Re.group m 2, Re.group m 3))
    (Re.search or_pattern "select 1 Where T.a =1 or t.A= 2  OR t.a = 3 OR b = 4")
  = Some (Some "T.a", Some "1", Some "2  OR t.a = 3").
Proof. vm_compute. reflexivity. Qed.

End Tests.

(** ** Text *)

Module PyFacts.
Import Py Counting.

Lemma chars_text (l : list ascii) : chars (text l) = l.
Proof. apply list_ascii_of_string_of_list_ascii. Qed.

Lemma text_chars (s : string) : text (chars s) = s.
Proof. apply string_of_list_ascii_of_string. Qed.

Lemma chars_app (a b : string) : chars (a +:+ b) = chars a ++ chars b.
Proof. induction a as [|c a IH]; simpl; [reflexivity | f_equal; exact IH]. Qed.

Lemma text_app (a b : list ascii) : text (a ++ b) = text a +:+ text b.
Proof.
  induction a as [|c a IH]; [reflexivity|].
  change (String c (text (a ++ b)) = String c (text a +:+ text b)).
  now rewrite IH.
Qed.

Lemma append_empty_r (s : string) : s +:+ "" = s.
Proof.
  induction s as [|c s IH]; [reflexivity|].
  change (String c (s +:+ "") = String c s). now rewrite IH.
Qed.

Lemma chars_inj (a b : string) : chars a = chars b -> a = b.
Proof. intros H. rewrite <- (text_chars a), <- (text_chars b). now rewrite H. Qed.

Lemma count_app (c : ascii) (a b : list ascii) :
  count c (a ++ b) = count c a + count c b.
Proof. induction a as [|x a IH]; cbn [count app]; [reflexivity | rewrite IH; lia]. Qed.

Lemma count_cons (c a : ascii) (s : list ascii) :
  count c (a :: s) = (if Ascii.eqb a c then 1 else 0) + count c s.
Proof. reflexivity. Qed.

Lemma count_one (c : ascii) : count c [c] = 1.
Proof. cbn [count]. now rewrite Ascii.eqb_refl. Qed.

Lemma count_rev (c : ascii) (s : list ascii) : count c (rev s) = count c s.
Proof.
  induction s as [|a s IH]; [reflexivity|].
  cbn [rev]. rewrite count_app, IH, !count_cons. cbn [count]. lia.
Qed.

Lemma count_none (c : ascii) (s : list ascii) :
  Forall (fun a => a <> c) s -> count c s = 0.
Proof.
  induction 1 as [|a s Ha _ IH]; [reflexivity|].
  rewrite count_cons, IH. destruct (Ascii.eqb_spec a c); [contradiction | reflexivity].
Qed.

Lemma lstrip_count (c : ascii) (s : list ascii) :
  count c (lstrip s) <= count c s.
Proof.
  induction s as [|a s IH]; cbn [lstrip]; [lia|].
  destruct (is_space a); [rewrite count_cons; lia | lia].
Qed.

Lemma strip_count (c : ascii) (s : string) :
  count c (chars (strip s)) <= count c (chars s).
Proof.
  unfold strip. rewrite chars_text, count_rev.
  etransitivity; [apply lstrip_count|]. rewrite count_rev. apply lstrip_count.
Qed.

Lemma partition_go_count (c sep : ascii) (s acc : list ascii) :
  count c (snd (partition_go sep s acc)) <= count c s.
Proof.
  revert acc. induction s as [|a s IH]; intros acc; cbn [partition_go]; [cbn; lia|].
  destruct (Ascii.eqb a sep); cbn [snd]; rewrite count_cons; [lia|].
  specialize (IH (a :: acc)). lia.
Qed.

Lemma partition_count (c sep : ascii) (s : string) :
  count c (chars (snd (partition s sep))) <= count c (chars s).
Proof.
  unfold partition. pose proof (partition_go_count c sep (chars s) []) as H.
  destruct (partition_go sep (chars s) []) as [[a b] d]. cbn [snd] in *.
  now rewrite chars_text.
Qed.

Lemma join_count (c : ascii) (sep : string) (items : list string) :
  count c (chars sep) = 0 ->
  count c (chars (join sep items)) = total c items.
Proof.
  intros Hsep. induction items as [|x items IH]; [reflexivity|].
  cbn [join total]. destruct items as [|y items].
  - cbn [total]. lia.
  - rewrite !chars_app, !count_app, Hsep, IH. lia.
Qed.

(** *** Integers *)

Lemma digit_value_nonneg (c : ascii) : is_digit c = true -> (0 <= digit_value c)%Z.
Proof.
  unfold is_digit, digit_value. intros H.
  apply andb_true_iff in H as [H _]. apply Nat.leb_le in H. lia.
Qed.

Lemma int_go_digits (s : list ascii) (acc : Z) :
  Forall (fun c => is_digit c = true) s -> (0 <= acc)%Z ->
  exists y, int_go s acc = Ok y /\ (0 <= y)%Z.
Proof.
  intros H. revert acc. induction H as [|c s Hc _ IH]; intros acc Hacc; cbn [int_go].
  - eauto.
  - rewrite Hc. apply IH. pose proof (digit_value_nonneg c Hc). lia.
Qed.

Lemma int_digits (s : list ascii) :
  Forall (fun c => is_digit c = true) s -> s <> [] ->
  exists y, int (text s) = Ok y /\ (0 <= y)%Z.
Proof.
  intros H Hne. unfold int. rewrite chars_text.
  destruct s as [|c s]; [contradiction|]. now apply int_go_digits.
Qed.

Lemma uint_digits (u : Decimal.uint) :
  Forall (fun c => is_digit c = true) (chars (NilEmpty.string_of_uint u)).
Proof. induction u; cbn; constructor; auto. Qed.

Lemma str_of_int_digits (n : Z) :
  (0 <= n)%Z -> Forall (fun c => is_digit c = true) (chars (str_of_int n)).
Proof.
  intros Hn. unfold str_of_int.
  destruct n as [|p|p]; [repeat constructor | | lia].
  cbn [Z.to_int NilZero.string_of_int]. unfold NilZero.string_of_uint.
  destruct (Pos.to_uint p) eqn:E; try (rewrite <- E; apply uint_digits).
  repeat constructor.
Qed.

Lemma zeros_digits (n : nat) : Forall (fun c => is_digit c = true) (chars (zeros n)).
Proof. induction n as [|n IH]; cbn; constructor; auto. Qed.

Lemma format_04d_digits (n : Z) :
  (0 <= n)%Z -> Forall (fun c => is_digit c = true) (chars (format_04d n)).
Proof.
  intros Hn. unfold format_04d.
  destruct (n <? 0)%Z eqn:E; [apply Z.ltb_lt in E; lia|].
  rewrite chars_app. apply Forall_app. split;
    [apply zeros_digits | now apply str_of_int_digits].
Qed.

End PyFacts.

(** ** The matcher *)

Module ReFacts.
Import Re ReSem PyFacts.

Lemma eat_sound (u s s' : list ascii) :
  eat u s = Some s' -> exists t, s = t ++ s' /\ same_ci t u.
Proof.
  revert s. induction u as [|a u IH]; intros s H; cbn in H.
  - injection H as ->. exists []. split; [reflexivity | constructor].
  - destruct s as [|b s]; [discriminate|].
    destruct (ieq b a) eqn:E; [|discriminate].
    destruct (IH _ H) as (t & -> & Ht).
    exists (b :: t). split; [reflexivity | now constructor].
Qed.

Section Soundness.
Context {A : Type}.

Lemma star_loop_sound (r : regex) body :
  sound_for (A := A) r body ->
  forall n s g (k : list ascii -> groups -> option A) x,
    star_loop body k n s g = Some x ->
    exists t s' g',
      s = t ++ s' /\ matches (Star r) g t g' /\ k s' g' = Some x.
Proof.
  intros Hbody. induction n as [|n IH]; intros s g k x H;
    cbn [star_loop] in H.
  - exists [], s, g. repeat split; [constructor | exact H].
  - destruct (body s g _) as [y|] eqn:E.
    + assert (y = x) as -> by congruence. clear H.
      destruct (Hbody _ _ _ _ E) as (t1 & s1 & g1 & -> & Hm & Hk).
      destruct (length s1 <? length (t1 ++ s1)) eqn:Hlen; [|discriminate].
      destruct (IH _ _ _ _ Hk) as (t2 & s2 & g2 & -> & Hm2 & Hk2).
      exists (t1 ++ t2), s2, g2. repeat split.
      * now rewrite app_assoc.
      * apply matches_star_more with g1; [exact Hm | | exact Hm2].
        intros ->. apply Nat.ltb_lt in Hlen. cbn in Hlen. lia.
      * exact Hk2.
    + exists [], s, g. repeat split; [constructor | exact H].
Qed.

Lemma run_sound (r : regex) : sound_for (A := A) r (run r).
Proof.
  induction r as [|c|p|r1 IH1 r2 IH2|r IH|n r IH|n]; intros s g k x H;
    cbn [run] in H.
  - exists [], s, g. repeat split; [constructor | exact H].
  - destruct s as [|a s]; [discriminate|].
    destruct (ieq a c) eqn:E; [|discriminate].
    exists [a], s, g. repeat split; [now constructor | exact H].
  - destruct s as [|a s]; [discriminate|].
    destruct (p a) eqn:E; [|discriminate].
    exists [a], s, g. repeat split; [now constructor | exact H].
  - destruct (IH1 _ _ _ _ H) as (t1 & s1 & g1 & -> & Hm1 & H1).
    destruct (IH2 _ _ _ _ H1) as (t2 & s2 & g2 & -> & Hm2 & H2).
    exists (t1 ++ t2), s2, g2. repeat split;
      [now rewrite app_assoc | now apply matches_seq with g1 | exact H2].
  - now apply star_loop_sound with (run r) (length s).
  - destruct (IH _ _ _ _ H) as (t & s1 & g1 & -> & Hm & H1).
    rewrite length_app, Nat.add_sub, take_app_length in H1.
    exists t, s1, (<[n := t]> g1). repeat split; [now constructor | exact H1].
  - destruct (g !! n) as [u|] eqn:Hg; [|discriminate].
    destruct (eat u s) as [s'|] eqn:He; [|discriminate].
    destruct (eat_sound _ _ _ He) as (t & -> & Ht).
    exists t, s', g. repeat split; [now apply matches_ref with u | exact H].
Qed.
End Soundness.

(** *** Reading a match back *)

Lemma matches_eps_inv g t g' : matches Eps g t g' -> t = [] /\ g' = g.
Proof. inversion 1; subst; split; reflexivity. Qed.

Lemma matches_chr_inv c g t g' :
  matches (Chr c) g t g' -> exists a, t = [a] /\ ieq a c = true /\ g' = g.
Proof. inversion 1; subst. eauto. Qed.

Lemma matches_cls_inv p g t g' :
  matches (Cls p) g t g' -> exists a, t = [a] /\ p a = true /\ g' = g.
Proof. inversion 1; subst. eauto. Qed.

Lemma matches_seq_inv r1 r2 g t g' :
  matches (Seq r1 r2) g t g' ->
  exists t1 t2 g1, t = t1 ++ t2 /\ matches r1 g t1 g1 /\ matches r2 g1 t2 g'.
Proof. inversion 1; subst. eauto 6. Qed.

Lemma matches_grp_inv n r g t g' :
  matches (Grp n r) g t g' -> exists g1, matches r g t g1 /\ g' = <[n := t]> g1.
Proof. inversion 1; subst. eauto. Qed.

Lemma matches_ref_inv n g t g' :
  matches (Ref n) g t g' -> exists u, g !! n = Some u /\ same_ci t u /\ g' = g.
Proof. inversion 1; subst. eauto. Qed.

Lemma matches_cat_inv r rs g t g' :
  matches (Cat (r :: rs)) g t g' ->
  exists t1 t2 g1,
    t = t1 ++ t2 /\ matches r g t1 g1 /\ matches (Cat rs) g1 t2 g'.
Proof. apply matches_seq_inv. Qed.

(** A pattern without groups leaves the groups alone. *)
Lemma matches_groupless r g t g' :
  matches r g t g' -> groupless r = true -> g' = g.
Proof.
  induction 1 as [| | |r1 r2 g t1 g1 t2 g2 _ IH1 _ IH2| |r g t1 g1 t2 g2 _ IH1 _ _ IH2| |];
    cbn [groupless]; intros Hg; try reflexivity; try discriminate.
  - apply andb_true_iff in Hg as [H1 H2]. rewrite IH2, IH1; auto.
  - rewrite IH2, IH1; auto.
Qed.

(** The characters of a repeated class are in the class. *)
Lemma matches_star_cls p g t g' :
  matches (Star (Cls p)) g t g' -> Forall (fun a => p a = true) t.
Proof.
  intros H. remember (Star (Cls p)) as r eqn:Hr.
  induction H as [| | | | |r g t1 g1 t2 g2 H1 _ _ _ IH2| |]; try discriminate.
  - constructor.
  - injection Hr as ->. apply matches_cls_inv in H1 as (a & -> & Ha & _).
    constructor; [exact Ha | now apply IH2].
Qed.

Lemma matches_plus_cls p g t g' :
  matches (Plus (Cls p)) g t g' ->
  Forall (fun a => p a = true) t /\ t <> [] /\ g' = g.
Proof.
  intros H. pose proof (matches_groupless _ _ _ _ H eq_refl) as Hg.
  apply matches_seq_inv in H as (t1 & t2 & g1 & -> & H1 & H2).
  apply matches_cls_inv in H1 as (a & -> & Ha & _).
  apply matches_star_cls in H2.
  repeat split; [now constructor | discriminate | exact Hg].
Qed.

Lemma match_at_sound (r : regex) (s rest : list ascii) (g : groups) :
  match_at r s = Some (rest, g) ->
  exists t, s = t ++ rest /\ matches r ∅ t g.
Proof.
  intros H. destruct (run_sound r _ _ _ _ H) as (t & s' & g' & -> & Hm & Hk).
  injection Hk as -> ->. now exists t.
Qed.

Lemma hit_of_app (t rest : list ascii) (g : groups) :
  hit_of (t ++ rest) rest g = Found t g.
Proof. unfold hit_of. now rewrite length_app, Nat.add_sub, take_app_length. Qed.

Lemma scan_sound (r : regex) (fuel : nat) (s : list ascii) :
  Forall (hit_sound r) (scan fuel r s).
Proof.
  revert s. induction fuel as [|fuel IH]; intros s; cbn [scan]; [constructor|].
  destruct (match_at r s) as [[rest g]|] eqn:E.
  - destruct (match_at_sound _ _ _ _ E) as (t & -> & Hm).
    rewrite hit_of_app.
    destruct (length rest <? length (t ++ rest)).
    + constructor; [exact Hm | apply IH].
    + destruct (t ++ rest) as [|c s']; repeat constructor; try exact Hm; apply IH.
  - destruct s as [|c s']; repeat constructor; apply IH.
Qed.

(** The pieces of a scan, put together, are the text. *)
Lemma scan_text (r : regex) (fuel : nat) (s : list ascii) :
  length s < fuel -> flat_map piece_text (scan fuel r s) = s.
Proof.
  revert s. induction fuel as [|fuel IH]; intros s Hlen; [lia|]. cbn [scan].
  destruct (match_at r s) as [[rest g]|] eqn:E.
  - destruct (match_at_sound _ _ _ _ E) as (t & -> & Hm).
    rewrite hit_of_app.
    destruct (length rest <? length (t ++ rest)) eqn:Hlt.
    + apply Nat.ltb_lt in Hlt. cbn [flat_map piece_text whole].
      rewrite IH by lia. reflexivity.
    + apply Nat.ltb_ge in Hlt. rewrite length_app in Hlt.
      destruct t as [|a t]; [|cbn in Hlt; lia]. cbn [app] in *.
      destruct rest as [|c s']; [reflexivity|].
      cbn [flat_map piece_text whole app]. rewrite IH by (cbn in Hlen; lia).
      reflexivity.
  - destruct s as [|c s']; [reflexivity|].
    cbn [flat_map piece_text app]. rewrite IH by (cbn in Hlen; lia). reflexivity.
Qed.

Lemma pieces_text (r : regex) (s : list ascii) :
  flat_map piece_text (pieces r s) = s.
Proof. apply scan_text. lia. Qed.

Lemma pieces_sound (r : regex) (s : list ascii) :
  Forall (hit_sound r) (pieces r s).
Proof. apply scan_sound. Qed.

(** Without a match anywhere, the scan keeps every character. *)
Lemma scan_none (r : regex) (fuel : nat) (s : list ascii) :
  search_go r s = None -> length s < fuel -> scan fuel r s = map Keep s.
Proof.
  revert s. induction fuel as [|fuel IH]; intros s H Hlen; [lia|].
  cbn [scan]. destruct s as [|c s']; cbn [search_go] in H.
  - destruct (match_at r []) as [[rest g]|]; [discriminate | reflexivity].
  - destruct (match_at r (c :: s')) as [[rest g]|]; [discriminate|].
    cbn [map]. rewrite IH; [reflexivity | exact H | cbn in Hlen; lia].
Qed.

(** With a match somewhere, the scan has one. *)
Lemma scan_some (r : regex) (fuel : nat) (s : list ascii) (m : found) :
  search_go r s = Some m -> length s < fuel -> 0 < hits (scan fuel r s).
Proof.
  revert s. induction fuel as [|fuel IH]; intros s H Hlen; [lia|].
  cbn [scan]. destruct s as [|c s']; cbn [search_go] in H.
  - destruct (match_at r []) as [[rest g]|]; [|discriminate].
    destruct (length rest <? length []); cbn; lia.
  - destruct (match_at r (c :: s')) as [[rest g]|].
    + destruct (length rest <? length (c :: s')); cbn [hits is_hit]; lia.
    + cbn [hits is_hit]. apply IH in H; [lia | cbn in Hlen; lia].
Qed.

(** The scan does not depend on the fuel, once there is enough. *)
Lemma scan_fuel (r : regex) (f1 f2 : nat) (s : list ascii) :
  length s < f1 -> length s < f2 -> scan f1 r s = scan f2 r s.
Proof.
  revert f2 s. induction f1 as [|f1 IH]; intros f2 s H1 H2; [lia|].
  destruct f2 as [|f2]; [lia|]. cbn [scan].
  destruct (match_at r s) as [[rest g]|] eqn:E.
  - destruct (length rest <? length s) eqn:Hlt.
    + apply Nat.ltb_lt in Hlt. f_equal. apply IH; lia.
    + destruct s as [|c s']; [reflexivity|].
      do 2 f_equal. apply IH; cbn in H1, H2; lia.
  - destruct s as [|c s']; [reflexivity|].
    f_equal. apply IH; cbn in H1, H2; lia.
Qed.

(** The scan, one step at a time. *)
Lemma pieces_hit (r : regex) (t rest : list ascii) (g : groups) :
  match_at r (t ++ rest) = Some (rest, g) -> t <> [] ->
  pieces r (t ++ rest) = Hit (Found t g) :: pieces r rest.
Proof.
  intros E Ht. unfold pieces at 1. cbn [scan]. rewrite E, hit_of_app.
  assert (length rest < length (t ++ rest)) as Hlt.
  { rewrite length_app. destruct t; [contradiction | cbn; lia]. }
  apply Nat.ltb_lt in Hlt as Hb. rewrite Hb. f_equal.
  unfold pieces. apply scan_fuel; lia.
Qed.

Lemma pieces_keep (r : regex) (c : ascii) (s : list ascii) :
  match_at r (c :: s) = None -> pieces r (c :: s) = Keep c :: pieces r s.
Proof. intros E. unfold pieces at 1. cbn [scan length]. now rewrite E. Qed.

Lemma pieces_skip (r : regex) (pre s : list ascii) :
  clear_before r pre s = true -> pieces r (pre ++ s) = map Keep pre ++ pieces r s.
Proof.
  induction pre as [|c pre IH]; intros H; [reflexivity|].
  cbn [clear_before] in H. cbn [app map] in *.
  destruct (match_at r (c :: pre ++ s)) eqn:E; [discriminate|].
  rewrite (pieces_keep _ _ _ E), IH by exact H. reflexivity.
Qed.

(** *** Running the matcher forward *)

Lemma take_consumed {X : Type} (t s : list X) :
  take (length (t ++ s) - length s) (t ++ s) = t.
Proof. now rewrite length_app, Nat.add_sub, take_app_length. Qed.

Lemma run_chrs {A : Type} (cs t s : list ascii) (g : groups)
    (k : list ascii -> groups -> option A) :
  same_ci t cs -> run (Cat (map Chr cs)) (t ++ s) g k = k s g.
Proof.
  intros H. induction H as [|a c t cs Hac _ IH]; [reflexivity|].
  cbn [map Cat run app]. now rewrite Hac.
Qed.

Lemma run_word {A : Type} (w : string) (t s : list ascii) (g : groups)
    (k : list ascii -> groups -> option A) :
  same_ci t (Py.chars w) -> run (Word w) (t ++ s) g k = k s g.
Proof. apply run_chrs. Qed.

Lemma star_loop_cls {A : Type} (p : ascii -> bool) (w s : list ascii)
    (g : groups) (k : list ascii -> groups -> option A) (x : A) (n : nat) :
  Forall (fun a => p a = true) w -> stops p s -> k s g = Some x ->
  length w <= n ->
  star_loop (run (Cls p)) k n (w ++ s) g = Some x.
Proof.
  intros Hw Hs Hk. revert n. induction Hw as [|a w Ha _ IH]; intros n Hn.
  - cbn [app]. destruct n as [|n]; [exact Hk|]. cbn [star_loop run].
    destruct s as [|b s']; [exact Hk|]. cbn [stops] in Hs. now rewrite Hs.
  - destruct n as [|n]; [cbn in Hn; lia|]. cbn [star_loop run app]. rewrite Ha.
    assert ((length (w ++ s) <? length (a :: w ++ s)) = true) as ->
        by (apply Nat.ltb_lt; cbn; lia).
    rewrite IH by (cbn in Hn; lia). reflexivity.
Qed.

(** A greedy run of a class takes all of [w] when the text stops there
    and the rest of the pattern goes through. *)
Lemma run_star_cls {A : Type} (p : ascii -> bool) (w s : list ascii)
    (g : groups) (k : list ascii -> groups -> option A) (x : A) :
  Forall (fun a => p a = true) w -> stops p s -> k s g = Some x ->
  run (Star (Cls p)) (w ++ s) g k = Some x.
Proof.
  intros Hw Hs Hk. cbn [run]. apply star_loop_cls; try assumption.
  rewrite length_app. lia.
Qed.

Lemma run_plus_cls {A : Type} (p : ascii -> bool) (w s : list ascii)
    (g : groups) (k : list ascii -> groups -> option A) (x : A) :
  Forall (fun a => p a = true) w -> w <> [] -> stops p s -> k s g = Some x ->
  run (Plus (Cls p)) (w ++ s) g k = Some x.
Proof.
  intros Hw Hne Hs Hk. destruct Hw as [|a w Ha Hw]; [contradiction|].
  unfold Plus. cbn [run app]. rewrite Ha. now apply (run_star_cls p w s).
Qed.

(** *** Searching *)

Lemma search_none_suffix (r : regex) (s1 s2 : list ascii) :
  search_go r (s1 ++ s2) = None -> search_go r s2 = None.
Proof.
  induction s1 as [|c s1 IH]; intros H; [exact H|].
  cbn [app search_go] in H.
  destruct (match_at r (c :: s1 ++ s2)) as [[rest g]|]; [discriminate|]. auto.
Qed.

Lemma search_none_here (r : regex) (s : list ascii) :
  search_go r s = None -> match_at r s = None.
Proof.
  destruct s as [|c s]; cbn [search_go];
    destruct (match_at r _) as [[rest g]|]; intros H; congruence.
Qed.

(** Characters that start no match are skipped by the search. *)
Lemma search_skip (r : regex) (l s : list ascii) :
  Forall (fun a => forall X, match_at r (a :: X) = None) l ->
  search_go r (l ++ s) = search_go r s.
Proof.
  induction 1 as [|a l Ha _ IH]; [reflexivity|].
  cbn [app search_go]. now rewrite Ha.
Qed.

(** *** A constant replacement, one step at a time *)

Lemma replace_all_hit (r : regex) (repl : string) (t rest : list ascii)
    (g : groups) :
  match_at r (t ++ rest) = Some (rest, g) -> t <> [] ->
  replace_all r repl (t ++ rest) = Py.chars repl ++ replace_all r repl rest.
Proof.
  intros E Ht. unfold replace_all. now rewrite (pieces_hit _ _ _ _ E Ht).
Qed.

Lemma replace_all_keep (r : regex) (repl : string) (c : ascii) (s : list ascii) :
  match_at r (c :: s) = None ->
  replace_all r repl (c :: s) = c :: replace_all r repl s.
Proof. intros E. unfold replace_all. now rewrite (pieces_keep _ _ _ E). Qed.

Lemma replace_all_nil (r : regex) (repl : string) :
  match_at r [] = None -> replace_all r repl [] = [].
Proof. intros E. unfold replace_all, pieces. cbn [scan]. now rewrite E. Qed.

Lemma replace_all_none (r : regex) (repl : string) (s : list ascii) :
  search_go r s = None -> replace_all r repl s = s.
Proof.
  intros H. unfold replace_all, pieces. rewrite (scan_none _ _ _ H) by lia.
  clear H. induction s as [|c s IH]; [reflexivity|]. cbn [map flat_map app].
  now rewrite IH.
Qed.

(** *** Completeness

    Whenever some match of [r] leads the continuation to succeed, the
    matcher succeeds, possibly through a match it tries earlier. *)

Lemma eat_complete (u t s : list ascii) :
  same_ci t u -> eat u (t ++ s) = Some s.
Proof.
  intros H. induction H as [|a b t u Hab _ IH]; [reflexivity|].
  cbn [eat app]. now rewrite Hab.
Qed.

Section Completeness.
Context {A : Type}.

Lemma star_loop_complete (r : regex) body :
  complete_for (A := A) r body ->
  forall g t g', matches (Star r) g t g' ->
    forall s (k : list ascii -> groups -> option A) x n,
      k s g' = Some x -> length (t ++ s) <= n ->
      exists y, star_loop body k n (t ++ s) g = Some y.
Proof.
  intros Hbody g t g' H. remember (Star r) as sr eqn:Hsr.
  induction H as [| | | |r0 g|r0 g t1 g1 t2 g2 H1 _ Hne H2 IH2| |];
    try discriminate; intros s k x n Hk Hn.
  - cbn [app]. destruct n as [|n]; cbn [star_loop]; [eauto|].
    destruct (body s g _); eauto.
  - injection Hsr as ->. rewrite <- app_assoc in *.
    destruct n as [|n].
    { destruct t1; [contradiction | cbn in Hn; lia]. }
    cbn [star_loop].
    assert (length (t2 ++ s) < length (t1 ++ t2 ++ s)) as Hlt.
    { rewrite (length_app t1). destruct t1; [contradiction | cbn; lia]. }
    destruct (IH2 eq_refl s k x n Hk ltac:(lia)) as (y & Hy).
    destruct (Hbody _ _ _ H1 (t2 ++ s)
                (fun s1 g1 =>
                   if length s1 <? length (t1 ++ t2 ++ s)
                   then star_loop body k n s1 g1 else None) y) as (z & Hz).
    { apply Nat.ltb_lt in Hlt. now rewrite Hlt. }
    rewrite Hz. eauto.
Qed.

Lemma run_complete (r : regex) : complete_for (A := A) r (run r).
Proof.
  induction r as [|c|p|r1 IH1 r2 IH2|r IH|n r IH|n]; intros g t g' H s k x Hk.
  - apply matches_eps_inv in H as [-> ->]. cbn. eauto.
  - apply matches_chr_inv in H as (a & -> & Ha & ->). cbn [app run].
    rewrite Ha. eauto.
  - apply matches_cls_inv in H as (a & -> & Ha & ->). cbn [app run].
    rewrite Ha. eauto.
  - apply matches_seq_inv in H as (t1 & t2 & g1 & -> & H1 & H2).
    rewrite <- app_assoc. cbn [run].
    destruct (IH2 _ _ _ H2 s k x Hk) as (y & Hy).
    exact (IH1 _ _ _ H1 (t2 ++ s) (fun s1 g1 => run r2 s1 g1 k) y Hy).
  - cbn [run]. now apply (star_loop_complete r (run r) IH g t g' H s k x).
  - apply matches_grp_inv in H as (g1 & H & ->). cbn [run].
    apply (IH _ _ _ H s _ x). now rewrite take_consumed.
  - apply matches_ref_inv in H as (u & Hu & Ht & ->). cbn [run].
    rewrite Hu, (eat_complete _ _ _ Ht). eauto.
Qed.
End Completeness.

(** The matcher finds a match at the head of a text exactly when the
    text starts with a match of the pattern. *)
Lemma match_at_iff (r : regex) (s : list ascii) :
  match_at r s <> None <-> exists t rest g, s = t ++ rest /\ matches r ∅ t g.
Proof.
  split.
  - destruct (match_at r s) as [[rest g]|] eqn:E; [|contradiction]. intros _.
    destruct (match_at_sound _ _ _ _ E) as (t & Hs & Hm). eauto.
  - intros (t & rest & g & -> & Hm). unfold match_at.
    destruct (run_complete r _ _ _ Hm rest (fun s' g' => Some (s', g'))
                (rest, g) eq_refl) as (y & Hy).
    rewrite Hy. discriminate.
Qed.

(** A search fails exactly when no part of the text is a match. *)
Lemma search_none_iff (r : regex) (s : list ascii) :
  search_go r s = None
  <-> forall a t b g, s = a ++ t ++ b -> ~ matches r ∅ t g.
Proof.
  split.
  - intros H a t b g -> Hm. apply search_none_suffix, search_none_here in H.
    apply (proj2 (match_at_iff r (t ++ b))); eauto.
  - induction s as [|c s IH]; intros H; cbn [search_go].
    + destruct (match_at r []) as [[rest g]|] eqn:E; [|reflexivity].
      destruct (match_at_sound _ _ _ _ E) as (t & Hs & Hm).
      exfalso. apply (H [] t rest g); [exact Hs | exact Hm].
    + destruct (match_at r (c :: s)) as [[rest g]|] eqn:E.
      * destruct (match_at_sound _ _ _ _ E) as (t & Hs & Hm).
        exfalso. apply (H [] t rest g); [exact Hs | exact Hm].
      * apply IH. intros a t b g -> Hm. apply (H (c :: a) t b g); [reflexivity | exact Hm].
Qed.

(** *** When a replacement leaves nothing to find

    The pattern [q] is replaced by [repl] all over a text; afterwards the
    pattern [p] is searched.  The replacement starts with the character
    [i] and none of its characters starts a match of [p]; a match of [p]
    is decided by its own text, in which [i] can only come first. *)
Section Stable.
Variables (p q : regex) (repl : string) (i : ascii).

Hypothesis repl_head : exists tl, Py.chars repl = i :: tl.
Hypothesis repl_inert :
  Forall (fun a => forall X, match_at p (a :: X) = None) (Py.chars repl).
Hypothesis q_consumes :
  forall s rest g, match_at q s = Some (rest, g) ->
    exists t, t <> [] /\ s = t ++ rest.
Hypothesis p_empty : match_at p [] = None.
Hypothesis p_local :
  forall c X rest g, match_at p (c :: X) = Some (rest, g) ->
    exists t, X = t ++ rest /\ Forall (fun a => a <> i) t
              /\ forall Y, match_at p (c :: t ++ Y) <> None.

Lemma q_empty : match_at q [] = None.
Proof.
  destruct (match_at q []) as [[rest g]|] eqn:E; [|reflexivity].
  destruct (q_consumes _ _ _ E) as (t & Ht & Hs).
  destruct t; [contradiction | discriminate].
Qed.

(** A stretch without [i] at the head of the result was there before. *)
Lemma replaced_prefix (t : list ascii) :
  Forall (fun a => a <> i) t ->
  forall s Z, replace_all q repl s = t ++ Z -> exists Y, s = t ++ Y.
Proof.
  induction 1 as [|a t Ha _ IH]; intros s Z H; [now exists s|].
  destruct s as [|c s].
  - rewrite (replace_all_nil _ _ q_empty) in H. discriminate.
  - destruct (match_at q (c :: s)) as [[rest g]|] eqn:E.
    + destruct (q_consumes _ _ _ E) as (u & Hu & Hs). rewrite Hs in E, H.
      rewrite (replace_all_hit _ _ _ _ _ E Hu) in H.
      destruct repl_head as (tl & Etl). rewrite Etl in H. cbn [app] in H.
      injection H as H _. congruence.
    + rewrite (replace_all_keep _ _ _ _ E) in H. cbn [app] in H.
      injection H as -> H. destruct (IH _ _ H) as (Y & ->). now exists Y.
Qed.

Lemma replaced_clear (n : nat) :
  forall s, length s <= n ->
    (forall s1 s2, s = s1 ++ s2 -> match_at q s2 = None -> match_at p s2 = None) ->
    search_go p (replace_all q repl s) = None.
Proof.
  induction n as [|n IH]; intros s Hlen Hs.
  - destruct s; [|cbn in Hlen; lia].
    rewrite (replace_all_nil _ _ q_empty). cbn [search_go]. now rewrite p_empty.
  - destruct s as [|c s].
    { rewrite (replace_all_nil _ _ q_empty). cbn [search_go]. now rewrite p_empty. }
    destruct (match_at q (c :: s)) as [[rest g]|] eqn:E.
    + destruct (q_consumes _ _ _ E) as (u & Hu & Hcs). rewrite Hcs in E.
      rewrite Hcs, (replace_all_hit _ _ _ _ _ E Hu), (search_skip _ _ _ repl_inert).
      apply IH.
      * apply (f_equal length) in Hcs. rewrite length_app in Hcs.
        destruct u; [contradiction|]. cbn in Hcs, Hlen. lia.
      * intros s1 s2 ->. apply (Hs (u ++ s1)). now rewrite Hcs, app_assoc.
    + rewrite (replace_all_keep _ _ _ _ E). cbn [search_go].
      destruct (match_at p (c :: replace_all q repl s)) as [[rest g]|] eqn:Ep.
      * exfalso. destruct (p_local _ _ _ _ Ep) as (t & Ht & Hi & Hall).
        destruct (replaced_prefix t Hi _ _ Ht) as (Y & ->).
        apply (Hall Y). apply (Hs []); [reflexivity | exact E].
      * apply IH; [cbn in Hlen; lia|].
        intros s1 s2 ->. apply (Hs (c :: s1)). reflexivity.
Qed.

End Stable.

(** *** Texts inside texts *)

(** Where a character of a text put together from two lies. *)
Lemma elem_app_split {X : Type} (l1 l2 o1 o2 : list X) (a : X) :
  l1 ++ l2 = o1 ++ a :: o2 ->
  (exists m, l1 = o1 ++ a :: m /\ o2 = m ++ l2)
  \/ (exists m, o1 = l1 ++ m /\ l2 = m ++ a :: o2).
Proof.
  revert o1. induction l1 as [|x l1 IH]; intros o1 H.
  - right. exists o1. split; [reflexivity | exact H].
  - destruct o1 as [|y o1]; cbn [app] in H.
    + injection H as -> <-. left. exists l1. split; reflexivity.
    + injection H as -> H. destruct (IH _ H) as [(m & -> & ->)|(m & -> & ->)].
      * left. exists m. split; reflexivity.
      * right. exists m. split; reflexivity.
Qed.

(** A stretch without characters of the kind of [c] that is followed by
    [c] ends before it. *)
Lemma prefix_before {X : Type} (P : X -> Prop) (t rest pre Z : list X) (c : X) :
  Forall P t -> ~ P c -> t ++ rest = pre ++ c :: Z -> exists Y, pre = t ++ Y.
Proof.
  intros Ht Hc. revert pre. induction Ht as [|a t Ha _ IH]; intros pre H.
  - now exists pre.
  - destruct pre as [|b pre]; cbn [app] in H.
    + injection H as -> _. contradiction.
    + injection H as -> H. destruct (IH _ H) as (Y & ->). now exists Y.
Qed.

Lemma part_of_refl (t : list ascii) : part_of t t.
Proof. exists [], []. cbn. now rewrite app_nil_r. Qed.

Lemma part_of_trans (u v t : list ascii) : part_of u v -> part_of v t -> part_of u t.
Proof.
  intros (a & b & ->) (c & d & ->). exists (c ++ a), (b ++ d).
  now rewrite <- !app_assoc.
Qed.

Lemma part_of_app_l (u a t : list ascii) : part_of u t -> part_of u (a ++ t).
Proof. intros (x & y & ->). exists (a ++ x), y. now rewrite <- app_assoc. Qed.

(** *** When a replacement function leaves nothing to find

    The matches of [q] are replaced by what [out] makes of them;
    afterwards the pattern [p] is searched. *)
Section Rendered.
Variables (p q : regex) (out : found -> string).

Hypothesis q_consumes :
  forall s rest g, match_at q s = Some (rest, g) ->
    exists t, t <> [] /\ s = t ++ rest.
Hypothesis p_empty : match_at p [] = None.
(** A match of [p] that starts before a replacement was there before the
    replacement was made. *)
Hypothesis transfer :
  forall c k m X X', matches q ∅ (whole m) (caps m) ->
    match_at p (c :: k ++ Py.chars (out m) ++ X) <> None ->
    match_at p (c :: k ++ whole m ++ X') <> None.

Lemma q_nil : match_at q [] = None.
Proof.
  destruct (match_at q []) as [[rest g]|] eqn:E; [|reflexivity].
  destruct (q_consumes _ _ _ E) as (t & Ht & Hs).
  destruct t; [contradiction | discriminate].
Qed.

Lemma rendered_nil : rendered q out [] = [].
Proof. unfold rendered, pieces. cbn [scan]. now rewrite q_nil. Qed.

Lemma rendered_hit (t rest : list ascii) (g : groups) :
  match_at q (t ++ rest) = Some (rest, g) -> t <> [] ->
  rendered q out (t ++ rest) = Py.chars (out (Found t g)) ++ rendered q out rest.
Proof. intros E Ht. unfold rendered. now rewrite (pieces_hit _ _ _ _ E Ht). Qed.

Lemma rendered_keep (c : ascii) (s : list ascii) :
  match_at q (c :: s) = None -> rendered q out (c :: s) = c :: rendered q out s.
Proof. intros E. unfold rendered. now rewrite (pieces_keep _ _ _ E). Qed.

Lemma search_inert (o X : list ascii) :
  inert p o -> search_go p (o ++ X) = search_go p X.
Proof.
  induction o as [|a o IH]; intros H; [reflexivity|].
  cbn [app search_go]. rewrite (H [] a o X eq_refl). apply IH.
  intros o1 b o2 Y ->. apply (H (a :: o1)). reflexivity.
Qed.

(** The text up to the first match of [q], if there is one. *)
Lemma first_hit (s : list ascii) :
  rendered q out s = s
  \/ exists k t rest g,
       s = k ++ t ++ rest /\ match_at q (t ++ rest) = Some (rest, g)
       /\ rendered q out s = k ++ Py.chars (out (Found t g)) ++ rendered q out rest.
Proof.
  induction s as [|c s IH]; [left; apply rendered_nil|].
  destruct (match_at q (c :: s)) as [[rest g]|] eqn:E.
  - right. destruct (q_consumes _ _ _ E) as (t & Ht & Hs). rewrite Hs in *.
    exists [], t, rest, g. repeat split; [exact E|].
    now apply rendered_hit.
  - rewrite (rendered_keep _ _ E).
    destruct IH as [IH|(k & t & rest & g & -> & Et & IH)].
    + left. now rewrite IH.
    + right. exists (c :: k), t, rest, g. repeat split; [exact Et|].
      now rewrite IH.
Qed.

Lemma rendered_clear (n : nat) :
  forall s, length s <= n ->
    (forall s1 s2, s = s1 ++ s2 -> match_at q s2 = None -> match_at p s2 = None) ->
    (forall s1 t rest g, s = s1 ++ t ++ rest ->
       match_at q (t ++ rest) = Some (rest, g) ->
       inert p (Py.chars (out (Found t g)))) ->
    search_go p (rendered q out s) = None.
Proof.
  induction n as [|n IH]; intros s Hlen Hkept Hhit.
  - destruct s; [|cbn in Hlen; lia].
    rewrite rendered_nil. cbn [search_go]. now rewrite p_empty.
  - destruct s as [|c s].
    { rewrite rendered_nil. cbn [search_go]. now rewrite p_empty. }
    destruct (match_at q (c :: s)) as [[rest g]|] eqn:E.
    + destruct (q_consumes _ _ _ E) as (t & Ht & Hcs). rewrite Hcs in E.
      rewrite Hcs, (rendered_hit _ _ _ E Ht), search_inert.
      * apply IH.
        -- apply (f_equal length) in Hcs. rewrite length_app in Hcs.
           destruct t; [contradiction|]. cbn in Hcs, Hlen. lia.
        -- intros s1 s2 ->. apply (Hkept (t ++ s1)). now rewrite Hcs, app_assoc.
        -- intros s1 t' rest' g' ->. apply (Hhit (t ++ s1)).
           now rewrite Hcs, <- app_assoc.
      * apply (Hhit [] t rest g); [exact Hcs | exact E].
    + rewrite (rendered_keep _ _ E). cbn [search_go].
      assert (match_at p (c :: rendered q out s) = None) as ->.
      { destruct (match_at p (c :: rendered q out s)) as [x|] eqn:Ep; [exfalso|reflexivity].
        assert (match_at p (c :: s) = None) as Hsrc
            by (apply (Hkept []); [reflexivity | exact E]).
        destruct (first_hit s) as [Hs|(k & t & rest & g & Hs & Et & Hr)].
        - rewrite Hs in Ep. congruence.
        - destruct (match_at_sound _ _ _ _ Et) as (t' & Ht' & Hm).
          apply app_inv_tail in Ht'. subst t'.
          apply (transfer c k (Found t g) (rendered q out rest) rest Hm).
          + cbn [whole]. rewrite <- Hr, Ep. discriminate.
          + cbn [whole]. now rewrite <- Hs. }
      apply IH; [cbn in Hlen; lia | |].
      * intros s1 s2 ->. apply (Hkept (c :: s1)). reflexivity.
      * intros s1 t rest g ->. apply (Hhit (c :: s1)). reflexivity.
Qed.

End Rendered.

Lemma hits_none_render (out : found -> string) (ps : list piece) :
  hits ps = 0 -> flat_map (render out) ps = flat_map piece_text ps.
Proof.
  induction ps as [|[c|m] ps IH]; cbn [hits is_hit flat_map]; intros H;
    [reflexivity | | lia].
  rewrite IH by lia. reflexivity.
Qed.

(** Counting a character through a substitution: when no replacement has
    more of it than the match it replaces, neither has the result; when
    each has fewer and there is a match, the result has fewer. *)
Lemma render_count (c : ascii) (out : found -> string) (ps : list piece) :
  Forall (fun p => Counting.count c (render out p) <= Counting.count c (piece_text p)) ps ->
  Counting.count c (flat_map (render out) ps)
  <= Counting.count c (flat_map piece_text ps).
Proof.
  induction 1 as [|p ps Hp _ IH]; cbn [flat_map]; [lia|].
  rewrite !count_app. lia.
Qed.

Lemma render_count_lt (c : ascii) (out : found -> string) (ps : list piece) :
  Forall (fun p => match p with
                   | Keep _ => True
                   | Hit m => Counting.count c (Py.chars (out m)) < Counting.count c (whole m)
                   end) ps ->
  0 < hits ps ->
  Counting.count c (flat_map (render out) ps)
  < Counting.count c (flat_map piece_text ps).
Proof.
  intros H Hhit.
  assert (Counting.count c (flat_map (render out) ps) + hits ps
          <= Counting.count c (flat_map piece_text ps)); [|lia].
  clear Hhit. induction H as [|p ps Hp _ IH]; cbn [flat_map hits]; [lia|].
  rewrite !count_app. destruct p as [a|m]; cbn [render piece_text is_hit]; lia.
Qed.

(** A substitution whose replacement function succeeds on every match of
    the scan, each time moving the store by [step]. *)
Lemma subst_ok {St : Type} (repl : found -> Py.M St string)
    (out : found -> string) (step : St -> St) (ps : list piece) :
  Forall (fun p => match p with
                   | Keep _ => True
                   | Hit m => forall st, repl m st = Py.Ok (out m, step st)
                   end) ps ->
  forall st, subst repl ps st
             = Py.Ok (Py.text (flat_map (render out) ps),
                      Nat.iter (hits ps) step st).
Proof.
  induction 1 as [|p ps Hp _ IH]; intros st; [reflexivity|].
  destruct p as [a|m]; cbn [subst flat_map render hits is_hit].
  - unfold mbind, Py.M_bind. rewrite IH. reflexivity.
  - unfold mbind, Py.M_bind. rewrite Hp, IH. unfold mret, Py.M_ret.
    rewrite text_app, text_chars. cbn [Nat.add]. rewrite Nat.iter_succ_r.
    reflexivity.
Qed.

End ReFacts.

(** ** The plan analyzer *)

Module PlanFacts.
Import IndexRecommender PlanSpec.

Lemma health_row_step (score : Z) (issues : list string) (row : PlanRow) :
  health_row (score, issues) row
  = ((score - row_penalty row)%Z, issues ++ row_issues row).
Proof.
  unfold health_row, row_penalty, row_issues, is_full_scan, is_index_scan,
    mentions_filesort, mentions_temporary, table_label, access_type,
    annotation.
  destruct (String.eqb _ "all"); [|destruct (String.eqb _ "index")];
    destruct (Py.contains "filesort" _); destruct (Py.contains "temporary" _);
    cbn [fst snd]; f_equal; rewrite <- ?app_assoc, ?app_nil_r; try reflexivity; lia.
Qed.

Lemma health_loop (rows : list PlanRow) (score : Z) (issues : list string) :
  fold_left health_row rows (score, issues)
  = ((score - total_penalty rows)%Z, issues ++ flat_map row_issues rows).
Proof.
  revert score issues.
  induction rows as [|row rows IH]; intros score issues; cbn [fold_left].
  - cbn. f_equal; [lia | now rewrite app_nil_r].
  - rewrite health_row_step, IH. cbn [total_penalty foldr flat_map].
    fold (total_penalty rows). f_equal; [lia | now rewrite <- app_assoc].
Qed.

Lemma total_penalty_nonneg (rows : list PlanRow) : (0 <= total_penalty rows)%Z.
Proof.
  induction rows as [|row rows IH]; cbn; [lia|].
  fold (total_penalty rows).
  assert (0 <= row_penalty row)%Z; [|lia].
  unfold row_penalty.
  destruct (is_full_scan row), (is_index_scan row), (mentions_filesort row),
    (mentions_temporary row); lia.
Qed.

Lemma compute_health_unfold (rows : list PlanRow)
    (recs : list IndexRecommendation) :
  _compute_index_health rows recs = health rows (length recs).
Proof.
  unfold _compute_index_health, health, clamp.
  rewrite health_loop.
  unfold recommendation_penalty, recommendation_issue.
  destruct recs as [|r recs]; cbn [length Nat.eqb app].
  - rewrite app_nil_r, Z.sub_0_r. reflexivity.
  - reflexivity.
Qed.

(** C3: for every sequence of plan rows and every sequence of
    recommendations the score of [_compute_index_health] lies between 0
    and 100. *)
Theorem health_score_bounds (rows : list PlanRow)
    (recs : list IndexRecommendation) :
  (0 <= fst (_compute_index_health rows recs) <= 100)%Z.
Proof.
  unfold _compute_index_health.
  destruct (fold_left health_row rows (100%Z, [])) as [score issues].
  destruct recs as [|r recs]; cbn [fst]; lia.
Qed.

(** The access types and annotations a server reports are recognized
    whatever their letter case. *)
Lemma full_scan_ALL (row : PlanRow) :
  row !! "type" = Some (VStr "ALL") ->
  is_full_scan row = true /\ (20 <= row_penalty row)%Z.
Proof.
  intros H. assert (is_full_scan row = true) as E.
  { unfold is_full_scan, access_type, get. rewrite H. reflexivity. }
  split; [exact E|]. unfold row_penalty. rewrite E.
  destruct (mentions_filesort row), (mentions_temporary row); lia.
Qed.

Lemma index_scan_index (row : PlanRow) :
  row !! "type" = Some (VStr "index") ->
  is_full_scan row = false /\ is_index_scan row = true.
Proof.
  intros H. unfold is_full_scan, is_index_scan, access_type, get.
  rewrite H. split; reflexivity.
Qed.

(** C4: the score starts from 100 and loses, row after row, 20 for a full
    scan (else 5 for an index scan), 10 for a filesort and 10 for a
    temporary table, and [min (5 * count) 20] when there are
    recommendations, before the final clamp; the issues come in row order,
    the recommendation count last. *)
Theorem compute_health_as_specified (rows : list PlanRow)
    (recs : list IndexRecommendation) :
  _compute_index_health rows recs
  = (clamp 0 100
       (100 - total_penalty rows - recommendation_penalty (length recs)),
     flat_map row_issues rows ++ recommendation_issue (length recs)).
Proof.
  unfold _compute_index_health, clamp.
  rewrite health_loop. cbn [app].
  destruct recs as [|r recs].
  - cbn [length recommendation_penalty recommendation_issue Nat.eqb].
    rewrite app_nil_r, Z.sub_0_r. reflexivity.
  - reflexivity.
Qed.

Lemma analyze_row_step (recs : list IndexRecommendation) (row : PlanRow) :
  analyze_row recs row
  = recs ++ (if flagged row && names_table row
             then [recommendation_for row] else []).
Proof.
  unfold analyze_row, flagged, names_table, is_full_scan, no_key_chosen,
    has_filter_marker, no_possible_keys, access_type, annotation.
  destruct (String.eqb _ "all"); cbn [andb]; [|now rewrite app_nil_r].
  destruct (truthy (get row "key")); cbn [andb negb]; [now rewrite app_nil_r|].
  destruct (Py.contains "Using where" _); cbn [andb]; [|now rewrite app_nil_r].
  destruct (truthy (get row "possible_keys")); cbn [andb negb];
    [now rewrite app_nil_r|].
  destruct (truthy (get row "table")); cbn [andb negb];
    [reflexivity | now rewrite app_nil_r].
Qed.

Lemma analyze_loop (rows : list PlanRow) (recs : list IndexRecommendation) :
  fold_left analyze_row rows recs
  = recs ++ flat_map (fun row => if flagged row && names_table row
                                 then [recommendation_for row] else []) rows.
Proof.
  revert recs. induction rows as [|row rows IH]; intros recs; cbn [fold_left flat_map].
  - now rewrite app_nil_r.
  - rewrite IH, analyze_row_step. now rewrite <- app_assoc.
Qed.

(** C5 does not hold as the specification states it: a full scan with a
    filter, no key and no possible keys, but without a table name, gets
    no recommendation. *)
Lemma flagged_row_without_table :
  let row : PlanRow := {[ "type" := VStr "ALL"; "Extra" := VStr "Using where" ]} in
  flagged row = true /\ _analyze_explain_for_indexes [row] = [].
Proof. vm_compute. split; reflexivity. Qed.

(** C5, as the code has it: a row gets exactly one recommendation when it
    is a full scan, chose no key, carries the filter marker, lists no
    possible keys and names its table, and none otherwise; the
    recommendations come in row order, each for the table of its row,
    with the single placeholder column and the index name built from the
    table and the first three columns. *)
Theorem analyze_recommendations (rows : list PlanRow) :
  _analyze_explain_for_indexes rows
  = flat_map (fun row => if flagged row && names_table row
                         then [recommendation_for row] else []) rows
  /\ Forall (fun r =>
        columns r = ["<choose_filter_column>"]
        /\ suggested_index_name r
           = "idx_" +:+ str (table r) +:+ "_"
             +:+ Py.join "_" (take 3 (columns r)))
       (_analyze_explain_for_indexes rows).
Proof.
  unfold _analyze_explain_for_indexes. rewrite analyze_loop. cbn [app].
  split; [reflexivity|].
  induction rows as [|row rows IH]; cbn [flat_map]; [constructor|].
  apply Forall_app. split; [|exact IH].
  destruct (flagged row && names_table row); repeat constructor.
Qed.

Lemma get_insert_other (row : PlanRow) (k k' : string) (v : value) :
  k <> k' -> get (<[k := v]> row) k' = get row k'.
Proof. intros Hne. unfold get. now rewrite lookup_insert_ne. Qed.

Lemma unnamed_label (row : PlanRow) :
  names_table row = false ->
  table_label row = "?"
  /\ table_label (<["table" := VStr "?"]> row) = "?".
Proof.
  unfold names_table, table_label, or_. intros ->. split; [reflexivity|].
  unfold get. rewrite lookup_insert_eq. reflexivity.
Qed.

Lemma unnamed_row_health (row : PlanRow) :
  names_table row = false ->
  row_penalty (<["table" := VStr "?"]> row) = row_penalty row
  /\ row_issues (<["table" := VStr "?"]> row) = row_issues row.
Proof.
  intros H. destruct (unnamed_label row H) as [H1 H2].
  unfold row_penalty, row_issues, is_full_scan, is_index_scan,
    mentions_filesort, mentions_temporary, access_type, annotation.
  rewrite H1, H2, !get_insert_other by discriminate. split; reflexivity.
Qed.

Lemma total_penalty_app (a b : list PlanRow) :
  total_penalty (a ++ b) = (total_penalty a + total_penalty b)%Z.
Proof.
  induction a as [|row a IH]; cbn; [reflexivity|].
  fold (total_penalty (a ++ b)) (total_penalty a). rewrite IH. lia.
Qed.

(** A row adds issues exactly when one of the four checks of the health
    computation holds of it. *)
Lemma no_issue_iff (row : PlanRow) :
  row_issues row = []
  <-> is_full_scan row = false /\ is_index_scan row = false
      /\ mentions_filesort row = false /\ mentions_temporary row = false.
Proof.
  unfold row_issues.
  destruct (is_full_scan row), (is_index_scan row), (mentions_filesort row),
    (mentions_temporary row); cbn [app]; split;
    solve [ discriminate | intros (? & ? & ? & ?); discriminate
          | intros _; repeat split | reflexivity ].
Qed.

Lemma no_issue_no_penalty (row : PlanRow) :
  row_issues row = [] -> row_penalty row = 0%Z.
Proof.
  intros H. apply no_issue_iff in H as (H1 & H2 & H3 & H4).
  unfold row_penalty. now rewrite H1, H2, H3, H4.
Qed.

(** C6 does not hold as the specification states it: a full scan without
    a table name costs 20 points and is reported, with [?] for the
    table. *)
Lemma unnamed_row_is_penalized :
  let row : PlanRow := {[ "type" := VStr "ALL" ]} in
  row !! "table" = None
  /\ _compute_index_health [row] [] = (80%Z, ["Full table scan on ? (type=ALL)"])
  /\ _compute_index_health [] [] = (100%Z, []).
Proof. vm_compute. repeat split; reflexivity. Qed.

(** C6, as the code has it: a row without a table name gets no
    recommendation; the health computation does not skip it but counts it
    as the same row with the table [?].  It leaves the result of the
    health computation as it is without the row exactly when its access
    type is neither ALL nor index and its annotation mentions neither
    filesort nor temporary, which is so when it has neither an access
    type nor an annotation.  Both functions are total. *)
Theorem unnamed_row (before after : list PlanRow) (row : PlanRow)
    (recs : list IndexRecommendation) :
  names_table row = false ->
  _analyze_explain_for_indexes (before ++ row :: after)
  = _analyze_explain_for_indexes (before ++ after)
  /\ _compute_index_health (before ++ row :: after) recs
     = _compute_index_health (before ++ <["table" := VStr "?"]> row :: after) recs
  /\ (_compute_index_health (before ++ row :: after) recs
      = _compute_index_health (before ++ after) recs
      <-> is_full_scan row = false /\ is_index_scan row = false
          /\ mentions_filesort row = false /\ mentions_temporary row = false)
  /\ (truthy (get row "type") = false -> truthy (get row "Extra") = false ->
      _compute_index_health (before ++ row :: after) recs
      = _compute_index_health (before ++ after) recs).
Proof.
  intros H.
  assert (row_issues row = [] ->
          _compute_index_health (before ++ row :: after) recs
          = _compute_index_health (before ++ after) recs) as Hskip.
  { intros Hi. rewrite !compute_health_unfold. unfold health.
    rewrite !total_penalty_app, !flat_map_app. cbn [total_penalty foldr flat_map].
    fold (total_penalty after).
    now rewrite Hi, (no_issue_no_penalty row Hi). }
  split; [|split; [|split]].
  - unfold _analyze_explain_for_indexes. rewrite !analyze_loop. cbn [app].
    rewrite !flat_map_app. cbn [flat_map]. rewrite H, andb_false_r. reflexivity.
  - destruct (unnamed_row_health row H) as [Hp Hi].
    rewrite !compute_health_unfold. unfold health.
    rewrite !total_penalty_app, !flat_map_app. cbn [total_penalty foldr flat_map].
    now rewrite Hp, Hi.
  - rewrite <- no_issue_iff. split; [|exact Hskip].
    rewrite !compute_health_unfold. unfold health. intros E.
    apply (f_equal (fun x => length (snd x))) in E. cbn [snd] in E.
    rewrite !flat_map_app in E. cbn [flat_map] in E.
    rewrite !length_app in E.
    destruct (row_issues row); [reflexivity | cbn [length] in E; lia].
  - intros Ht He. apply Hskip.
    unfold row_issues, is_full_scan, is_index_scan,
      mentions_filesort, mentions_temporary, access_type, annotation, or_.
    rewrite Ht, He. vm_compute. reflexivity.
Qed.

Lemma unnamed_row_witness :
  let row : PlanRow := {[ "type" := VStr "ref"; "Extra" := VStr "Using index" ]} in
  _analyze_explain_for_indexes ([] ++ row :: []) = _analyze_explain_for_indexes ([] ++ [])
  /\ _compute_index_health ([] ++ row :: []) []
     = _compute_index_health ([] ++ <["table" := VStr "?"]> row :: []) []
  /\ _compute_index_health ([] ++ row :: []) []
     = _compute_index_health ([] ++ []) [].
Proof.
  intros row.
  destruct (unnamed_row [] [] row [] eq_refl) as (H1 & H2 & H3 & _).
  split; [exact H1|]. split; [exact H2|].
  apply H3. vm_compute. repeat split.
Defined.

End PlanFacts.

(** ** The rewrite rules *)

Module RewriterFacts.
Import Py Counting Re ReSem PyFacts ReFacts Rewriter RewriteSpec.

(** *** Characters *)

Ltac each_char a :=
  destruct a as [[] [] [] [] [] [] [] []]; vm_compute; try discriminate;
  try (repeat split; congruence).

Lemma ieq_equals (a : ascii) : ieq a "=" = true -> a = "="%char.
Proof. each_char a. Qed.

Lemma ieq_paren (a : ascii) : ieq a "(" = true -> a = "("%char.
Proof. each_char a. Qed.

Lemma word_char_plain (a : ascii) :
  is_word a || Ascii.eqb a "." = true -> a <> "="%char /\ a <> "("%char.
Proof. each_char a. Qed.

Lemma digit_plain (a : ascii) :
  is_digit a = true -> a <> "="%char /\ a <> "("%char.
Proof. each_char a. Qed.

(** *** Taking a match apart *)

Ltac split_cat H :=
  lazymatch type of H with
  | matches (Cat (_ :: _)) _ _ _ =>
      let t1 := fresh "t" in
      let t2 := fresh "t" in
      let g1 := fresh "g" in
      let H1 := fresh "M" in
      apply matches_cat_inv in H;
      destruct H as (t1 & t2 & g1 & -> & H1 & H);
      split_cat H
  | matches (Cat []) _ _ _ =>
      apply matches_eps_inv in H; destruct H as [-> ->]
  end.

Ltac same_groups :=
  repeat match goal with
         | H : matches ?r ?g ?t ?g' |- _ =>
             is_var g';
             tryif constr_eq g g' then fail else
               (let E := fresh in
                assert (g' = g) as E
                  by (apply (matches_groupless _ _ _ _ H); reflexivity);
                subst g')
         end.

Ltac read_chars :=
  repeat match goal with
         | H : matches (Chr _) _ _ _ |- _ =>
             let a := fresh "a" in
             let E := fresh "E" in
             apply matches_chr_inv in H; destruct H as (a & -> & E & ->)
         | E : ieq ?a "=" = true |- _ => apply ieq_equals in E; subst a
         | E : ieq ?a "(" = true |- _ => apply ieq_paren in E; subst a
         end.

Ltac read_groups :=
  repeat match goal with
         | H : matches (Grp _ _) _ _ _ |- _ =>
             let g := fresh "g" in
             apply matches_grp_inv in H; destruct H as (g & H & ->)
         end.

Ltac read_classes :=
  repeat match goal with
         | H : matches (Cls _) _ _ _ |- _ =>
             let a := fresh "d" in
             let E := fresh "E" in
             apply matches_cls_inv in H; destruct H as (a & -> & E & ->)
         end.

Lemma not_eq_hit (t : list ascii) (g : groups) :
  matches pattern_not_eq ∅ t g -> 1 <= count "=" t.
Proof.
  intros H. unfold pattern_not_eq in H. split_cat H. read_chars.
  rewrite !count_app, count_one. lia.
Qed.

Lemma eq_hit (t : list ascii) (g : groups) :
  matches pattern_eq ∅ t g -> 1 <= count "=" t.
Proof.
  intros H. unfold pattern_eq in H. split_cat H. read_chars.
  rewrite !count_app, count_one. lia.
Qed.

(** A match of the YEAR pattern: group 1 is made of word characters and
    dots, group 2 of four digits, and the text has an equals sign and an
    opening parenthesis. *)
Lemma year_hit (t : list ascii) (g : groups) :
  matches year_pattern ∅ t g ->
  exists col d1 d2 d3 d4,
    g !! 1 = Some col /\ g !! 2 = Some [d1; d2; d3; d4]
    /\ Forall (fun a => is_word a || Ascii.eqb a "." = true) col
    /\ Forall (fun a => is_digit a = true) [d1; d2; d3; d4]
    /\ 1 <= count "=" t /\ 1 <= count "(" t.
Proof.
  intros H. unfold year_pattern in H. split_cat H. read_chars. same_groups.
  read_groups. same_groups.
  match goal with
  | M : matches (Plus wd) _ _ _ |- _ => apply matches_plus_cls in M as [Hcol _]
  end.
  match goal with
  | M : matches (Cat [dg; dg; dg; dg]) _ _ _ |- _ => split_cat M
  end.
  unfold dg in *. read_classes.
  eexists _, _, _, _, _. split; [|split; [|split; [|split; [|split]]]].
  - rewrite lookup_insert_ne by discriminate. apply lookup_insert_eq.
  - apply lookup_insert_eq.
  - exact Hcol.
  - repeat constructor; assumption.
  - rewrite !count_app, count_one. lia.
  - rewrite !count_app, count_one. lia.
Qed.

(** A match of the OR pattern: the three groups took part, group 1 is
    made of word characters and dots, and the text has two equals signs
    outside the groups 2 and 3. *)
Lemma or_hit (t : list ascii) (g : groups) :
  matches or_pattern ∅ t g ->
  exists col v1 v3,
    g !! 1 = Some col /\ g !! 2 = Some v1 /\ g !! 3 = Some v3
    /\ Forall (fun a => is_word a || Ascii.eqb a "." = true) col
    /\ 2 + count "=" v1 + count "=" v3 <= count "=" t.
Proof.
  intros H. unfold or_pattern in H. split_cat H. read_chars. same_groups.
  read_groups. same_groups.
  match goal with
  | M : matches (Plus wd) _ _ _ |- _ => apply matches_plus_cls in M as [Hcol _]
  end.
  eexists _, _, _. split; [|split; [|split; [|split]]].
  - rewrite !lookup_insert_ne by discriminate. apply lookup_insert_eq.
  - rewrite lookup_insert_ne by discriminate. apply lookup_insert_eq.
  - apply lookup_insert_eq.
  - exact Hcol.
  - rewrite !count_app, !count_one. lia.
Qed.

Lemma count_word_chars (col : list ascii) :
  Forall (fun a => is_word a || Ascii.eqb a "." = true) col ->
  count "=" col = 0 /\ count "(" col = 0.
Proof.
  intros H. split; apply count_none; eapply Forall_impl; try exact H;
    intros a Ha; now apply word_char_plain in Ha.
Qed.

Lemma count_digits (s : list ascii) :
  Forall (fun a => is_digit a = true) s ->
  count "=" s = 0 /\ count "(" s = 0.
Proof.
  intros H. split; apply count_none; eapply Forall_impl; try exact H;
    intros a Ha; now apply digit_plain in Ha.
Qed.

(** *** The replacement functions *)

Lemma year_repl_ok (m : found) :
  matches year_pattern ∅ (whole m) (caps m) ->
  (forall st, year_repl m st = Ok (output year_repl m, st ++ [year_change]))
  /\ count "=" (chars (output year_repl m)) <= count "=" (whole m)
  /\ count "(" (chars (output year_repl m)) < count "(" (whole m).
Proof.
  intros H.
  destruct (year_hit _ _ H)
    as (col & d1 & d2 & d3 & d4 & H1 & H2 & Hcol & Hd & Heq & Hpar).
  destruct (int_digits [d1; d2; d3; d4] Hd ltac:(discriminate)) as (y & Hy & Hpos).
  assert (forall st, year_repl m st
            = Ok (text col +:+ " >= " +:+ ("'" +:+ format_04d y +:+ "-01-01'")
                  +:+ " AND " +:+ text col +:+ " < "
                  +:+ ("'" +:+ format_04d (y + 1) +:+ "-01-01'"),
                  st ++ [year_change])) as Hrun.
  { intros st. unfold year_repl, group. rewrite H1, H2. cbn [fmap option_fmap option_map].
    unfold mbind, M_bind, lift. rewrite Hy. reflexivity. }
  unfold output. rewrite Hrun. split; [intros st; apply Hrun|].
  destruct (count_word_chars col Hcol) as [Hc1 Hc2].
  destruct (count_digits _ (format_04d_digits y Hpos)) as [Hy1 Hy2].
  destruct (count_digits _ (format_04d_digits (y + 1) ltac:(lia))) as [Hz1 Hz2].
  rewrite !chars_app, !count_app, !chars_text, Hc1, Hc2, Hy1, Hy2, Hz1, Hz2.
  cbn. lia.
Qed.

Lemma or_values_map (first : option string) (parts : list string) :
  or_values first parts = first :: map (fun part => Some (value_of part)) parts.
Proof.
  unfold or_values.
  change (first :: map (fun part => Some (value_of part)) parts)
    with ([first] ++ map (fun part => Some (value_of part)) parts).
  generalize [first] as acc. induction parts as [|part parts IH]; intros acc.
  - cbn. now rewrite app_nil_r.
  - cbn [fold_left map]. rewrite IH. unfold value_of.
    destruct (partition part "=") as [[a b] c]. now rewrite <- app_assoc.
Qed.

Lemma join_values_some (items : list string) :
  join_values (map Some items) = Ok (join ", " items).
Proof.
  unfold join_values.
  assert (mapM id (map Some items) = Some items) as ->; [|reflexivity].
  induction items as [|x items IH]; [reflexivity|].
  cbn [map mapM]. rewrite IH. reflexivity.
Qed.

Lemma value_of_count (c : ascii) (part : string) :
  count c (chars (value_of part)) <= count c (chars part).
Proof.
  unfold value_of. pose proof (partition_count c "=" part) as H.
  destruct (partition part "=") as [[a b] d]. cbn [snd] in H.
  etransitivity; [apply strip_count | exact H].
Qed.

Lemma values_total (c : ascii) (parts : list string) :
  total c (map value_of parts) <= total c parts.
Proof.
  induction parts as [|part parts IH]; cbn [map total]; [lia|].
  pose proof (value_of_count c part). lia.
Qed.

Lemma split_go_total (c : ascii) (ps : list piece) (cur : list ascii) :
  total c (split_go ps cur) <= count c cur + count c (flat_map piece_text ps).
Proof.
  revert cur. induction ps as [|[a|m] ps IH]; intros cur; cbn [split_go flat_map total].
  - rewrite chars_text, count_rev. lia.
  - specialize (IH (a :: cur)). rewrite count_cons in IH.
    rewrite count_app. cbn [piece_text]. rewrite count_cons. cbn [count]. lia.
  - specialize (IH []). rewrite chars_text, count_rev, count_app.
    cbn [count] in IH. lia.
Qed.

Lemma split_total (c : ascii) (r : regex) (s : string) :
  total c (split r s) <= count c (chars s).
Proof.
  unfold split. etransitivity; [apply split_go_total|].
  rewrite pieces_text. cbn [count]. lia.
Qed.

Lemma or_repl_ok (m : found) :
  matches or_pattern ∅ (whole m) (caps m) ->
  (forall st, or_repl m st = Ok (output or_repl m, st ++ [or_change]))
  /\ count "=" (chars (output or_repl m)) < count "=" (whole m).
Proof.
  intros H.
  destruct (or_hit _ _ H) as (col & v1 & v3 & H1 & H2 & H3 & Hcol & Hcount).
  set (vals := map value_of (split or_separator (text v3))).
  assert (forall st, or_repl m st
            = Ok ("WHERE " +:+ text col +:+ " IN ("
                  +:+ join ", " (text v1 :: vals) +:+ ")",
                  st ++ [or_change])) as Hrun.
  { intros st. unfold or_repl, group. rewrite H1, H2, H3.
    cbn [fmap option_fmap option_map]. rewrite or_values_map.
    rewrite <- (map_map value_of Some).
    change (Some (text v1) :: map Some (map value_of (split or_separator (text v3))))
      with (map Some (text v1 :: vals)).
    unfold mbind, M_bind, lift. rewrite join_values_some. reflexivity. }
  unfold output. rewrite Hrun. split; [intros st; apply Hrun|].
  destruct (count_word_chars col Hcol) as [Hc1 _].
  rewrite !chars_app, !count_app, !chars_text, Hc1, (join_count "=" ", ") by reflexivity.
  cbn [total]. rewrite chars_text.
  pose proof (values_total "=" (split or_separator (text v3))) as Hv.
  pose proof (split_total "=" or_separator (text v3)) as Hs.
  rewrite chars_text in Hs. fold vals in Hv.
  change (count "=" (chars "WHERE ")) with 0.
  change (count "=" (chars " IN (")) with 0.
  change (count "=" (chars ")")) with 0.
  lia.
Qed.

(** *** The rules *)

Lemma iter_append {X : Type} (n : nat) (c : X) (st : list X) :
  Nat.iter n (fun st => st ++ [c]) st = st ++ repeat c n.
Proof.
  induction n as [|n IH]; [cbn; now rewrite app_nil_r|].
  rewrite Nat.iter_succ, IH, <- app_assoc. f_equal. symmetry. apply repeat_cons.
Qed.

(** A rule that is a [sub] with a replacement function: what is needed
    of the function on the matches of the pattern. *)
Lemma sub_well_behaved (k : ascii) (r : regex) (repl : found -> Rule string)
    (c : RewriteChange) :
  (forall m, matches r ∅ (whole m) (caps m) ->
     (forall st, repl m st = Ok (output repl m, st ++ [c]))
     /\ count "=" (chars (output repl m)) <= count "=" (whole m)
     /\ count k (chars (output repl m)) < count k (whole m)) ->
  well_behaved k (sub r repl).
Proof.
  intros Hrepl sql st. unfold sub.
  pose proof (pieces_sound r (chars sql)) as Hs.
  pose proof (pieces_text r (chars sql)) as Ht.
  set (ps := pieces r (chars sql)) in *.
  exists (text (flat_map (render (output repl)) ps)), (repeat c (hits ps)).
  split; [|split; [|split]].
  - rewrite <- iter_append. apply subst_ok.
    eapply Forall_impl; [exact Hs|]. intros [a|m] Hm; [exact I|].
    apply (Hrepl m Hm).
  - intros Hd. assert (hits ps = 0) as H0 by (destruct (hits ps); [reflexivity | discriminate]).
    rewrite hits_none_render, Ht by exact H0. apply text_chars.
  - rewrite chars_text, <- Ht. apply render_count.
    eapply Forall_impl; [exact Hs|]. intros [a|m] Hm; cbn [render piece_text]; [lia|].
    apply (Hrepl m Hm).
  - intros Hd. assert (0 < hits ps) as H0 by (destruct (hits ps); [contradiction | lia]).
    rewrite chars_text, <- Ht. apply render_count_lt; [|exact H0].
    eapply Forall_impl; [exact Hs|]. intros [a|m] Hm; [exact I|].
    apply (Hrepl m Hm).
Qed.

Lemma or_well_behaved : well_behaved "=" _rewrite_or_to_in.
Proof.
  apply sub_well_behaved with or_change. intros m Hm.
  destruct (or_repl_ok m Hm) as [H1 H2]. repeat split; [exact H1 | lia | exact H2].
Qed.

Lemma year_well_behaved : well_behaved "(" _rewrite_year_function_on_column.
Proof. apply sub_well_behaved with year_change. exact year_repl_ok. Qed.

Lemma guarded_well_behaved (r : regex) (repl : string) (c : RewriteChange) :
  (forall t g, matches r ∅ t g -> 1 <= count "=" t) ->
  count "=" (chars repl) = 0 ->
  well_behaved "=" (guarded_sub r repl c).
Proof.
  intros Hhit Hrepl sql st. unfold guarded_sub, found_in, search.
  destruct (search_go r (chars sql)) as [m|] eqn:E.
  - exists (sub_const r repl sql), [c].
    assert (count "=" (chars (sub_const r repl sql)) < count "=" (chars sql)) as Hlt.
    { unfold sub_const, replace_all. rewrite chars_text.
      rewrite <- (pieces_text r (chars sql)) at 2.
      apply (render_count_lt "=" (fun _ => repl)).
      - eapply Forall_impl; [apply pieces_sound|]. intros [a|h] Hh; [exact I|].
        rewrite Hrepl. apply (Hhit _ _ Hh).
      - apply (scan_some _ _ _ _ E). lia. }
    repeat split; [discriminate | lia | intros _; exact Hlt].
  - exists sql, []. rewrite app_nil_r. repeat split; [lia | congruence].
Qed.

Lemma compose_well_behaved (f g : string -> Rule string) :
  well_behaved "=" f -> well_behaved "=" g ->
  well_behaved "=" (fun sql => s ← f sql; g s).
Proof.
  intros Hf Hg sql st.
  destruct (Hf sql st) as (s1 & d1 & E1 & I1 & L1 & S1).
  destruct (Hg s1 (st ++ d1)) as (s2 & d2 & E2 & I2 & L2 & S2).
  exists s2, (d1 ++ d2). split; [|split; [|split]].
  - unfold mbind, M_bind. rewrite E1, E2, app_assoc. reflexivity.
  - intros H. apply app_eq_nil in H as [-> ->]. rewrite I2, I1; reflexivity.
  - lia.
  - intros H. destruct d1 as [|c1 d1].
    + destruct d2 as [|c2 d2]; [contradiction|].
      assert (count "=" (chars s2) < count "=" (chars s1)) by (apply S2; discriminate).
      lia.
    + assert (count "=" (chars s1) < count "=" (chars sql)) by (apply S1; discriminate).
      lia.
Qed.

Lemma return_well_behaved (k : ascii) (f : string -> Rule string) :
  well_behaved k f -> well_behaved k (fun sql => s ← f sql; mret s).
Proof.
  intros Hf sql st. destruct (Hf sql st) as (s1 & d1 & E1 & H).
  exists s1, d1. split; [|exact H].
  unfold mbind, M_bind. rewrite E1. reflexivity.
Qed.

Lemma null_well_behaved : well_behaved "=" _rewrite_null_comparisons.
Proof.
  apply (compose_well_behaved
           (guarded_sub pattern_not_eq "IS NOT NULL"
              {| description := "Replaced `!= NULL` with `IS NOT NULL`" |})).
  - apply guarded_well_behaved; [exact not_eq_hit | reflexivity].
  - apply (return_well_behaved "="
             (guarded_sub pattern_eq "IS NULL"
                {| description := "Replaced `= NULL` with `IS NULL`" |})).
    apply guarded_well_behaved; [exact eq_hit | reflexivity].
Qed.

(** The whole pipeline: it returns, and the text changed exactly when a
    change was recorded. *)
Lemma pipeline (sql tier : string) :
  exists sql' d,
    rewrite_query sql tier
    = Ok {| original_sql := sql; rewritten_sql := sql';
            mode := lower tier; changes := d |}
    /\ (d = [] -> sql' = sql)
    /\ (d <> [] -> sql' <> sql).
Proof.
  destruct (compose_well_behaved _ _ null_well_behaved or_well_behaved sql [])
    as (s2 & d2 & E2 & I2 & L2 & S2).
  destruct (year_well_behaved s2 ([] ++ d2)) as (s3 & d3 & E3 & I3 & L3 & S3).
  exists s3, (d2 ++ d3). split; [|split].
  - unfold rewrite_query.
    unfold mbind, M_bind in *. cbn beta in E2.
    destruct (_rewrite_null_comparisons sql []) as [[s1 st1]|e]; [|discriminate].
    rewrite E2, E3.
    destruct (bool_decide _); reflexivity.
  - intros H. apply app_eq_nil in H as [-> ->]. rewrite I3, I2; reflexivity.
  - intros H Heq. subst s3. destruct d2 as [|c2 d2].
    + rewrite I2 in S3 by reflexivity.
      assert (d3 <> []) as H3 by (intros ->; now apply H).
      specialize (S3 H3). lia.
    + assert (count "=" (chars s2) < count "=" (chars sql)) by (apply S2; discriminate).
      lia.
Qed.

Lemma subst_keep {St : Type} (repl : found -> M St string) (l : list ascii)
    (ps : list piece) (st : St) :
  subst repl (map Keep l ++ ps) st
  = match subst repl ps st with
    | Ok (t, st') => Ok (text l +:+ t, st')
    | Raise e => Raise e
    end.
Proof.
  induction l as [|c l IH]; cbn [map app subst].
  - destruct (subst repl ps st) as [[t st']|e]; reflexivity.
  - unfold mbind, M_bind in *. rewrite IH.
    destruct (subst repl ps st) as [[t st']|e]; reflexivity.
Qed.

(** A [sub] whose pattern matches nowhere returns the text and leaves the
    store alone. *)
Lemma sub_no_match {St : Type} (r : regex) (repl : found -> M St string)
    (sql : string) (st : St) :
  found_in r sql = false -> sub r repl sql st = Ok (sql, st).
Proof.
  unfold found_in, search, sub, pieces. intros H.
  destruct (search_go r (chars sql)) eqn:E; [discriminate|].
  rewrite (scan_none _ _ _ E) by lia.
  rewrite <- (app_nil_r (map Keep (chars sql))), subst_keep. cbn [subst].
  unfold mret, M_ret. now rewrite text_chars, append_empty_r.
Qed.

(** *** The YEAR rule on an occurrence *)

Lemma space_not_word (a : ascii) :
  is_space a = true -> is_word a || Ascii.eqb a "." = false.
Proof. each_char a. Qed.

Lemma word_not_space (a : ascii) :
  is_word a || Ascii.eqb a "." = true -> is_space a = false.
Proof. each_char a. Qed.

Lemma digit_not_space (a : ascii) : is_digit a = true -> is_space a = false.
Proof. each_char a. Qed.

Lemma digit_cases (a : ascii) : is_digit a = true -> In a digits.
Proof. each_char a; cbn; tauto. Qed.

Lemma four_digits_print_back (a b c d : ascii) :
  is_digit a = true -> is_digit b = true -> is_digit c = true ->
  is_digit d = true -> prints_back a b c d = true.
Proof.
  intros Ha Hb Hc Hd.
  assert (forallb (fun a => forallb (fun b => forallb (fun c =>
            forallb (fun d => prints_back a b c d) digits) digits) digits)
            digits = true) as H by (vm_compute; reflexivity).
  rewrite forallb_forall in H. specialize (H a (digit_cases a Ha)).
  rewrite forallb_forall in H. specialize (H b (digit_cases b Hb)).
  rewrite forallb_forall in H. specialize (H c (digit_cases c Hc)).
  rewrite forallb_forall in H. exact (H d (digit_cases d Hd)).
Qed.

Lemma year_match (yr w1 w2 col w3 w4 w5 post : list ascii) (d1 d2 d3 d4 : ascii) :
  same_ci yr (chars "YEAR") ->
  blank w1 -> blank w2 -> blank w3 -> blank w4 -> blank w5 ->
  col <> [] -> Forall (fun a => is_word a || Ascii.eqb a "." = true) col ->
  Forall (fun a => is_digit a = true) [d1; d2; d3; d4] ->
  match_at year_pattern
    (year_occurrence yr w1 w2 col w3 w4 w5 [d1; d2; d3; d4] ++ post)
  = Some (post, <[2 := [d1; d2; d3; d4]]> (<[1 := col]> ∅)).
Proof.
  intros Hyr H1 H2 H3 H4 H5 Hne Hcol Hd.
  assert (stops is_space (col ++ w3 ++ ")"%char :: w4 ++ "="%char :: w5
                          ++ [d1; d2; d3; d4] ++ post)) as Scol.
  { destruct col as [|c0 col']; [contradiction|]. cbn [app stops].
    apply word_not_space. now apply Forall_cons in Hcol as [Hc _]. }
  apply Forall_cons in Hd as [Hd1 Hd]. apply Forall_cons in Hd as [Hd2 Hd].
  apply Forall_cons in Hd as [Hd3 Hd]. apply Forall_cons in Hd as [Hd4 _].
  unfold match_at, year_pattern, year_occurrence.
  repeat (rewrite <- app_assoc || rewrite <- app_comm_cons). cbn [Cat run].
  rewrite run_word by exact Hyr.
  apply (run_star_cls _ w1); [exact H1 | reflexivity |].
  cbn [run]. change (ieq "(" "(") with true. cbv iota.
  apply (run_star_cls _ w2); [exact H2 | exact Scol |].
  apply (run_plus_cls _ col); [exact Hcol | exact Hne | |].
  { destruct w3 as [|b w3]; [reflexivity|]. cbn [app stops].
    apply space_not_word. now apply Forall_cons in H3 as [Hb _]. }
  rewrite take_consumed.
  apply (run_star_cls _ w3); [exact H3 | reflexivity |].
  cbn [run]. change (ieq ")" ")") with true. cbv iota.
  apply (run_star_cls _ w4); [exact H4 | reflexivity |].
  cbn [run]. change (ieq "=" "=") with true. cbv iota.
  apply (run_star_cls _ w5); [exact H5 | cbn [app stops]; now apply digit_not_space |].
  unfold dg. cbn [app run Cat]. rewrite Hd1, Hd2, Hd3, Hd4.
  do 2 f_equal. f_equal.
  replace (length (d1 :: d2 :: d3 :: d4 :: post) - length post) with 4
    by (cbn [length]; lia).
  reflexivity.
Qed.

Lemma year_repl_on (u : year_use) (t : list ascii) (st : list RewriteChange) :
  Forall (fun a => is_digit a = true) (use_digits u) ->
  year_repl (Found t (<[2 := use_digits u]> (<[1 := u_col u]> ∅))) st
  = Ok (range_of u, st ++ [year_change]).
Proof.
  intros Hd. destruct (int_digits _ Hd ltac:(discriminate)) as (year & Hy & _).
  unfold use_digits in *.
  apply Forall_cons in Hd as [Hd1 Hd]. apply Forall_cons in Hd as [Hd2 Hd].
  apply Forall_cons in Hd as [Hd3 Hd]. apply Forall_cons in Hd as [Hd4 _].
  pose proof (four_digits_print_back _ _ _ _ Hd1 Hd2 Hd3 Hd4) as Hp.
  unfold prints_back in Hp. rewrite Hy in Hp. apply String.eqb_eq in Hp.
  unfold year_repl, group, range_of, next_year, use_digits. cbn [caps].
  rewrite lookup_insert_eq, lookup_insert_ne, lookup_insert_eq by discriminate.
  cbn [fmap option_fmap option_map fmt default].
  unfold mbind, M_bind, lift. rewrite Hy. unfold append, mret, M_ret.
  rewrite Hp. reflexivity.
Qed.

(** The rule on a text that starts with an occurrence, after a stretch
    in which no match starts: the stretch is kept, the occurrence becomes
    its range, and the rule goes on with the rest. *)
Lemma year_rule_step (u : year_use) (post : list ascii)
    (st : list RewriteChange) :
  use_ok u ->
  clear_before year_pattern (u_before u) (use_text u ++ post) = true ->
  _rewrite_year_function_on_column (text (u_before u ++ use_text u ++ post)) st
  = match _rewrite_year_function_on_column (text post) (st ++ [year_change]) with
    | Ok (post', st') => Ok (text (u_before u) +:+ range_of u +:+ post', st')
    | Raise e => Raise e
    end.
Proof.
  intros (Hyr & H1 & H2 & H3 & H4 & H5 & Hne & Hcol & Hd) Hclear.
  unfold _rewrite_year_function_on_column, sub. rewrite !chars_text.
  rewrite (pieces_skip _ _ _ Hclear), subst_keep.
  rewrite (pieces_hit _ (use_text u) post
             (<[2 := use_digits u]> (<[1 := u_col u]> ∅))).
  - cbn [subst]. unfold mbind, M_bind. rewrite (year_repl_on u _ st Hd).
    destruct (subst year_repl (pieces year_pattern post) (st ++ [year_change]))
      as [[post' st']|e]; reflexivity.
  - now apply year_match.
  - unfold use_text, year_occurrence. destruct (u_word u); [|discriminate].
    apply Forall2_length in Hyr. discriminate.
Qed.

(** C8: a text cut into occurrences of [YEAR(col) = y], [y] four
    digits, each after a stretch in which no match starts, and a tail
    without a match: the YEAR rule keeps the stretches and the tail,
    turns every occurrence into
    [col >= 'y-01-01' AND col < 'y+1-01-01'] and records one change for
    each; the query of the specification is rewritten as it says. *)
Theorem year_rule_rewrites (us : list year_use) (tail : list ascii)
    (st : list RewriteChange) :
  well_cut us tail ->
  _rewrite_year_function_on_column (text (source us tail)) st
  = Ok (target us tail, st ++ repeat year_change (length us))
  /\ rewrite_query "SELECT * FROM orders WHERE YEAR(created_at) = 2024" "safe"
     = Ok {| original_sql :=
               "SELECT * FROM orders WHERE YEAR(created_at) = 2024";
             rewritten_sql :=
               "SELECT * FROM orders WHERE created_at >= '2024-01-01' AND created_at < '2025-01-01'";
             mode := "safe";
             changes := [year_change] |}.
Proof.
  intros Hcut. split; [|vm_compute; reflexivity].
  revert st. induction us as [|u us IH]; intros st; cbn [source target length repeat].
  - cbn [well_cut] in Hcut. rewrite app_nil_r.
    apply sub_no_match. unfold found_in, search. now rewrite chars_text, Hcut.
  - destruct Hcut as (Hu & Hclear & Hcut).
    rewrite (year_rule_step u _ st Hu Hclear), (IH Hcut).
    rewrite <- app_assoc. reflexivity.
Qed.

(** Two occurrences in one query, the second in lower case and with
    blanks. *)
Lemma year_rule_rewrites_witness :
  _rewrite_year_function_on_column
    "SELECT * FROM orders WHERE YEAR(created_at) = 2024 OR year ( o.paid )=1999 LIMIT 5"
    []
  = Ok ("SELECT * FROM orders WHERE created_at >= '2024-01-01' AND created_at < '2025-01-01' OR o.paid >= '1999-01-01' AND o.paid < '2000-01-01' LIMIT 5",
        [year_change; year_change])
  /\ rewrite_query "SELECT * FROM orders WHERE YEAR(created_at) = 2024" "safe"
     = Ok {| original_sql :=
               "SELECT * FROM orders WHERE YEAR(created_at) = 2024";
             rewritten_sql :=
               "SELECT * FROM orders WHERE created_at >= '2024-01-01' AND created_at < '2025-01-01'";
             mode := "safe";
             changes := [year_change] |}.
Proof.
  refine (year_rule_rewrites
            [ {| u_before := chars "SELECT * FROM orders WHERE ";
                 u_word := chars "YEAR"; u_w1 := []; u_w2 := [];
                 u_col := chars "created_at"; u_w3 := []; u_w4 := chars " ";
                 u_w5 := chars " ";
                 u_d1 := "2"; u_d2 := "0"; u_d3 := "2"; u_d4 := "4" |};
              {| u_before := chars " OR ";
                 u_word := chars "year"; u_w1 := chars " "; u_w2 := chars " ";
                 u_col := chars "o.paid"; u_w3 := chars " "; u_w4 := [];
                 u_w5 := [];
                 u_d1 := "1"; u_d2 := "9"; u_d3 := "9"; u_d4 := "9" |} ]
            (chars " LIMIT 5") [] _).
  cbn [well_cut]. unfold use_ok, blank.
  repeat split; try (vm_compute; reflexivity); try discriminate;
    repeat constructor.
Defined.
(** *** Rule 1 applied twice *)

Lemma ieq_bang (a : ascii) : ieq a "!" = true -> a = "!"%char.
Proof. each_char a. Qed.

Lemma space_not_i (a : ascii) : is_space a = true -> a <> "I"%char.
Proof. each_char a. Qed.

Lemma null_letter (a : ascii) :
  ieq a "N" = true \/ ieq a "U" = true \/ ieq a "L" = true ->
  a <> "I"%char /\ is_space a = false.
Proof. each_char a; intros [H|[H|H]]; discriminate. Qed.

Lemma null_word_letters (n : list ascii) :
  same_ci n (chars "NULL") ->
  Forall (fun a => a <> "I"%char) n /\ stops is_space n /\ n <> [].
Proof.
  intros H. cbn in H.
  apply Forall2_cons_inv_r in H as (a1 & n1 & H1 & H & ->).
  apply Forall2_cons_inv_r in H as (a2 & n2 & H2 & H & ->).
  apply Forall2_cons_inv_r in H as (a3 & n3 & H3 & H & ->).
  apply Forall2_cons_inv_r in H as (a4 & n4 & H4 & H & ->).
  apply Forall2_nil_inv_r in H as ->.
  split; [|split; [|discriminate]].
  - repeat constructor; apply null_letter; auto.
  - cbn [stops]. apply null_letter; auto.
Qed.

Lemma matches_chrs_inv (cs t : list ascii) (g g' : groups) :
  matches (Cat (map Chr cs)) g t g' -> same_ci t cs.
Proof.
  revert t g. induction cs as [|c cs IH]; intros t g H; cbn [map Cat] in H.
  - apply matches_eps_inv in H as [-> _]. constructor.
  - apply matches_seq_inv in H as (t1 & t2 & g1 & -> & H1 & H2).
    apply matches_chr_inv in H1 as (a & -> & Ha & ->).
    constructor; [exact Ha | now apply IH in H2].
Qed.

Lemma not_eq_text (t : list ascii) (g : groups) :
  matches pattern_not_eq ∅ t g -> null_text (chars "!=") t.
Proof.
  intros H. unfold pattern_not_eq in H. split_cat H. read_chars.
  apply ieq_bang in E0 as ->.
  match goal with M : matches (Star sp) _ _ _ |- _ => apply matches_star_cls in M end.
  match goal with M : matches (Word _) _ _ _ |- _ => apply matches_chrs_inv in M end.
  eexists _, _. split; [|split; eassumption].
  cbn [app chars]. now rewrite app_nil_r.
Qed.

Lemma eq_text (t : list ascii) (g : groups) :
  matches pattern_eq ∅ t g -> null_text (chars "=") t.
Proof.
  intros H. unfold pattern_eq in H. split_cat H. read_chars.
  match goal with M : matches (Star sp) _ _ _ |- _ => apply matches_star_cls in M end.
  match goal with M : matches (Word _) _ _ _ |- _ => apply matches_chrs_inv in M end.
  eexists _, _. split; [|split; eassumption].
  cbn [app chars]. now rewrite app_nil_r.
Qed.

Lemma not_eq_match (t Y : list ascii) :
  null_text (chars "!=") t -> match_at pattern_not_eq (t ++ Y) = Some (Y, ∅).
Proof.
  intros (w & n & -> & Hw & Hn).
  destruct (null_word_letters n Hn) as (_ & Hstop & Hne).
  unfold match_at, pattern_not_eq. cbn [chars app Cat run].
  change (ieq "!" "!") with true. change (ieq "=" "=") with true. cbv iota.
  rewrite <- app_assoc.
  apply (run_star_cls _ w); [exact Hw | |].
  - destruct n as [|a n]; [contradiction|]. exact Hstop.
  - rewrite run_word by exact Hn. reflexivity.
Qed.

Lemma eq_match (t Y : list ascii) :
  null_text (chars "=") t -> match_at pattern_eq (t ++ Y) = Some (Y, ∅).
Proof.
  intros (w & n & -> & Hw & Hn).
  destruct (null_word_letters n Hn) as (_ & Hstop & Hne).
  unfold match_at, pattern_eq. cbn [chars app Cat run].
  change (ieq "=" "=") with true. cbv iota.
  rewrite <- app_assoc.
  apply (run_star_cls _ w); [exact Hw | |].
  - destruct n as [|a n]; [contradiction|]. exact Hstop.
  - rewrite run_word by exact Hn. reflexivity.
Qed.

(** After its first character the text of a null comparison has no [I]. *)
Lemma null_text_tail (lead' t : list ascii) (c : ascii) :
  Forall (fun a => a <> "I"%char) lead' ->
  null_text (c :: lead') t ->
  exists t', t = c :: t' /\ Forall (fun a => a <> "I"%char) t'.
Proof.
  intros Hl (w & n & -> & Hw & Hn).
  destruct (null_word_letters n Hn) as (Hi & _).
  exists (lead' ++ w ++ n). split; [reflexivity|].
  rewrite !Forall_app. repeat split; [exact Hl | | exact Hi].
  eapply Forall_impl; [exact Hw|]. intros a. apply space_not_i.
Qed.

Lemma not_eq_consumes (s rest : list ascii) (g : groups) :
  match_at pattern_not_eq s = Some (rest, g) ->
  exists t, t <> [] /\ s = t ++ rest.
Proof.
  intros E. destruct (match_at_sound _ _ _ _ E) as (t & -> & Hm).
  exists t. split; [|reflexivity].
  apply not_eq_text in Hm as (w & n & -> & _). discriminate.
Qed.

Lemma eq_consumes (s rest : list ascii) (g : groups) :
  match_at pattern_eq s = Some (rest, g) ->
  exists t, t <> [] /\ s = t ++ rest.
Proof.
  intros E. destruct (match_at_sound _ _ _ _ E) as (t & -> & Hm).
  exists t. split; [|reflexivity].
  apply eq_text in Hm as (w & n & -> & _). discriminate.
Qed.

Lemma not_eq_local (c : ascii) (X rest : list ascii) (g : groups) :
  match_at pattern_not_eq (c :: X) = Some (rest, g) ->
  exists t, X = t ++ rest /\ Forall (fun a => a <> "I"%char) t
            /\ forall Y, match_at pattern_not_eq (c :: t ++ Y) <> None.
Proof.
  intros E. destruct (match_at_sound _ _ _ _ E) as (t & Ht & Hm).
  apply not_eq_text in Hm.
  destruct (null_text_tail (chars "=") t "!") as (t' & -> & Hi);
    [repeat constructor; discriminate | exact Hm |].
  injection Ht as -> ->. exists t'. repeat split; [exact Hi|].
  intros Y. rewrite app_comm_cons, (not_eq_match _ _ Hm). discriminate.
Qed.

Lemma eq_local (c : ascii) (X rest : list ascii) (g : groups) :
  match_at pattern_eq (c :: X) = Some (rest, g) ->
  exists t, X = t ++ rest /\ Forall (fun a => a <> "I"%char) t
            /\ forall Y, match_at pattern_eq (c :: t ++ Y) <> None.
Proof.
  intros E. destruct (match_at_sound _ _ _ _ E) as (t & Ht & Hm).
  apply eq_text in Hm.
  destruct (null_text_tail [] t "=") as (t' & -> & Hi);
    [constructor | exact Hm |].
  injection Ht as -> ->. exists t'. repeat split; [exact Hi|].
  intros Y. rewrite app_comm_cons, (eq_match _ _ Hm). discriminate.
Qed.

Lemma not_eq_replaced (s : list ascii) :
  search_go pattern_not_eq (replace_all pattern_not_eq "IS NOT NULL" s) = None.
Proof.
  apply (replaced_clear pattern_not_eq pattern_not_eq "IS NOT NULL" "I")
    with (n := length s).
  - eexists. reflexivity.
  - repeat constructor.
  - exact not_eq_consumes.
  - reflexivity.
  - exact not_eq_local.
  - lia.
  - auto.
Qed.

Lemma eq_replaced (s : list ascii) :
  search_go pattern_eq (replace_all pattern_eq "IS NULL" s) = None.
Proof.
  apply (replaced_clear pattern_eq pattern_eq "IS NULL" "I") with (n := length s).
  - eexists. reflexivity.
  - repeat constructor.
  - exact eq_consumes.
  - reflexivity.
  - exact eq_local.
  - lia.
  - auto.
Qed.

Lemma not_eq_stays_clear (s : list ascii) :
  search_go pattern_not_eq s = None ->
  search_go pattern_not_eq (replace_all pattern_eq "IS NULL" s) = None.
Proof.
  intros H.
  apply (replaced_clear pattern_not_eq pattern_eq "IS NULL" "I") with (n := length s).
  - eexists. reflexivity.
  - repeat constructor.
  - exact eq_consumes.
  - reflexivity.
  - exact not_eq_local.
  - lia.
  - intros s1 s2 -> _. apply search_none_here. now apply search_none_suffix in H.
Qed.

(** The text rule 1 leaves has no null comparison for rule 1. *)
Lemma null_normal_clear (s : list ascii) :
  search_go pattern_not_eq (null_normal s) = None
  /\ search_go pattern_eq (null_normal s) = None.
Proof.
  unfold null_normal. split.
  - apply not_eq_stays_clear, not_eq_replaced.
  - apply eq_replaced.
Qed.

Lemma found_in_text (r : regex) (s : list ascii) :
  found_in r (text s) = match search_go r s with Some _ => true | None => false end.
Proof. unfold found_in, search. now rewrite chars_text. Qed.

Ltac all_null_changes :=
  repeat (apply List.Forall_cons; [tauto|]); apply List.Forall_nil.

Lemma null_rule_result (sql : string) (st : list RewriteChange) :
  exists d,
    _rewrite_null_comparisons sql st = Ok (text (null_normal (chars sql)), st ++ d)
    /\ Forall (fun c => c = not_null_change \/ c = is_null_change) d.
Proof.
  unfold _rewrite_null_comparisons, null_normal, found_in, search, sub_const.
  unfold mbind, M_bind, mret, M_ret, append.
  destruct (search_go pattern_not_eq (chars sql)) eqn:E1.
  - rewrite chars_text.
    destruct (search_go pattern_eq _) eqn:E2.
    + exists [not_null_change; is_null_change].
      rewrite <- app_assoc. split; [reflexivity | all_null_changes].
    + exists [not_null_change]. rewrite (replace_all_none _ _ _ E2).
      split; [reflexivity | all_null_changes].
  - rewrite (replace_all_none _ _ _ E1).
    destruct (search_go pattern_eq (chars sql)) eqn:E2.
    + exists [is_null_change]. split; [reflexivity | all_null_changes].
    + exists []. rewrite (replace_all_none _ _ _ E2), app_nil_r, text_chars.
      split; [reflexivity | all_null_changes].
Qed.

Lemma null_rule_fixed (s : list ascii) (st : list RewriteChange) :
  _rewrite_null_comparisons (text (null_normal s)) st
  = Ok (text (null_normal s), st).
Proof.
  destruct (null_normal_clear s) as [H1 H2].
  unfold _rewrite_null_comparisons. rewrite !found_in_text, H1.
  unfold mbind, M_bind, mret, M_ret. rewrite found_in_text, H2. reflexivity.
Qed.

(** *** What a [sub] rule records *)

Lemma hits_zero_search (r : regex) (s : list ascii) :
  hits (pieces r s) = 0 -> search_go r s = None.
Proof.
  intros H. destruct (search_go r s) as [m|] eqn:E; [|reflexivity].
  pose proof (scan_some r (S (length s)) s m E ltac:(lia)) as Hpos.
  unfold pieces in H. lia.
Qed.

(** A [sub] rule whose replacement function records [c]: the rule
    records [c] once per match, and without a match it finds nothing and
    returns its input. *)
Lemma sub_changes (r : regex) (repl : found -> Rule string) (c : RewriteChange)
    (sql : string) (st : list RewriteChange) :
  (forall m, matches r ∅ (whole m) (caps m) ->
     forall st, repl m st = Ok (output repl m, st ++ [c])) ->
  exists sql' n,
    sub r repl sql st = Ok (sql', st ++ repeat c n)
    /\ (n = 0 -> found_in r sql = false /\ sql' = sql).
Proof.
  intros Hrepl. set (ps := pieces r (chars sql)).
  exists (text (flat_map (render (output repl)) ps)), (hits ps). split.
  - unfold sub. fold ps. rewrite <- iter_append. apply subst_ok.
    eapply Forall_impl; [apply pieces_sound|]. intros [a|m] Hm; [exact I|].
    apply (Hrepl m Hm).
  - intros H0. split.
    + unfold found_in, search. now rewrite (hits_zero_search _ _ H0).
    + rewrite hits_none_render by exact H0. unfold ps.
      now rewrite pieces_text, text_chars.
Qed.

(** *** The OR rule applied twice

    [rendered_clear] asks two things of the text that replaces a match:
    that no match of the searched pattern starts inside it, and that a
    match which starts before it was there before the replacement was
    made.  For the OR pattern both come from the blanks.  In a match
    every blank that follows a character other than a blank and the
    equals sign has only blanks and word characters between it and an
    equals sign.  In the replacement, [WHERE col IN (...)], the blanks
    after [WHERE], after the column and after [IN] have an opening
    parenthesis there instead, and the values have no blank at all.  So
    a match cannot hold the blank after the [WHERE] of a replacement: it
    ends within that [WHERE], and its last value can as well end with
    the [WHERE] of the match that was replaced. *)

(** **** Characters *)

Lemma wordy_lower (a : ascii) : wordy (char_lower a) = wordy a.
Proof. each_char a; reflexivity. Qed.

Lemma ieq_wordy (a b : ascii) : ieq a b = true -> wordy b = true -> wordy a = true.
Proof.
  unfold ieq. intros H Hb. apply Ascii.eqb_eq in H.
  now rewrite <- wordy_lower, H, wordy_lower.
Qed.

Lemma same_ci_wordlike (t u : list ascii) :
  same_ci t u -> wordlike u -> wordlike t.
Proof.
  induction 1 as [|a b t u Hab _ IH]; intros Hu; [constructor|].
  apply Forall_cons in Hu as [Hb Hu].
  constructor; [now apply (ieq_wordy a b) | now apply IH].
Qed.

Lemma wordy_plain (a : ascii) :
  wordy a = true ->
  is_space a = false /\ a <> "="%char /\ a <> "!"%char /\ a <> "("%char
  /\ a <> ")"%char /\ a <> ","%char.
Proof. each_char a. Qed.

Lemma space_plain (a : ascii) :
  is_space a = true ->
  wordy a = false /\ a <> "="%char /\ a <> "!"%char /\ a <> "("%char
  /\ a <> ")"%char /\ a <> ","%char /\ a <> "W"%char.
Proof. each_char a. Qed.

Lemma wordlike_solid (w : list ascii) : wordlike w -> solid w.
Proof. intros H. eapply Forall_impl; [exact H|]. intros a Ha. now apply wordy_plain in Ha. Qed.

Lemma ieq_w (a : ascii) : ieq a "W" = true -> a = "W"%char \/ a = "w"%char.
Proof. each_char a; auto. Qed.

(** **** An equals sign ahead *)

Lemma not_eq_ahead (u X : list ascii) (c : ascii) :
  Forall (fun a => is_space a || wordy a = true) u ->
  is_space c || wordy c = false -> c <> "="%char ->
  ~ eq_ahead (u ++ c :: X).
Proof.
  intros Hu Hc Hne (w & z' & E & Hw). revert w E Hw.
  induction Hu as [|a u Ha _ IH]; intros w E Hw.
  - destruct w as [|b w]; cbn [app] in E.
    + injection E as E _. contradiction.
    + injection E as -> _. apply Forall_cons in Hw as [Hw _]. congruence.
  - destruct w as [|b w]; cbn [app] in E.
    + injection E as -> _. revert Ha. clear. vm_compute. discriminate.
    + injection E as -> E. apply Forall_cons in Hw as [_ Hw]. now apply (IH w).
Qed.

Lemma blank_or_wordy (w : list ascii) :
  blank w -> Forall (fun a => is_space a || wordy a = true) w.
Proof. intros H. eapply Forall_impl; [exact H|]. intros a Ha. cbn beta in Ha. now rewrite Ha. Qed.

Lemma wordlike_or_blank (w : list ascii) :
  wordlike w -> Forall (fun a => is_space a || wordy a = true) w.
Proof. intros H. eapply Forall_impl; [exact H|]. intros a Ha. cbn beta in Ha. rewrite Ha. apply orb_true_r. Qed.

(** **** Blanks in a match *)

Lemma gaps_app (t1 t2 rest : list ascii) :
  (forall prev, gaps_ok prev t1 (t2 ++ rest)) ->
  (forall prev, gaps_ok prev t2 rest) ->
  forall prev, gaps_ok prev (t1 ++ t2) rest.
Proof.
  intros H1 H2 prev. specialize (H1 prev). revert prev H1.
  induction t1 as [|b t1 IH]; intros prev H1; [apply H2|].
  cbn [app gaps_ok] in *. destruct H1 as [Hb H1]. split.
  - now rewrite <- app_assoc.
  - now apply IH.
Qed.

Lemma gaps_solid (t rest : list ascii) :
  solid t -> forall prev, gaps_ok prev t rest.
Proof.
  induction 1 as [|b t Hb _ IH]; intros prev; cbn [gaps_ok]; [exact I|].
  split; [congruence | apply IH].
Qed.

Lemma gaps_blank_inner (t rest : list ascii) (prev : ascii) :
  blank t -> is_space prev = true \/ prev = "="%char -> gaps_ok prev t rest.
Proof.
  intros H. revert prev. induction H as [|b t Hb _ IH]; intros prev Hp;
    cbn [gaps_ok]; [exact I|].
  split; [|apply IH; now left].
  intros _ H1 H2. destruct Hp; congruence.
Qed.

Lemma gaps_blank (t rest : list ascii) :
  blank t -> (t <> [] -> eq_ahead (t ++ rest)) ->
  forall prev, gaps_ok prev t rest.
Proof.
  intros H He prev. destruct H as [|b t Hb H]; cbn [gaps_ok]; [exact I|].
  split; [intros; now apply He | apply gaps_blank_inner; [exact H | now left]].
Qed.

Lemma gaps_eq_blank (t rest : list ascii) :
  blank t -> forall prev, gaps_ok prev ("="%char :: t) rest.
Proof.
  intros H prev. cbn [gaps_ok]. split; [discriminate|].
  apply gaps_blank_inner; [exact H | now right].
Qed.

(** What [gaps_ok] says of one blank. *)
Lemma gaps_at (t rest x z : list ascii) (a b : ascii) :
  (forall prev, gaps_ok prev t rest) ->
  t = x ++ a :: b :: z ->
  is_space a = false -> a <> "="%char -> is_space b = true ->
  eq_ahead (b :: z ++ rest).
Proof.
  intros H -> Ha Hne Hb. specialize (H a). revert H.
  generalize a at 1. induction x as [|c x IH]; intros prev H; cbn [app gaps_ok] in H.
  - destruct H as [_ [H _]]. now apply H.
  - destruct H as [_ H]. now apply (IH c).
Qed.

Lemma eq_ahead_app (w z : list ascii) :
  Forall (fun a => is_space a || wordy a = true) w -> eq_ahead z -> eq_ahead (w ++ z).
Proof.
  intros Hw (w' & z' & -> & Hw'). exists (w ++ w'), z'.
  split; [now rewrite <- app_assoc | now apply Forall_app].
Qed.

Lemma eq_ahead_eq (z : list ascii) : eq_ahead ("="%char :: z).
Proof. exists [], z. split; [reflexivity | constructor]. Qed.

(** **** The parts of a match of the OR pattern *)

Lemma solid_nsp (t : list ascii) :
  Forall (fun a => negb (is_space a) = true) t -> solid t.
Proof.
  intros H. eapply Forall_impl; [exact H|]. intros a Ha.
  now apply negb_true_iff in Ha.
Qed.

Lemma nsp_solid (t : list ascii) :
  solid t -> Forall (fun a => negb (is_space a) = true) t.
Proof.
  intros H. eapply Forall_impl; [exact H|]. intros a Ha. cbn beta in Ha.
  now rewrite Ha.
Qed.

Lemma or_text (t : list ascii) (g : groups) :
  matches or_pattern ∅ t g ->
  exists u, t = or_use_text u /\ or_use_ok u /\ g = <[3 := o_rest u]> (or_env u).
Proof.
  intros H. unfold or_pattern in H. split_cat H. read_chars. same_groups.
  read_groups. same_groups.
  repeat match goal with
         | M : matches (Plus sp) _ _ _ |- _ =>
             apply matches_plus_cls in M; destruct M as (? & ? & _)
         | M : matches (Plus wd) _ _ _ |- _ =>
             apply matches_plus_cls in M; destruct M as (? & ? & _)
         | M : matches (Plus nsp) _ _ _ |- _ =>
             apply matches_plus_cls in M; destruct M as (? & ? & _)
         | M : matches (Star sp) _ _ _ |- _ => apply matches_star_cls in M
         | M : matches (Word _) _ _ _ |- _ => apply matches_chrs_inv in M
         | M : matches (Ref 1) _ _ _ |- _ =>
             apply matches_ref_inv in M; destruct M as (? & ? & ? & _)
         end.
  match goal with
  | E : <[2:=_]> (<[1:=?c]> ∅) !! 1 = Some ?x |- _ =>
      rewrite lookup_insert_ne in E by discriminate;
      rewrite lookup_insert_eq in E; injection E as <-
  end.
  match goal with
  | M : matches (Seq (Plus nsp) (Star or_more)) (<[2:=?v1]> (<[1:=?col]> ∅)) ?v3 _,
    W : same_ci ?w (chars "WHERE"), O : same_ci ?o (chars "OR"),
    C : same_ci ?c2 ?col |- _ =>
      match goal with
      | |- context [?w ++ ?b1 ++ col ++ ?b2 ++ [_] ++ ?b3 ++ v1 ++ ?b4 ++ o ++ ?b5
                    ++ c2 ++ ?b6 ++ [_] ++ ?b7 ++ v3 ++ []] =>
          exists {| o_where := w; o_b1 := b1; o_col := col; o_b2 := b2;
                    o_b3 := b3; o_v1 := v1; o_b4 := b4; o_or := o; o_b5 := b5;
                    o_col2 := c2; o_b6 := b6; o_b7 := b7; o_rest := v3 |}
      end
  end.
  split; [|split].
  - unfold or_use_text. cbn. now rewrite app_nil_r.
  - constructor; cbn; try assumption; try (split; assumption);
      try (split; [apply solid_nsp|]; assumption).
  - reflexivity.
Qed.

(** One more disjunct, part by part. *)
Lemma or_more_text (t : list ascii) (g g' : groups) :
  matches or_more g t g' ->
  exists b o b' c b3 b4 v col,
    t = b ++ o ++ b' ++ c ++ b3 ++ "="%char :: b4 ++ v
    /\ (blank b /\ b <> []) /\ same_ci o (chars "OR") /\ (blank b' /\ b' <> [])
    /\ g !! 1 = Some col /\ same_ci c col /\ blank b3 /\ blank b4
    /\ (solid v /\ v <> []) /\ g' = g.
Proof.
  intros H. pose proof (matches_groupless _ _ _ _ H eq_refl) as ->.
  unfold or_more in H. split_cat H. read_chars. same_groups.
  repeat match goal with
         | M : matches (Plus sp) _ _ _ |- _ =>
             apply matches_plus_cls in M; destruct M as (? & ? & _)
         | M : matches (Plus nsp) _ _ _ |- _ =>
             apply matches_plus_cls in M; destruct M as (? & ? & _)
         | M : matches (Star sp) _ _ _ |- _ => apply matches_star_cls in M
         | M : matches (Word _) _ _ _ |- _ => apply matches_chrs_inv in M
         | M : matches (Ref 1) _ _ _ |- _ =>
             apply matches_ref_inv in M; destruct M as (? & ? & ? & _)
         end.
  eexists _, _, _, _, _, _, _, _. split.
  { cbn [app]. rewrite app_nil_r. reflexivity. }
  repeat split; try eassumption. now apply solid_nsp.
Qed.

(** The last pattern of a sequence matches the end of the text. *)
Lemma matches_cat_snoc (rs : list regex) (r : regex) (g g' : groups)
    (t : list ascii) :
  matches (Cat (rs ++ [r])) g t g'
  <-> exists t1 t2 g1,
        t = t1 ++ t2 /\ matches (Cat rs) g t1 g1 /\ matches r g1 t2 g'.
Proof.
  revert g t. induction rs as [|r0 rs IH]; intros g t; cbn [app Cat].
  - split.
    + intros H. apply matches_seq_inv in H as (t1 & t2 & g1 & -> & H1 & H2).
      apply matches_eps_inv in H2 as [-> ->].
      exists [], t1, g. rewrite app_nil_r. repeat split; [constructor | exact H1].
    + intros (t1 & t2 & g1 & -> & H1 & H2).
      apply matches_eps_inv in H1 as [-> ->]. cbn [app].
      rewrite <- (app_nil_r t2). apply matches_seq with g'; [exact H2 | constructor].
  - split.
    + intros H. apply matches_seq_inv in H as (t1 & t2 & g1 & -> & H1 & H2).
      apply IH in H2 as (t3 & t4 & g2 & -> & H3 & H4).
      exists (t1 ++ t3), t4, g2. rewrite <- app_assoc.
      repeat split; [|exact H4]. now apply matches_seq with g1.
    + intros (t1 & t2 & g1 & -> & H1 & H2).
      apply matches_seq_inv in H1 as (t3 & t4 & g2 & -> & H3 & H4).
      rewrite <- app_assoc. apply matches_seq with g2; [exact H3|].
      apply IH. eauto 6.
Qed.

Lemma ends_quiet_eq_blank (l b : list ascii) :
  blank b -> ends_quiet (l ++ "="%char :: b).
Proof.
  intros H. destruct b as [|x b] using rev_ind.
  - exists l, "="%char. split; [reflexivity | now right].
  - apply Forall_app in H as [_ H]. apply Forall_cons in H as [H _].
    exists (l ++ "="%char :: b), x. split; [|now left].
    now rewrite <- app_assoc.
Qed.

Lemma ends_quiet_app (l w : list ascii) : ends_quiet w -> ends_quiet (l ++ w).
Proof.
  intros (w1 & e & -> & He). exists (l ++ w1), e. split; [|exact He].
  now rewrite <- app_assoc.
Qed.

(** A stretch without blanks and equals signs at the end of a text lies
    in what follows the last blank or equals sign. *)
Lemma suffix_after (x u y v : list ascii) :
  x ++ u = y ++ v -> ends_quiet y ->
  Forall (fun a => is_space a = false /\ a <> "="%char) u ->
  exists v', v = v' ++ u /\ x = y ++ v'.
Proof.
  intros E (w1 & e & -> & He) Hu. rewrite <- app_assoc in E. cbn [app] in E.
  destruct (elem_app_split _ _ _ _ _ E) as [(m & -> & ->)|(m & -> & ->)].
  - exists m. split; [reflexivity|]. now rewrite <- app_assoc.
  - exfalso. apply Forall_app in Hu as [_ Hu]. apply Forall_cons in Hu as [[H1 H2] _].
    destruct He; congruence.
Qed.

(** **** Building matches *)

Lemma star_cls_intro (p : ascii -> bool) (g : groups) (t : list ascii) :
  Forall (fun a => p a = true) t -> matches (Star (Cls p)) g t g.
Proof.
  induction 1 as [|a t Ha _ IH]; [constructor|].
  change (a :: t) with ([a] ++ t).
  apply matches_star_more with g; [now constructor | discriminate | exact IH].
Qed.

Lemma plus_cls_intro (p : ascii -> bool) (g : groups) (t : list ascii) :
  Forall (fun a => p a = true) t -> t <> [] -> matches (Plus (Cls p)) g t g.
Proof.
  intros H Hne. destruct H as [|a t Ha H]; [contradiction|].
  change (a :: t) with ([a] ++ t).
  apply matches_seq with g; [now constructor | now apply star_cls_intro].
Qed.

Lemma chrs_intro (cs t : list ascii) (g : groups) :
  same_ci t cs -> matches (Cat (map Chr cs)) g t g.
Proof.
  induction 1 as [|a c t cs Hac _ IH]; cbn [map Cat]; [constructor|].
  change (a :: t) with ([a] ++ t).
  apply matches_seq with g; [now constructor | exact IH].
Qed.

(** **** The last value of a match can be any text without blanks *)

Ltac quiet_end :=
  rewrite ?app_nil_r;
  repeat match goal with
         | M : matches (Star sp) _ _ _ |- _ => apply matches_star_cls in M
         end;
  repeat match goal with
         | |- ends_quiet (_ ++ _ ++ _) => apply ends_quiet_app
         end;
  apply (ends_quiet_eq_blank []); assumption.

Lemma or_front :
  or_pattern
  = Cat ([Word "WHERE"; Plus sp; Grp 1 (Plus wd); Star sp; Chr "="; Star sp;
          Grp 2 (Plus nsp); Plus sp; Word "OR"; Plus sp; Ref 1; Star sp;
          Chr "="; Star sp]
         ++ [Grp 3 or_values_re]).
Proof. reflexivity. Qed.

Lemma or_more_front :
  or_more
  = Cat ([Plus sp; Word "OR"; Plus sp; Ref 1; Star sp; Chr "="; Star sp]
         ++ [Plus nsp]).
Proof. reflexivity. Qed.

Lemma more_tail (g g' : groups) (w : list ascii) :
  matches (Star or_more) g w g' ->
  (w = [] /\ g' = g)
  \/ exists w0 v,
       w = w0 ++ v /\ solid v /\ v <> [] /\ ends_quiet w0
       /\ forall v', solid v' -> v' <> [] ->
            matches (Star or_more) g (w0 ++ v') g'.
Proof.
  intros H. remember (Star or_more) as r eqn:Hr.
  induction H as [| | | |r0 g|r0 g t1 g1 t2 g2 H1 _ Hne H2 IH2| |];
    try discriminate.
  - now left.
  - injection Hr as ->. right.
    destruct (IH2 eq_refl) as [[-> ->]|(w0 & v & -> & Hv & Hvne & Hq & Hmod)].
    + rewrite or_more_front in H1.
      apply matches_cat_snoc in H1 as (a1 & a2 & g0 & -> & Hf & Hl).
      pose proof (matches_groupless _ _ _ _ Hl eq_refl) as ->.
      apply matches_plus_cls in Hl as (Ha2 & Ha2ne & _).
      exists a1, a2. rewrite app_nil_r.
      split; [reflexivity|]. split; [now apply solid_nsp|]. split; [exact Ha2ne|].
      split.
      * split_cat Hf. read_chars. quiet_end.
      * intros v' Hv' Hv'ne. rewrite <- (app_nil_r (a1 ++ v')).
        apply matches_star_more with g0; [| |constructor].
        -- rewrite or_more_front. apply matches_cat_snoc.
           exists a1, v', g0. repeat split; [exact Hf|].
           apply plus_cls_intro; [now apply nsp_solid | exact Hv'ne].
        -- destruct a1; [destruct v'; [contradiction | discriminate] | discriminate].
    + exists (t1 ++ w0), v. rewrite <- app_assoc.
      split; [reflexivity|]. split; [exact Hv|]. split; [exact Hvne|].
      split; [now apply ends_quiet_app|].
      intros v' Hv' Hv'ne. rewrite <- app_assoc.
      apply matches_star_more with g1; [exact H1 | exact Hne | now apply Hmod].
Qed.

Lemma values_tail (g g' : groups) (w : list ascii) :
  matches or_values_re g w g' ->
  exists w0 v,
    w = w0 ++ v /\ solid v /\ v <> [] /\ (w0 = [] \/ ends_quiet w0)
    /\ forall v', solid v' -> v' <> [] -> matches or_values_re g (w0 ++ v') g'.
Proof.
  intros H. apply matches_seq_inv in H as (t1 & t2 & g1 & -> & H1 & H2).
  pose proof (matches_groupless _ _ _ _ H1 eq_refl) as ->.
  apply matches_plus_cls in H1 as (Ht1 & Ht1ne & _). apply solid_nsp in Ht1.
  destruct (more_tail _ _ _ H2) as [[-> ->]|(w0 & v & -> & Hv & Hvne & Hq & Hmod)].
  - exists [], t1. rewrite app_nil_r. repeat split; auto.
    intros v' Hv' Hv'ne. cbn [app]. rewrite <- (app_nil_r v').
    apply matches_seq with g; [|constructor].
    apply plus_cls_intro; [now apply nsp_solid | exact Hv'ne].
  - exists (t1 ++ w0), v. rewrite <- app_assoc. repeat split; auto.
    + right. now apply ends_quiet_app.
    + intros v' Hv' Hv'ne. rewrite <- app_assoc.
      apply matches_seq with g; [|now apply Hmod].
      apply plus_cls_intro; [now apply nsp_solid | exact Ht1ne].
Qed.

Lemma or_tail (x u : list ascii) (g : groups) :
  matches or_pattern ∅ (x ++ u) g ->
  Forall (fun a => is_space a = false /\ a <> "="%char) u ->
  forall u', solid u' -> u' <> [] ->
    exists g', matches or_pattern ∅ (x ++ u') g'.
Proof.
  intros H Hu u' Hu' Hu'ne. rewrite or_front in H.
  apply matches_cat_snoc in H as (t1 & t2 & g1 & E & Hf & Hl).
  apply matches_grp_inv in Hl as (g2 & Hl & ->).
  destruct (values_tail _ _ _ Hl) as (w0 & v & -> & Hv & Hvne & Hq & Hmod).
  assert (ends_quiet (t1 ++ w0)) as Hq'.
  { destruct Hq as [->|Hq]; [|now apply ends_quiet_app].
    rewrite app_nil_r. clear - Hf. split_cat Hf. read_chars. quiet_end. }
  rewrite app_assoc in E.
  destruct (suffix_after _ _ _ _ E Hq' Hu) as (v'' & -> & ->).
  apply Forall_app in Hv as [Hv'' _].
  eexists. rewrite or_front. apply matches_cat_snoc.
  exists t1, (w0 ++ v'' ++ u'), g1. split; [now rewrite <- !app_assoc|].
  split; [exact Hf|]. constructor. apply Hmod.
  - now apply Forall_app.
  - destruct v''; [exact Hu'ne | discriminate].
Qed.

(** **** Every blank of a match has its equals sign ahead *)

Lemma or_word_wordlike : wordlike (chars "OR").
Proof. repeat constructor. Qed.

Lemma where_word_wordlike : wordlike (chars "WHERE").
Proof. repeat constructor. Qed.

Ltac ahead :=
  repeat (rewrite <- app_assoc || rewrite <- app_comm_cons);
  repeat first
    [ apply eq_ahead_eq
    | apply eq_ahead_app;
      [first [apply blank_or_wordy; assumption
             | apply wordlike_or_blank; assumption]|] ].

Lemma or_more_gaps (g g' : groups) (t : list ascii) :
  matches or_more g t g' ->
  (forall col, g !! 1 = Some col -> wordlike col) ->
  forall rest prev, gaps_ok prev t rest.
Proof.
  intros H Hg rest.
  destruct (or_more_text _ _ _ H)
    as (b & o & b' & c & b3 & b4 & v & col & -> & [Hb _] & Ho & [Hb' _] & Hcol
        & Hc & Hb3 & Hb4 & [Hv _] & _).
  assert (wordlike o) as Hwo by (apply (same_ci_wordlike _ _ Ho), or_word_wordlike).
  assert (wordlike c) as Hwc by (apply (same_ci_wordlike _ _ Hc), (Hg _ Hcol)).
  apply gaps_app; [apply gaps_blank; [exact Hb | intros _; ahead]|].
  apply gaps_app; [apply gaps_solid, wordlike_solid, Hwo|].
  apply gaps_app; [apply gaps_blank; [exact Hb' | intros _; ahead]|].
  apply gaps_app; [apply gaps_solid, wordlike_solid, Hwc|].
  apply gaps_app; [apply gaps_blank; [exact Hb3 | intros _; ahead]|].
  apply (gaps_app ("="%char :: b4) v); [now apply gaps_eq_blank|].
  now apply gaps_solid.
Qed.

Lemma more_gaps (g g' : groups) (t : list ascii) :
  matches (Star or_more) g t g' ->
  (forall col, g !! 1 = Some col -> wordlike col) ->
  forall rest prev, gaps_ok prev t rest.
Proof.
  intros H. remember (Star or_more) as r eqn:Hr.
  induction H as [| | | |r0 g|r0 g t1 g1 t2 g2 H1 _ Hne H2 IH2| |];
    try discriminate; intros Hg rest.
  - intros prev. exact I.
  - injection Hr as ->.
    pose proof (matches_groupless _ _ _ _ H1 eq_refl) as ->.
    apply gaps_app; [now apply (or_more_gaps g g) | now apply IH2].
Qed.

Lemma values_gaps (g g' : groups) (t : list ascii) :
  matches or_values_re g t g' ->
  (forall col, g !! 1 = Some col -> wordlike col) ->
  forall rest prev, gaps_ok prev t rest.
Proof.
  intros H Hg rest. apply matches_seq_inv in H as (t1 & t2 & g1 & -> & H1 & H2).
  pose proof (matches_groupless _ _ _ _ H1 eq_refl) as ->.
  apply matches_plus_cls in H1 as (Ht1 & _).
  apply gaps_app; [now apply gaps_solid, solid_nsp | now apply (more_gaps g g')].
Qed.

Lemma or_env_col (u : or_use) (col : list ascii) :
  or_env u !! 1 = Some col -> col = o_col u.
Proof.
  unfold or_env. rewrite lookup_insert_ne by discriminate.
  rewrite lookup_insert_eq. congruence.
Qed.

Lemma or_gaps (u : or_use) :
  or_use_ok u -> forall rest prev, gaps_ok prev (or_use_text u) rest.
Proof.
  intros [Hw [Hb1 _] [Hcol _] Hb2 Hb3 [Hv1 _] [Hb4 _] Ho [Hb5 _] Hc2 Hb6 Hb7 Hrest] rest.
  assert (wordlike (o_where u)) as Hww
      by (apply (same_ci_wordlike _ _ Hw), where_word_wordlike).
  assert (wordlike (o_or u)) as Hwo
      by (apply (same_ci_wordlike _ _ Ho), or_word_wordlike).
  assert (wordlike (o_col2 u)) as Hwc by (apply (same_ci_wordlike _ _ Hc2), Hcol).
  unfold or_use_text.
  apply gaps_app; [apply gaps_solid, wordlike_solid, Hww|].
  apply gaps_app; [apply gaps_blank; [exact Hb1 | intros _; ahead]|].
  apply gaps_app; [apply gaps_solid, wordlike_solid, Hcol|].
  apply gaps_app; [apply gaps_blank; [exact Hb2 | intros _; ahead]|].
  apply (gaps_app ("="%char :: o_b3 u)); [now apply gaps_eq_blank|].
  apply gaps_app; [now apply gaps_solid|].
  apply gaps_app; [apply gaps_blank; [exact Hb4 | intros _; ahead]|].
  apply gaps_app; [apply gaps_solid, wordlike_solid, Hwo|].
  apply gaps_app; [apply gaps_blank; [exact Hb5 | intros _; ahead]|].
  apply gaps_app; [apply gaps_solid, wordlike_solid, Hwc|].
  apply gaps_app; [apply gaps_blank; [exact Hb6 | intros _; ahead]|].
  apply (gaps_app ("="%char :: o_b7 u)); [now apply gaps_eq_blank|].
  apply (values_gaps _ _ _ Hrest).
  intros col Hc. apply or_env_col in Hc as ->. exact Hcol.
Qed.

(** **** What replaces a match of the OR pattern *)

Lemma or_output (m : found) (u : or_use) :
  caps m = <[3 := o_rest u]> (or_env u) ->
  chars (output or_repl m) = or_out u.
Proof.
  intros Hc. unfold output, or_repl, group, or_env in *. rewrite Hc.
  rewrite lookup_insert_eq.
  rewrite (lookup_insert_ne _ 3 1), (lookup_insert_ne _ 2 1), lookup_insert_eq
    by discriminate.
  rewrite (lookup_insert_ne _ 3 2), lookup_insert_eq by discriminate.
  cbn [fmap option_fmap option_map]. rewrite or_values_map.
  rewrite <- (map_map value_of Some).
  change (Some (text (o_v1 u))
          :: map Some (map value_of (split or_separator (text (o_rest u)))))
    with (map Some (or_items u)).
  unfold mbind, M_bind, lift. rewrite join_values_some. cbn [fmt default].
  unfold append, mret, M_ret. unfold or_out.
  unfold id. rewrite !chars_app, chars_text. reflexivity.
Qed.

Lemma where_solid (w : list ascii) :
  same_ci w (chars "WHERE") -> solid w /\ w <> [].
Proof.
  intros H. split.
  - apply wordlike_solid, (same_ci_wordlike _ _ H), where_word_wordlike.
  - intros ->. inversion H.
Qed.

(** A match of the OR pattern that starts before a replacement was there
    before the replacement was made. *)
Lemma or_transfer (c : ascii) (k : list ascii) (m : found) (X X' : list ascii) :
  matches or_pattern ∅ (whole m) (caps m) ->
  match_at or_pattern (c :: k ++ chars (output or_repl m) ++ X) <> None ->
  match_at or_pattern (c :: k ++ whole m ++ X') <> None.
Proof.
  intros Hm H. destruct (or_text _ _ Hm) as (u & Hu & Hok & Hcaps).
  rewrite (or_output m u Hcaps) in H.
  apply match_at_iff in H as (t0 & rest0 & g0 & E & H0).
  apply match_at_iff.
  rewrite app_comm_cons in E. symmetry in E.
  apply app_eq_app in E as (l & [[E1 E2]|[E1 E2]]).
  2:{ exists t0, (l ++ whole m ++ X'), g0. split; [|exact H0].
      now rewrite app_comm_cons, E1, <- app_assoc. }
  destruct (where_solid _ (ok_where _ Hok)) as [Hws Hwne].
  assert (forall l0, Forall (fun a => is_space a = false /\ a <> "="%char) l0 ->
            t0 = (c :: k) ++ l0 ->
            exists t rest g, c :: k ++ whole m ++ X' = t ++ rest
                             /\ matches or_pattern ∅ t g) as Hshort.
  { intros l0 Hl0 ->.
    destruct (or_tail _ _ _ H0 Hl0 (o_where u) Hws Hwne) as (g' & Hg').
    eexists _, _, g'. split; [|exact Hg'].
    rewrite Hu. unfold or_use_text. rewrite <- !app_assoc. reflexivity. }
  set (Z := o_col u ++ chars " IN (" ++ chars (join ", " (or_items u))
            ++ [")"%char] ++ X).
  assert (or_out u ++ X = chars "WHERE" ++ " "%char :: Z) as Hz
      by (unfold or_out, Z; rewrite <- !app_assoc; reflexivity).
  rewrite Hz in E2. symmetry in E2.
  destruct (elem_app_split _ _ _ _ _ E2) as [(l' & -> & EZ)|(l' & Hl & _)].
  2:{ refine (Hshort l _ E1).
      assert (Forall (fun a => is_space a = false /\ a <> "="%char) (chars "WHERE"))
        as Hw by (repeat constructor; discriminate).
      rewrite Hl in Hw. now apply Forall_app in Hw as [Hw _]. }
  exfalso.
  destruct (or_text _ _ H0) as (u0 & Hu0 & Hok0 & _).
  pose proof (or_gaps u0 Hok0 rest0) as Hg. rewrite <- Hu0 in Hg.
  pose proof (gaps_at t0 rest0 (c :: k ++ chars "WHER") l' "E" " " Hg) as Ha.
  rewrite <- EZ in Ha.
  destruct Hok as [_ _ [Hcol _] _ _ _ _ _ _ _ _ _ _].
  refine (not_eq_ahead (" "%char :: o_col u ++ chars " IN ") _ "(" _ _ _ _).
  4:{ unfold Z in Ha. rewrite <- app_comm_cons, <- app_assoc.
      apply Ha; try reflexivity; try discriminate.
      rewrite E1. cbn [list_ascii_of_string app]. rewrite <- app_assoc. reflexivity. }
  - constructor; [reflexivity|]. apply Forall_app. split.
    + now apply wordlike_or_blank.
    + repeat constructor.
  - reflexivity.
  - discriminate.
Qed.

(** **** [strip] and [partition] *)

Lemma lstrip_suffix (l : list ascii) : exists a, l = a ++ lstrip l.
Proof.
  induction l as [|c l (a & IH)]; [now exists []|]. cbn [lstrip].
  destruct (is_space c); [|now exists []].
  exists (c :: a). cbn [app]. now rewrite <- IH.
Qed.

Lemma lstrip_head (l : list ascii) :
  match lstrip l with
  | [] => True
  | c :: _ => is_space c = false
  end.
Proof.
  induction l as [|c l IH]; [exact I|]. cbn [lstrip].
  destruct (is_space c) eqn:E; [exact IH | exact E].
Qed.

Lemma lstrip_solid (l : list ascii) : solid l -> lstrip l = l.
Proof. intros H. destruct H as [|c l Hc _]; [reflexivity|]. cbn [lstrip]. now rewrite Hc. Qed.

Lemma strip_part (s : string) : part_of (chars (strip s)) (chars s).
Proof.
  unfold strip. rewrite chars_text.
  destruct (lstrip_suffix (chars s)) as (a & Ha).
  destruct (lstrip_suffix (rev (lstrip (chars s)))) as (b & Hb).
  exists a, (rev b). rewrite Ha at 1. f_equal.
  rewrite <- (rev_involutive (lstrip (chars s))), Hb at 1.
  now rewrite rev_app_distr.
Qed.

Lemma gapless_tail (c : ascii) (l : list ascii) : gapless (c :: l) -> gapless l.
Proof. intros H x a b z ->. apply (H (c :: x) a b z). reflexivity. Qed.

Lemma gapless_solid (l : list ascii) :
  gapless l -> match l with [] => True | c :: _ => is_space c = false end ->
  solid l.
Proof.
  induction l as [|c l IH]; intros Hg Hc; [constructor|].
  constructor; [exact Hc|]. apply IH; [now apply gapless_tail in Hg|].
  destruct l as [|d l]; [exact I|].
  destruct (is_space d) eqn:E; [|reflexivity].
  exfalso. apply (Hg [] c d l); auto.
Qed.

Lemma gapless_suffix (a l : list ascii) : gapless (a ++ l) -> gapless l.
Proof.
  intros H x c b z ->. apply (H (a ++ x) c b z). now rewrite <- app_assoc.
Qed.

(** A text without a blank after another character is stripped to a
    text without blanks. *)
Lemma strip_solid (l : list ascii) : gapless l -> solid (chars (strip (text l))).
Proof.
  intros H. unfold strip. rewrite !chars_text.
  destruct (lstrip_suffix l) as (a & Ha).
  assert (solid (lstrip l)) as Hs.
  { apply gapless_solid; [|apply lstrip_head].
    apply (gapless_suffix a). now rewrite <- Ha. }
  assert (solid (rev (lstrip l))) as Hr by (now apply Forall_rev).
  rewrite (lstrip_solid _ Hr), rev_involutive. exact Hs.
Qed.

Lemma partition_go_spec (sep : ascii) (s acc : list ascii) :
  let '(_, _, z) := partition_go sep s acc in
  z = [] \/ exists pp, s = pp ++ sep :: z.
Proof.
  revert acc. induction s as [|c s IH]; intros acc; cbn [partition_go]; [now left|].
  destruct (Ascii.eqb_spec c sep) as [->|Hne].
  - right. now exists [].
  - specialize (IH (c :: acc)). destruct (partition_go sep s (c :: acc)) as [[x y] z].
    destruct IH as [->|(pp & ->)]; [now left|]. right. now exists (c :: pp).
Qed.

(** The value taken from a part: what follows an equals sign of the
    part, stripped, or nothing. *)
Lemma value_of_spec (part : string) :
  value_of part = ""
  \/ exists pp z, chars part = pp ++ "="%char :: z /\ value_of part = strip (text z).
Proof.
  unfold value_of, partition.
  pose proof (partition_go_spec "=" (chars part) []) as H.
  destruct (partition_go "=" (chars part) []) as [[x y] z].
  destruct H as [->|(pp & H)]; [now left|]. right. now exists pp, z.
Qed.

Lemma value_part (part : string) : part_of (chars (value_of part)) (chars part).
Proof.
  destruct (value_of_spec part) as [->|(pp & z & E & ->)].
  - exists [], (chars part). reflexivity.
  - apply part_of_trans with z.
    + pose proof (strip_part (text z)) as H. now rewrite chars_text in H.
    + rewrite E. exists (pp ++ ["="%char]), []. now rewrite app_nil_r, <- app_assoc.
Qed.

(** **** The parts of [re.split] *)

Lemma split_go_part (ps : list piece) (cur : list ascii) (part : string) :
  In part (split_go ps cur) ->
  part_of (chars part) (rev cur ++ flat_map piece_text ps).
Proof.
  revert cur. induction ps as [|[c|m] ps IH]; intros cur; cbn [split_go flat_map].
  - intros [<-|[]]. rewrite chars_text, app_nil_r. apply part_of_refl.
  - intros H. apply IH in H. cbn [rev piece_text] in *.
    now rewrite <- app_assoc in H.
  - intros [<-|H].
    + rewrite chars_text. exists [], (piece_text (Hit m) ++ flat_map piece_text ps).
      reflexivity.
    + apply IH in H. cbn [rev app] in H. now do 2 apply part_of_app_l.
Qed.

Lemma split_part (r : regex) (s part : string) :
  In part (split r s) -> part_of (chars part) (chars s).
Proof.
  intros H. apply split_go_part in H. now rewrite pieces_text in H.
Qed.

(** A character a scan keeps starts no match, when the pattern never
    matches the empty text. *)
Lemma scan_keep (r : regex) :
  (forall s rest g, match_at r s = Some (rest, g) -> length rest < length s) ->
  forall fuel s, length s < fuel ->
    forall ps1 c ps2, scan fuel r s = ps1 ++ Keep c :: ps2 ->
      match_at r (c :: flat_map piece_text ps2) = None.
Proof.
  intros Hr. induction fuel as [|fuel IH]; intros s Hlen ps1 c ps2 E; [lia|].
  cbn [scan] in E. destruct (match_at r s) as [[rest g]|] eqn:Em.
  - pose proof (Hr _ _ _ Em) as Hlt. apply Nat.ltb_lt in Hlt as Hb. rewrite Hb in E.
    destruct ps1 as [|p ps1]; [discriminate|]. injection E as _ E.
    apply (IH rest ltac:(lia) _ _ _ E).
  - destruct s as [|c0 s']; [now destruct ps1|].
    destruct ps1 as [|p ps1].
    + injection E as -> <-. rewrite scan_text by (cbn in Hlen; lia). exact Em.
    + injection E as _ E. apply (IH s' ltac:(cbn in Hlen; lia) _ _ _ E).
Qed.

Lemma kept_in_snoc (r : regex) (l post : list ascii) (c : ascii) :
  kept_in r l (c :: post) -> match_at r (c :: post) = None ->
  kept_in r (l ++ [c]) post.
Proof.
  intros Hl Hc l1 d l2 E.
  destruct l2 as [|e l2] using rev_ind.
  - apply app_inj_tail in E as [-> ->]. exact Hc.
  - clear IHl2. rewrite app_comm_cons, app_assoc in E.
    apply app_inj_tail in E as [-> ->]. rewrite <- app_assoc. cbn [app].
    now apply (Hl l1).
Qed.

Lemma split_go_kept (r : regex) (ps : list piece) (cur : list ascii) (part : string) :
  (forall ps1 c ps2, ps = ps1 ++ Keep c :: ps2 ->
     match_at r (c :: flat_map piece_text ps2) = None) ->
  kept_in r (rev cur) (flat_map piece_text ps) ->
  In part (split_go ps cur) ->
  exists pre post,
    rev cur ++ flat_map piece_text ps = pre ++ chars part ++ post
    /\ kept_in r (chars part) post.
Proof.
  revert cur. induction ps as [|[c|m] ps IH]; intros cur Hps Hcur;
    cbn [split_go flat_map piece_text] in *.
  - intros [<-|[]]. exists [], []. rewrite chars_text. split; [reflexivity | exact Hcur].
  - intros H. destruct (IH (c :: cur)) as (pre & post & E & Hk); [| |exact H|].
    + intros ps1 d ps2 ->. apply (Hps (Keep c :: ps1)). reflexivity.
    + cbn [rev]. apply kept_in_snoc; [exact Hcur|]. apply (Hps []). reflexivity.
    + exists pre, post. split; [|exact Hk]. cbn [rev] in E.
      now rewrite <- app_assoc in E.
  - intros [<-|H].
    + exists [], (whole m ++ flat_map piece_text ps). rewrite chars_text.
      split; [reflexivity | exact Hcur].
    + destruct (IH []) as (pre & post & E & Hk); [| |exact H|].
      * intros ps1 d ps2 ->. apply (Hps (Hit m :: ps1)). reflexivity.
      * intros l1 d l2 E. now destruct l1.
      * exists (rev cur ++ whole m ++ pre), post. split; [|exact Hk].
        cbn [rev app] in E. rewrite E, <- !app_assoc. reflexivity.
Qed.

Lemma split_kept (r : regex) (s part : string) :
  (forall s rest g, match_at r s = Some (rest, g) -> length rest < length s) ->
  In part (split r s) ->
  exists pre post,
    chars s = pre ++ chars part ++ post /\ kept_in r (chars part) post.
Proof.
  intros Hr H. unfold split in H.
  destruct (split_go_kept r (pieces r (chars s)) [] part) as (pre & post & E & Hk).
  - intros ps1 c ps2. apply (scan_keep r Hr). lia.
  - intros l1 d l2 E. now destruct l1.
  - exact H.
  - exists pre, post. split; [|exact Hk]. cbn [rev app] in E.
    now rewrite pieces_text in E.
Qed.

Ltac list_eq :=
  rewrite ?app_nil_r; repeat first [rewrite <- app_assoc | progress cbn [app]];
  reflexivity.

(** **** Separators in the text of group 3

    The values of the IN list have no blanks.  A value is what follows
    the first equals sign of a part of [re.split], stripped.  In the
    text of group 3 a blank after another character either starts a
    separator or lies in a disjunct whose separator starts before it,
    with no equals sign in between; a part has no separator in it. *)

Lemma sep_here_iff (l : list ascii) : sep_here l <-> match_at or_separator l <> None.
Proof. symmetry. apply match_at_iff. Qed.

Lemma sep_here_app (l post : list ascii) : sep_here l -> sep_here (l ++ post).
Proof.
  intros (t & rest & g & -> & H). exists t, (rest ++ post), g.
  split; [now rewrite <- app_assoc | exact H].
Qed.

Lemma sep_consumes (s rest : list ascii) (g : groups) :
  match_at or_separator s = Some (rest, g) -> length rest < length s.
Proof.
  intros E. destruct (match_at_sound _ _ _ _ E) as (t & -> & H).
  unfold or_separator in H. split_cat H.
  match goal with M : matches (Plus sp) _ ?b _ |- _ =>
    apply matches_plus_cls in M; destruct M as (_ & Hne & _); destruct b; [contradiction|]
  end.
  rewrite !length_app. cbn. lia.
Qed.

Lemma sep_intro (b o b' post : list ascii) :
  blank b -> b <> [] -> same_ci o (chars "OR") -> blank b' -> b' <> [] ->
  sep_here (b ++ o ++ b' ++ post).
Proof.
  intros Hb Hbne Ho Hb' Hb'ne. exists (b ++ o ++ b' ++ []), post, ∅. split.
  - now rewrite app_nil_r, <- !app_assoc.
  - unfold or_separator. cbn [Cat].
    apply matches_seq with ∅; [now apply plus_cls_intro|].
    apply matches_seq with ∅; [now apply chrs_intro|].
    apply matches_seq with ∅; [now apply plus_cls_intro | constructor].
Qed.

(** A further disjunct starts with a separator. *)
Lemma or_more_sep (g g' : groups) (t post : list ascii) :
  matches or_more g t g' -> sep_here (t ++ post).
Proof.
  intros H.
  destruct (or_more_text _ _ _ H)
    as (b & o & b' & c & b3 & b4 & v & col & -> & [Hb Hbne] & Ho & [Hb' Hb'ne] & _).
  rewrite <- !app_assoc. now apply sep_intro.
Qed.

Lemma guarded_mono (pre x z post : list ascii) (a b : ascii) :
  guarded x a b z -> guarded (pre ++ x) a b (z ++ post).
Proof.
  intros [H|(x0 & y1 & -> & Hy & H)].
  - left. now apply (sep_here_app (b :: z)).
  - right. exists (pre ++ x0), y1. split; [now rewrite app_assoc|].
    split; [exact Hy|].
    apply (sep_here_app _ post) in H. now rewrite <- app_assoc in H.
Qed.

Lemma sep_guard_app (l1 l2 : list ascii) :
  sep_guard l1 -> sep_guard l2 ->
  (forall x a b z, l1 = x ++ [a] -> l2 = b :: z ->
     is_space a = false -> is_space b = true -> guarded x a b z) ->
  sep_guard (l1 ++ l2).
Proof.
  intros H1 H2 Hb x a b z E Ha Hbl.
  destruct (elem_app_split _ _ _ _ _ E) as [(m & -> & Em)|(m & -> & ->)].
  - destruct m as [|b' m]; cbn [app] in Em.
    + apply (Hb x a b z); auto.
    + injection Em as <- ->.
      rewrite <- (app_nil_l x). apply guarded_mono. now apply (H1 x a b m).
  - rewrite <- (app_nil_r z). apply guarded_mono. now apply (H2 m a b z).
Qed.

Lemma sep_guard_solid (l : list ascii) : solid l -> sep_guard l.
Proof.
  intros H x a b z -> _ Hb. apply Forall_app in H as [_ H].
  apply Forall_cons in H as [_ H]. apply Forall_cons in H as [H _]. congruence.
Qed.

Lemma gapless_blank_solid (b v : list ascii) : blank b -> solid v -> gapless (b ++ v).
Proof.
  intros Hb Hv x a c z E Ha Hc.
  destruct (elem_app_split _ _ _ _ _ E) as [(m & -> & _)|(m & -> & ->)].
  - apply Forall_app in Hb as [_ Hb]. apply Forall_cons in Hb as [Hb _]. congruence.
  - apply Forall_app in Hv as [_ Hv]. apply Forall_cons in Hv as [_ Hv].
    apply Forall_cons in Hv as [Hv _]. congruence.
Qed.

(** Inside a further disjunct every blank after another character is
    guarded by the separator the disjunct starts with. *)
Lemma or_more_guard (g g' : groups) (t : list ascii) :
  matches or_more g t g' ->
  (forall col, g !! 1 = Some col -> wordlike col) ->
  sep_guard t.
Proof.
  intros H Hg x a c z E Ha Hc. right. exists [], x. split; [reflexivity|].
  split; [|rewrite <- E; rewrite <- (app_nil_r t); now apply (or_more_sep g g')].
  destruct (or_more_text _ _ _ H)
    as (b & o & b' & c' & b3 & b4 & v & col & -> & [Hb _] & Ho & [Hb' _] & Hcol
        & Hc' & Hb3 & Hb4 & [Hv _] & _).
  assert (Forall (fun e => e <> "="%char) (b ++ o ++ b' ++ c' ++ b3)) as Hpre.
  { assert (wordlike o) by (apply (same_ci_wordlike _ _ Ho), or_word_wordlike).
    assert (wordlike c') by (apply (same_ci_wordlike _ _ Hc'), (Hg _ Hcol)).
    rewrite !Forall_app. repeat split;
      (eapply Forall_impl; [eassumption|]); intros e He;
      first [now apply space_plain in He | now apply wordy_plain in He]. }
  assert ((b ++ o ++ b' ++ c' ++ b3 ++ ["="%char]) ++ b4 ++ v
          = x ++ a :: c :: z) as E'.
  { rewrite <- E, <- !app_assoc. reflexivity. }
  destruct (elem_app_split _ _ _ _ _ E') as [(m & Em & _)|(m & _ & Em)].
  - rewrite !app_assoc in Em.
    destruct m as [|e m] using rev_ind.
    + apply app_inj_tail in Em as [<- _]. now rewrite <- !app_assoc.
    + clear IHm. rewrite app_comm_cons, app_assoc in Em.
      apply app_inj_tail in Em as [Em _]. rewrite <- !app_assoc in Em.
      rewrite Em in Hpre. now apply Forall_app in Hpre as [Hpre _].
  - exfalso. apply (gapless_blank_solid b4 v Hb4 Hv m a c z Em Ha Hc).
Qed.

Lemma more_guard (g g' : groups) (t : list ascii) :
  matches (Star or_more) g t g' ->
  (forall col, g !! 1 = Some col -> wordlike col) ->
  sep_guard t /\ (t = [] \/ forall post, sep_here (t ++ post)).
Proof.
  intros H. remember (Star or_more) as r eqn:Hr.
  induction H as [| | | |r0 g|r0 g t1 g1 t2 g2 H1 _ Hne H2 IH2| |];
    try discriminate; intros Hg.
  - split; [|now left]. intros x a b z E. now destruct x.
  - injection Hr as ->.
    pose proof (matches_groupless _ _ _ _ H1 eq_refl) as ->.
    destruct (IH2 eq_refl Hg) as [IHg IHs]. split.
    + apply sep_guard_app; [now apply (or_more_guard g g) | exact IHg|].
      intros x a b z _ E _ _. left. rewrite <- E.
      destruct IHs as [->|IHs]; [discriminate|].
      rewrite <- (app_nil_r t2). apply IHs.
    + right. intros post. rewrite <- app_assoc. now apply (or_more_sep g g).
Qed.

Lemma values_guard (g g' : groups) (t : list ascii) :
  matches or_values_re g t g' ->
  (forall col, g !! 1 = Some col -> wordlike col) ->
  sep_guard t.
Proof.
  intros H Hg. apply matches_seq_inv in H as (t1 & t2 & g1 & -> & H1 & H2).
  pose proof (matches_groupless _ _ _ _ H1 eq_refl) as ->.
  apply matches_plus_cls in H1 as (Ht1 & _).
  destruct (more_guard _ _ _ H2 Hg) as [IHg IHs].
  apply sep_guard_app; [now apply sep_guard_solid, solid_nsp | exact IHg|].
  intros x a b z _ E _ _. left. rewrite <- E.
  destruct IHs as [->|IHs]; [discriminate|].
  rewrite <- (app_nil_r t2). apply IHs.
Qed.

(** The values taken from the parts of group 3 have no blanks. *)
Lemma value_solid (g g' : groups) (v3 : list ascii) (part : string) :
  matches or_values_re g v3 g' ->
  (forall col, g !! 1 = Some col -> wordlike col) ->
  In part (split or_separator (text v3)) ->
  solid (chars (value_of part)).
Proof.
  intros H Hg Hin.
  destruct (split_kept _ _ _ sep_consumes Hin) as (pre & post & E & Hk).
  rewrite chars_text in E.
  destruct (value_of_spec part) as [->|(pp & val & Ep & ->)]; [constructor|].
  apply strip_solid. intros u1 a b u2 -> Ha Hb.
  assert (v3 = (pre ++ pp ++ "="%char :: u1) ++ a :: b :: u2 ++ post) as E3.
  { rewrite E, Ep. list_eq. }
  destruct (values_guard _ _ _ H Hg _ _ _ _ E3 Ha Hb) as [Hs|(x0 & y1 & Ex & Hy & Hs)].
  - apply sep_here_iff in Hs. apply Hs.
    apply (Hk (pp ++ "="%char :: u1 ++ [a]) b u2).
    rewrite Ep. list_eq.
  - rewrite app_assoc in Ex.
    destruct (elem_app_split _ _ _ _ _ (eq_sym Ex)) as [(m & -> & ->)|(m & _ & ->)].
    2:{ apply Forall_app in Hy as [_ Hy]. apply Forall_cons in Hy as [Hy _].
        now apply Hy. }
    apply sep_here_iff in Hs. apply Hs.
    destruct y1 as [|y y1]; cbn [app].
    + apply (Hk (pp ++ "="%char :: m) a (b :: u2)).
      rewrite Ep. list_eq.
    + assert (match_at or_separator (y :: (y1 ++ a :: b :: u2) ++ post) = None) as Hx.
      { apply (Hk (pp ++ "="%char :: m)).
        rewrite Ep. list_eq. }
      rewrite <- app_assoc in Hx. exact Hx.
Qed.

(** **** Where a character of the replacement lies *)

Lemma join_at (items : list string) (o1 o2 : list ascii) (a : ascii) :
  chars (join ", " items) ++ [")"%char] = o1 ++ a :: o2 ->
  a = " "%char
  \/ exists v2 Y c,
       a :: o2 = v2 ++ c :: Y /\ (c = ","%char \/ c = ")"%char)
       /\ (v2 = [] \/ exists v v1, In v items /\ chars v = v1 ++ v2).
Proof.
  revert o1. induction items as [|x r IH]; intros o1 E.
  - cbn in E. destruct o1 as [|c o1]; [|now destruct o1].
    injection E as <- <-. right. exists [], [], ")"%char. auto.
  - destruct r as [|y r].
    + cbn [join] in E.
      destruct (elem_app_split _ _ _ _ _ E) as [(m & Em & ->)|(m & -> & Em)].
      * right. exists (a :: m), [], ")"%char. repeat split; auto.
        right. exists x, o1. split; [now left | exact Em].
      * destruct m as [|c m]; [|now destruct m].
        injection Em as <- <-. right. exists [], [], ")"%char. auto.
    + change (join ", " (x :: y :: r)) with (x +:+ ", " +:+ join ", " (y :: r)) in E.
      rewrite !chars_app, <- !app_assoc in E.
      destruct (elem_app_split _ _ _ _ _ E) as [(m & Em & ->)|(m & -> & Em)].
      * right. eexists (a :: m), _, ","%char. split; [reflexivity|]. split; [now left|].
        right. exists x, o1. split; [now left | exact Em].
      * destruct m as [|c1 [|c2 m]]; cbn in Em.
        -- injection Em as <- <-. right. eexists [], _, ","%char. auto.
        -- injection Em as _ <- _. now left.
        -- injection Em as _ _ Em.
           destruct (IH _ Em) as [->|(v2 & Y & c & E1 & Hc & Hv)]; [now left|].
           right. exists v2, Y, c. repeat split; auto.
           destruct Hv as [->|(v & v1 & Hin & Hv)]; [now left|].
           right. exists v, v1. split; [now right | exact Hv].
Qed.

Lemma or_out_at (u : or_use) (o1 o2 : list ascii) (a : ascii) :
  wordlike (o_col u) ->
  or_out u = o1 ++ a :: o2 ->
  (a = "W"%char
   /\ o2 = chars "HERE" ++ " "%char :: o_col u ++ chars " IN ("
           ++ chars (join ", " (or_items u)) ++ [")"%char])
  \/ In a (chars "HERE ")
  \/ (exists c2, wordlike (a :: c2)
                 /\ o2 = c2 ++ chars " IN (" ++ chars (join ", " (or_items u))
                         ++ [")"%char])
  \/ In a (chars " IN (")
  \/ (exists j1, chars (join ", " (or_items u)) ++ [")"%char] = j1 ++ a :: o2).
Proof.
  intros Hcol E. unfold or_out in E.
  destruct (elem_app_split _ _ _ _ _ E) as [(m & Em & Eo)|(m & -> & Em)].
  - destruct o1 as [|c o1].
    + injection Em as <- <-. left. split; [reflexivity|]. rewrite Eo. reflexivity.
    + right. left. injection Em as _ Em.
      change (chars "HERE ") with ["H"; "E"; "R"; "E"; " "]%char.
      rewrite Em. apply in_elt.
  - clear E. destruct (elem_app_split _ _ _ _ _ Em) as [(m' & Em' & Eo)|(m' & -> & Em')].
    + right. right. left. exists m'. split; [|exact Eo].
      rewrite Em' in Hcol. now apply Forall_app in Hcol as [_ Hcol].
    + clear Em. destruct (elem_app_split _ _ _ _ _ Em') as [(j & Ej & Eo)|(j & -> & Ej)].
      * right. right. right. left. rewrite Ej. apply in_elt.
      * right. right. right. right. now exists j.
Qed.

(** Two stretches without blanks that end at a blank of the same text
    are the same. *)
Lemma solid_split (u1 u2 z1 z2 : list ascii) (b1 b2 : ascii) :
  u1 ++ b1 :: z1 = u2 ++ b2 :: z2 -> solid u1 -> solid u2 ->
  is_space b1 = true -> is_space b2 = true ->
  u1 = u2 /\ b1 = b2 /\ z1 = z2.
Proof.
  intros E H1. revert u2 E. induction H1 as [|a u1 Ha _ IH]; intros u2 E H2 Hb1 Hb2.
  - destruct H2 as [|c u2 Hc _]; cbn [app] in E.
    + injection E as -> ->. auto.
    + injection E as -> _. congruence.
  - destruct H2 as [|c u2 Hc H2]; cbn [app] in E.
    + injection E as -> _. congruence.
    + injection E as -> E. destruct (IH _ E H2 Hb1 Hb2) as (-> & -> & ->). auto.
Qed.

(** **** The values of the IN list *)

Lemma or_items_solid (u : or_use) (v : string) :
  or_use_ok u -> In v (or_items u) -> solid (chars v).
Proof.
  intros Hok [<-|Hin].
  - rewrite chars_text. apply (ok_v1 _ Hok).
  - apply in_map_iff in Hin as (part & <- & Hin).
    apply (value_solid _ _ _ _ (ok_rest _ Hok)); [|exact Hin].
    intros col Hc. apply or_env_col in Hc as ->. apply (ok_col _ Hok).
Qed.

Lemma or_items_part (u : or_use) (v : string) :
  In v (or_items u) -> part_of (chars v) (or_use_text u).
Proof.
  intros [<-|Hin].
  - rewrite chars_text. unfold or_use_text.
    do 4 apply part_of_app_l. apply (part_of_app_l _ ("="%char :: o_b3 u)).
    eexists [], _. reflexivity.
  - apply in_map_iff in Hin as (part & <- & Hin).
    eapply part_of_trans; [apply value_part|].
    eapply part_of_trans; [apply (split_part _ _ _ Hin)|].
    rewrite chars_text. unfold or_use_text.
    do 4 apply part_of_app_l. apply (part_of_app_l _ ("="%char :: o_b3 u)).
    do 6 apply part_of_app_l. apply (part_of_app_l _ ("="%char :: o_b7 u)).
    apply part_of_refl.
Qed.

(** **** No match of the OR pattern starts inside a replacement *)

Lemma or_head (t : list ascii) (g : groups) :
  matches or_pattern ∅ t g ->
  exists w bb Z,
    t = w ++ bb :: Z /\ same_ci w (chars "WHERE") /\ is_space bb = true
    /\ forall rest, eq_ahead (bb :: Z ++ rest).
Proof.
  intros H. destruct (or_text _ _ H) as (u & -> & Hok & _).
  destruct Hok as [Hw [Hb1 Hb1ne] [Hcol _] Hb2 _ _ _ _ _ _ _ _ _].
  destruct (o_b1 u) as [|bb b1] eqn:Eb; [contradiction|].
  apply Forall_cons in Hb1 as [Hbb Hb1].
  eexists (o_where u), bb, _. split; [|split; [exact Hw|split]].
  - unfold or_use_text. rewrite Eb. reflexivity.
  - exact Hbb.
  - intros rest. apply (eq_ahead_app [bb]); [constructor; [now rewrite Hbb | constructor]|].
    ahead.
Qed.

Lemma where_first (w : list ascii) :
  same_ci w (chars "WHERE") ->
  exists a w', w = a :: w' /\ (a = "W"%char \/ a = "w"%char).
Proof.
  intros H. cbn in H. apply Forall2_cons_inv_r in H as (a & w' & Ha & _ & ->).
  exists a, w'. split; [reflexivity | now apply ieq_w].
Qed.

Lemma where_plain (w : list ascii) :
  same_ci w (chars "WHERE") ->
  Forall (fun a => a <> ","%char /\ a <> ")"%char) w.
Proof.
  intros H. pose proof (same_ci_wordlike _ _ H where_word_wordlike) as Hw.
  eapply Forall_impl; [exact Hw|]. intros a Ha. apply wordy_plain in Ha. tauto.
Qed.

Lemma or_inert (u : or_use) : or_use_ok u -> inert or_pattern (or_out u).
Proof.
  intros Hok o1 a o2 X E.
  destruct (match_at or_pattern (a :: o2 ++ X)) as [x|] eqn:Em; [exfalso|reflexivity].
  assert (match_at or_pattern (a :: o2 ++ X) <> None) as Hm by (rewrite Em; discriminate).
  clear Em x. apply match_at_iff in Hm as (t0 & rest0 & g0 & E0 & H0).
  destruct (or_head _ _ H0) as (w & bb & Z & -> & Hw & Hbb & Hah).
  specialize (Hah rest0).
  destruct (where_first _ Hw) as (a0 & w' & Ew & Ha0).
  destruct (where_solid _ Hw) as [Hws _].
  pose proof (where_plain _ Hw) as Hwp.
  assert (a = a0) as -> by (rewrite Ew in E0; now injection E0).
  rewrite <- app_assoc in E0. cbn [app] in E0.
  pose proof (ok_col _ Hok) as [Hcol _].
  destruct (or_out_at u o1 o2 a0 Hcol E)
    as [[Ha ->]|[Hin|[(c2 & Hc2 & ->)|[Hin|(j1 & Ej)]]]].
  - assert ((a0 :: chars "HERE")
            ++ " "%char :: (o_col u ++ chars " IN ")
                           ++ "("%char :: chars (join ", " (or_items u)) ++ [")"%char] ++ X
            = w ++ bb :: Z ++ rest0) as E1 by (rewrite <- E0; list_eq).
    apply solid_split in E1 as (_ & _ & E1); auto.
    2:{ rewrite Ha. repeat constructor. }
    rewrite <- E1 in Hah.
    refine (not_eq_ahead (bb :: o_col u ++ chars " IN ") _ "(" _ _ _ Hah).
    + constructor; [now rewrite Hbb|]. apply Forall_app. split;
        [now apply wordlike_or_blank | repeat constructor].
    + reflexivity.
    + discriminate.
  - cbn in Hin. destruct Ha0 as [->| ->]; intuition discriminate.
  - assert ((a0 :: c2)
            ++ " "%char :: chars "IN "
                           ++ "("%char :: chars (join ", " (or_items u)) ++ [")"%char] ++ X
            = w ++ bb :: Z ++ rest0) as E1 by (rewrite <- E0; list_eq).
    apply solid_split in E1 as (_ & _ & E1); auto.
    2:{ now apply wordlike_solid. }
    rewrite <- E1 in Hah.
    refine (not_eq_ahead (bb :: chars "IN ") _ "(" _ _ _ Hah).
    + constructor; [now rewrite Hbb | repeat constructor].
    + reflexivity.
    + discriminate.
  - cbn in Hin. destruct Ha0 as [->| ->]; intuition discriminate.
  - destruct (join_at _ _ _ _ Ej) as [->|(v2 & Y & c & Ev & Hc & Hv)].
    { destruct Ha0; discriminate. }
    rewrite app_comm_cons, Ev, <- app_assoc in E0. cbn [app] in E0.
    destruct (prefix_before (fun x => x <> ","%char /\ x <> ")"%char)
                w (bb :: Z ++ rest0) v2 (Y ++ X) c Hwp) as (Y' & ->).
    { destruct Hc as [->| ->]; tauto. }
    { symmetry. exact E0. }
    rewrite <- app_assoc in E0. apply app_inv_head in E0.
    destruct Y' as [|y Y']; cbn [app] in E0.
    + injection E0 as <- _. destruct Hc as [->| ->]; discriminate.
    + injection E0 as <- _.
      destruct Hv as [Hv|(v & v1 & Hin & Hv)].
      { destruct w; [inversion Hw | discriminate]. }
      pose proof (or_items_solid u v Hok Hin) as Hs. rewrite Hv in Hs.
      apply Forall_app in Hs as [_ Hs]. apply Forall_app in Hs as [_ Hs].
      apply Forall_cons in Hs as [Hs _]. congruence.
Qed.

(** **** The result *)

Lemma or_consumes (s rest : list ascii) (g : groups) :
  match_at or_pattern s = Some (rest, g) -> exists t, t <> [] /\ s = t ++ rest.
Proof.
  intros E. destruct (match_at_sound _ _ _ _ E) as (t & -> & Hm).
  exists t. split; [|reflexivity].
  destruct (or_text _ _ Hm) as (u & -> & Hok & _).
  destruct (where_solid _ (ok_where _ Hok)) as [_ Hne].
  unfold or_use_text. destruct (o_where u); [contradiction | discriminate].
Qed.

Lemma or_hit_shape (t rest : list ascii) (g : groups) :
  match_at or_pattern (t ++ rest) = Some (rest, g) ->
  exists u, t = or_use_text u /\ or_use_ok u
            /\ chars (output or_repl (Found t g)) = or_out u.
Proof.
  intros E. destruct (match_at_sound _ _ _ _ E) as (t' & Et & Hm).
  apply app_inv_tail in Et as <-.
  destruct (or_text _ _ Hm) as (u & Hu & Hok & Hg).
  exists u. split; [exact Hu|]. split; [exact Hok | now apply or_output].
Qed.

(** The text the OR rule leaves has no OR chain for the rule. *)
Lemma or_replaced (s : list ascii) :
  search_go or_pattern (rendered or_pattern (output or_repl) s) = None.
Proof.
  apply (rendered_clear or_pattern or_pattern (output or_repl))
    with (n := length s).
  - exact or_consumes.
  - reflexivity.
  - exact or_transfer.
  - lia.
  - auto.
  - intros s1 t rest g _ E.
    destruct (or_hit_shape _ _ _ E) as (u & _ & Hok & ->). now apply or_inert.
Qed.

(** *** Null comparisons after the OR rule

    A null comparison has no [W], comma or closing parenthesis, so in
    the text the OR rule returns it lies in a stretch the rule kept or
    inside one value of an IN list, and a value is a part of the text
    that was matched: the comparison was there before. *)

Lemma null_letters_plain (n : list ascii) :
  same_ci n (chars "NULL") ->
  Forall (fun a => a <> "W"%char /\ a <> ","%char /\ a <> ")"%char) n.
Proof.
  intros H. pose proof (same_ci_wordlike n (chars "NULL") H ltac:(repeat constructor)) as Hw.
  assert (Forall (fun a => ieq a "N" = true \/ ieq a "U" = true \/ ieq a "L" = true) n) as Hl.
  { cbn in H. unfold same_ci in H.
    repeat match goal with
           | H : Forall2 _ _ (_ :: _) |- _ =>
               apply Forall2_cons_inv_r in H; destruct H as (? & ? & ? & H & ->)
           | H : Forall2 _ _ [] |- _ => apply Forall2_nil_inv_r in H; subst
           end.
    repeat (apply List.Forall_cons; [tauto|]). apply List.Forall_nil. }
  eapply Forall_impl; [exact Hl|]. intros a Ha.
  revert Ha. clear. each_char a; intros [H|[H|H]]; discriminate.
Qed.

Lemma null_text_nullish (lead t : list ascii) :
  lead = chars "=" \/ lead = chars "!=" -> null_text lead t -> nullish t.
Proof.
  intros Hl (w & n & -> & Hw & Hn). split.
  - destruct Hl as [->| ->]; cbn [list_ascii_of_string app]; eauto.
  - rewrite !Forall_app. repeat split.
    + destruct Hl as [->| ->]; repeat constructor; discriminate.
    + eapply Forall_impl; [exact Hw|]. intros a Ha. apply space_plain in Ha. tauto.
    + now apply null_letters_plain.
Qed.

Section NullAfterOr.
Variable p : regex.
Hypothesis p_nullish : forall t g, matches p ∅ t g -> nullish t.

Lemma null_transfer (c : ascii) (k : list ascii) (m : found) (X X' : list ascii) :
  matches or_pattern ∅ (whole m) (caps m) ->
  match_at p (c :: k ++ chars (output or_repl m) ++ X) <> None ->
  match_at p (c :: k ++ whole m ++ X') <> None.
Proof.
  intros Hm H. destruct (or_text _ _ Hm) as (u & Hu & Hok & Hcaps).
  rewrite (or_output m u Hcaps) in H.
  apply match_at_iff in H as (t0 & rest0 & g0 & E & H0).
  apply match_at_iff. destruct (p_nullish _ _ H0) as [_ Hp].
  rewrite app_comm_cons in E. unfold or_out in E.
  change (chars "WHERE ") with ("W"%char :: chars "HERE ") in E.
  cbn [app] in E.
  destruct (prefix_before (fun a => a <> "W"%char /\ a <> ","%char /\ a <> ")"%char)
              t0 rest0 (c :: k) _ "W"%char Hp ltac:(tauto) (eq_sym E)) as (Y & EY).
  exists t0, (Y ++ whole m ++ X'), g0. split; [|exact H0].
  now rewrite app_comm_cons, EY, <- app_assoc.
Qed.

Lemma null_inert (u : or_use) (rest : list ascii) :
  or_use_ok u ->
  (forall x1 x2, or_use_text u ++ rest = x1 ++ x2 -> match_at p x2 = None) ->
  inert p (or_out u).
Proof.
  intros Hok Hfree o1 a o2 X E.
  destruct (match_at p (a :: o2 ++ X)) as [x|] eqn:Em; [exfalso|reflexivity].
  assert (match_at p (a :: o2 ++ X) <> None) as Hm by (rewrite Em; discriminate).
  clear Em x. apply match_at_iff in Hm as (t0 & rest0 & g0 & E0 & H0).
  destruct (p_nullish _ _ H0) as [(hd & tl & -> & Hhd) Hp].
  injection E0 as <- E0.
  pose proof (ok_col _ Hok) as [Hcol _].
  destruct (or_out_at u o1 o2 a Hcol E)
    as [[Ha _]|[Hin|[(c2 & Hc2 & _)|[Hin|(j1 & Ej)]]]].
  - destruct Hhd; congruence.
  - cbn in Hin. destruct Hhd as [->| ->]; intuition discriminate.
  - apply Forall_cons in Hc2 as [Ha _]. apply wordy_plain in Ha.
    destruct Hhd; intuition congruence.
  - cbn in Hin. destruct Hhd as [->| ->]; intuition discriminate.
  - destruct (join_at _ _ _ _ Ej) as [->|(v2 & Y & c & Ev & Hc & Hv)].
    { destruct Hhd; discriminate. }
    destruct Hv as [->|(v & v1 & Hin & Hv)].
    { injection Ev as -> _. destruct Hhd as [->| ->], Hc; discriminate. }
    assert ((a :: tl) ++ rest0 = v2 ++ c :: Y ++ X) as E1.
    { cbn [app]. rewrite <- E0, app_comm_cons, Ev. list_eq. }
    destruct (prefix_before (fun a => a <> "W"%char /\ a <> ","%char /\ a <> ")"%char)
                (a :: tl) rest0 v2 _ c Hp ltac:(destruct Hc as [->| ->]; tauto) E1)
      as (Y' & ->).
    destruct (or_items_part u v Hin) as (a1 & b1 & Eu).
    assert (match_at p ((a :: tl) ++ Y' ++ b1 ++ rest) <> None) as Hne.
    { apply match_at_iff. eauto. }
    apply Hne, (Hfree (a1 ++ v1)). rewrite Eu, Hv. list_eq.
Qed.

(** The OR rule makes no null comparison. *)
Lemma null_stays_clear (s : list ascii) :
  match_at p [] = None ->
  search_go p s = None ->
  search_go p (rendered or_pattern (output or_repl) s) = None.
Proof.
  intros Hnil Hs.
  assert (forall s1 s2, s = s1 ++ s2 -> match_at p s2 = None) as Hfree.
  { intros s1 s2 ->. now apply search_none_here, (search_none_suffix _ s1). }
  apply (rendered_clear p or_pattern (output or_repl)) with (n := length s).
  - exact or_consumes.
  - exact Hnil.
  - exact null_transfer.
  - lia.
  - intros s1 s2 E _. now apply (Hfree s1).
  - intros s1 t rest g E Et.
    destruct (or_hit_shape _ _ _ Et) as (u & -> & Hok & ->).
    apply (null_inert u rest Hok). intros x1 x2 Ex. apply (Hfree (s1 ++ x1)).
    now rewrite E, <- app_assoc, <- Ex.
Qed.

End NullAfterOr.

Lemma not_eq_after_or (s : list ascii) :
  search_go pattern_not_eq s = None ->
  search_go pattern_not_eq (rendered or_pattern (output or_repl) s) = None.
Proof.
  apply null_stays_clear; [|reflexivity].
  intros t g H. apply (null_text_nullish (chars "!=")); [now right|].
  now apply not_eq_text in H.
Qed.

Lemma eq_after_or (s : list ascii) :
  search_go pattern_eq s = None ->
  search_go pattern_eq (rendered or_pattern (output or_repl) s) = None.
Proof.
  apply null_stays_clear; [|reflexivity].
  intros t g H. apply (null_text_nullish (chars "=")); [now left|].
  now apply eq_text in H.
Qed.

(** *** The pipeline applied twice *)

(** The text a [sub] rule returns is the rendered scan. *)
Lemma sub_result (r : regex) (repl : found -> Rule string) (c : RewriteChange)
    (sql : string) (st : list RewriteChange) :
  (forall m, matches r ∅ (whole m) (caps m) ->
     forall st, repl m st = Ok (output repl m, st ++ [c])) ->
  sub r repl sql st
  = Ok (text (rendered r (output repl) (chars sql)),
        st ++ repeat c (hits (pieces r (chars sql)))).
Proof.
  intros Hrepl. unfold sub, rendered. rewrite <- iter_append. apply subst_ok.
  eapply Forall_impl; [apply pieces_sound|]. intros [a|m] Hm; [exact I|].
  apply (Hrepl m Hm).
Qed.

Lemma null_rule_no_match (sql : string) (st : list RewriteChange) :
  found_in pattern_not_eq sql = false -> found_in pattern_eq sql = false ->
  _rewrite_null_comparisons sql st = Ok (sql, st).
Proof.
  intros H1 H2. unfold _rewrite_null_comparisons. rewrite H1.
  unfold mbind, M_bind, mret, M_ret. rewrite H2. reflexivity.
Qed.

Lemma found_in_none (r : regex) (s : list ascii) :
  search_go r s = None -> found_in r (text s) = false.
Proof. intros H. now rewrite found_in_text, H. Qed.

(** *** The OR pattern after the YEAR rule

    The text that replaces a YEAR comparison, [col >= '...' AND col <
    '...'], has a blank after each copy of the column, and what follows
    that blank has no equals sign ahead: a match of the OR pattern
    cannot hold it. *)

Lemma year_shape (t : list ascii) (g : groups) :
  matches year_pattern ∅ t g ->
  exists yr tl col D1 D2,
    t = yr ++ tl /\ same_ci yr (chars "YEAR")
    /\ wordlike col /\ col <> []
    /\ Forall (fun a => is_digit a = true) D1
    /\ Forall (fun a => is_digit a = true) D2
    /\ chars (output year_repl (Found t g))
       = col ++ chars " >= '" ++ D1 ++ chars "-01-01' AND "
         ++ col ++ chars " < '" ++ D2 ++ chars "-01-01'".
Proof.
  intros H.
  destruct (year_hit _ _ H)
    as (col & d1 & d2 & d3 & d4 & H1 & H2 & Hcol & Hd & _).
  destruct (int_digits [d1; d2; d3; d4] Hd ltac:(discriminate)) as (y & Hy & Hpos).
  assert (col <> [] /\ exists yr tl, t = yr ++ tl /\ same_ci yr (chars "YEAR"))
    as [Hne (yr & tl & Et & Hyr)].
  { clear Hy. unfold year_pattern in H. split_cat H. read_chars. same_groups.
    read_groups. same_groups.
    match goal with
    | M : matches (Plus wd) _ ?c _ |- _ =>
        apply matches_plus_cls in M as (_ & Hc & _);
        rewrite lookup_insert_ne, lookup_insert_eq in H1 by discriminate;
        injection H1 as <-
    end.
    split; [assumption|].
    match goal with
    | M : matches (Word "YEAR") _ ?w _ |- _ =>
        apply matches_chrs_inv in M; eexists w, _; split; [reflexivity | exact M]
    end. }
  exists yr, tl, col, (chars (format_04d y)), (chars (format_04d (y + 1))).
  split; [exact Et|]. split; [exact Hyr|]. split; [exact Hcol|].
  split; [exact Hne|].
  split; [now apply format_04d_digits|].
  split; [apply format_04d_digits; lia|].
  unfold output, year_repl, group. cbn [caps]. rewrite H1, H2.
  cbn [fmap option_fmap option_map]. unfold mbind, M_bind, lift. rewrite Hy.
  cbn [fmt default append mret M_ret].
  unfold id. rewrite !chars_app, !chars_text. cbn [list_ascii_of_string]. list_eq.
Qed.

Lemma year_word_solid (yr : list ascii) :
  same_ci yr (chars "YEAR") -> solid yr /\ yr <> [].
Proof.
  intros H. split.
  - apply wordlike_solid, (same_ci_wordlike _ _ H). repeat constructor.
  - intros ->. inversion H.
Qed.

Lemma last_char (col : list ascii) :
  col <> [] -> exists col0 a, col = col0 ++ [a].
Proof.
  intros H. destruct (exists_last H) as (col0 & a & ->). now exists col0, a.
Qed.

(** A match of the OR pattern does not hold the blank after a column
    that is followed by [>] or [<]. *)
Lemma no_gap_after_column (t0 rest0 x col l' Z : list ascii) (s : ascii) :
  (forall prev, gaps_ok prev t0 rest0) ->
  wordlike col -> col <> [] ->
  t0 = x ++ col ++ " "%char :: l' -> l' ++ rest0 = s :: Z ->
  is_space s || wordy s = false -> s <> "="%char -> False.
Proof.
  intros Hg Hcol Hne Et El Hs Hseq.
  destruct (last_char col Hne) as (col0 & a & ->).
  apply Forall_app in Hcol as [_ Ha]. apply Forall_cons in Ha as [Ha _].
  apply wordy_plain in Ha as (Ha1 & Ha2 & _).
  pose proof (gaps_at t0 rest0 (x ++ col0) l' a " " Hg) as Hah.
  rewrite El in Hah.
  refine (not_eq_ahead [" "%char] Z s _ Hs Hseq _).
  - repeat constructor.
  - apply Hah; [|exact Ha1 | exact Ha2 | reflexivity].
    rewrite Et. list_eq.
Qed.

Lemma year_or_transfer (c : ascii) (k : list ascii) (m : found) (X X' : list ascii) :
  matches year_pattern ∅ (whole m) (caps m) ->
  match_at or_pattern (c :: k ++ chars (output year_repl m) ++ X) <> None ->
  match_at or_pattern (c :: k ++ whole m ++ X') <> None.
Proof.
  intros Hm H. destruct m as [t g]. cbn [whole caps] in *.
  destruct (year_shape _ _ Hm) as (yr & tl & col & D1 & D2 & -> & Hyr & Hcol & Hne
                                   & _ & _ & Eout).
  rewrite Eout in H. clear Eout.
  apply match_at_iff in H as (t0 & rest0 & g0 & E & H0).
  apply match_at_iff.
  rewrite app_comm_cons in E. symmetry in E.
  apply app_eq_app in E as (l & [[E1 E2]|[E1 E2]]).
  2:{ exists t0, (l ++ (yr ++ tl) ++ X'), g0. split; [|exact H0].
      now rewrite app_comm_cons, E1, <- app_assoc. }
  destruct (year_word_solid _ Hyr) as [Hys Hyne].
  rewrite <- !app_assoc in E2. cbn [list_ascii_of_string app] in E2.
  symmetry in E2.
  destruct (elem_app_split _ _ _ _ _ E2) as [(l' & -> & EZ)|(l' & Hl & _)].
  - exfalso.
    destruct (or_text _ _ H0) as (u0 & Hu0 & Hok0 & _).
    pose proof (or_gaps u0 Hok0 rest0) as Hg. rewrite <- Hu0 in Hg.
    refine (no_gap_after_column t0 rest0 (c :: k) col l' _ ">" Hg Hcol Hne E1
              (eq_sym EZ) _ _); [reflexivity | discriminate].
  - assert (Forall (fun a => is_space a = false /\ a <> "="%char) l) as Hl0.
    { rewrite Hl in Hcol. apply Forall_app in Hcol as [Hcol _].
      eapply Forall_impl; [exact Hcol|]. intros a Ha. apply wordy_plain in Ha. tauto. }
    rewrite E1 in H0.
    destruct (or_tail _ _ _ H0 Hl0 yr Hys Hyne) as (g' & Hg').
    eexists _, _, g'. split; [|exact Hg'].
    rewrite <- !app_assoc. reflexivity.
Qed.

Lemma digit_not_w (a : ascii) :
  is_digit a = true -> a <> "W"%char /\ a <> "w"%char.
Proof. each_char a. Qed.

Lemma digits_not_w (D : list ascii) :
  Forall (fun a => is_digit a = true) D ->
  Forall (fun a => a <> "W"%char /\ a <> "w"%char) D.
Proof. intros H. eapply Forall_impl; [exact H|]. apply digit_not_w. Qed.

(** A match of the OR pattern that starts inside a column is stopped by
    the blank after the column. *)
Lemma no_match_in_column (m0 Z X t0 rest0 : list ascii) (g0 : groups)
    (a s : ascii) :
  solid (a :: m0) -> matches or_pattern ∅ t0 g0 ->
  (a :: m0) ++ " "%char :: s :: Z ++ X = t0 ++ rest0 ->
  is_space s || wordy s = false -> s <> "="%char -> False.
Proof.
  intros Hs H0 E Hsp Hseq.
  destruct (or_head _ _ H0) as (w & bb & Z0 & -> & Hw & Hbb & Hah).
  specialize (Hah rest0).
  destruct (where_solid _ Hw) as [Hws _].
  rewrite <- app_assoc in E. cbn [app] in E.
  apply (solid_split (a :: m0) w _ _ " "%char bb) in E as (_ & <- & E); auto.
  rewrite <- E in Hah.
  refine (not_eq_ahead [" "%char] _ s _ Hsp Hseq Hah). repeat constructor.
Qed.

Lemma year_or_inert (t : list ascii) (g : groups) :
  matches year_pattern ∅ t g ->
  inert or_pattern (chars (output year_repl (Found t g))).
Proof.
  intros Hm o1 a o2 X E.
  destruct (year_shape _ _ Hm) as (yr & tl & col & D1 & D2 & _ & _ & Hcol & _
                                   & HD1 & HD2 & Eout).
  rewrite Eout in E. clear Eout.
  destruct (match_at or_pattern (a :: o2 ++ X)) as [x|] eqn:Em; [exfalso|reflexivity].
  assert (match_at or_pattern (a :: o2 ++ X) <> None) as Hmatch
      by (rewrite Em; discriminate).
  clear Em x. apply match_at_iff in Hmatch as (t0 & rest0 & g0 & E0 & H0).
  assert (a = "W"%char \/ a = "w"%char) as Ha.
  { destruct (or_head _ _ H0) as (w & bb & Z0 & Et0 & Hw & _).
    destruct (where_first _ Hw) as (a0 & w' & Ew & Ha0).
    rewrite Et0, Ew in E0. cbn [app] in E0. injection E0 as E0 _.
    rewrite E0. exact Ha0. }
  pose proof (wordlike_solid _ Hcol) as Hsolid.
  assert (Forall (fun a => a <> "W"%char /\ a <> "w"%char)
            (chars " >= '" ++ D1 ++ chars "-01-01' AND ")) as Hnw1.
  { apply Forall_app. split; [repeat constructor; discriminate|].
    apply Forall_app. split; [now apply digits_not_w|].
    repeat constructor; discriminate. }
  assert (Forall (fun a => a <> "W"%char /\ a <> "w"%char)
            (chars " < '" ++ D2 ++ chars "-01-01'")) as Hnw2.
  { apply Forall_app. split; [repeat constructor; discriminate|].
    apply Forall_app. split; [now apply digits_not_w|].
    repeat constructor; discriminate. }
  assert (col ++ (chars " >= '" ++ D1 ++ chars "-01-01' AND ")
          ++ col ++ (chars " < '" ++ D2 ++ chars "-01-01'") = o1 ++ a :: o2) as E'.
  { rewrite <- E. list_eq. }
  clear E.
  set (S1 := chars " >= '" ++ D1 ++ chars "-01-01' AND ") in *.
  set (S2 := chars " < '" ++ D2 ++ chars "-01-01'") in *.
  destruct (elem_app_split _ _ _ _ _ E') as [(m1 & Ec & Eo)|(m1 & Eo & E1)].
  { rewrite Ec in Hsolid. apply Forall_app in Hsolid as [_ Hsolid].
    refine (no_match_in_column m1
              (chars "= '" ++ D1 ++ chars "-01-01' AND " ++ col ++ S2)
              X t0 rest0 g0 a ">" Hsolid H0 _ _ _);
      [|reflexivity | discriminate].
    rewrite <- E0, Eo. unfold S1. cbn [list_ascii_of_string]. list_eq. }
  destruct (elem_app_split _ _ _ _ _ E1) as [(m2 & Es & Eo2)|(m2 & Em2 & E2)].
  { rewrite Es in Hnw1. apply Forall_app in Hnw1 as [_ Hnw].
    apply Forall_cons in Hnw as [[H1 H2] _]. destruct Ha; contradiction. }
  destruct (elem_app_split _ _ _ _ _ E2) as [(m3 & Ec & Eo3)|(m3 & Em3 & E3)].
  { rewrite Ec in Hsolid. apply Forall_app in Hsolid as [_ Hsolid].
    refine (no_match_in_column m3 (chars " '" ++ D2 ++ chars "-01-01'")
              X t0 rest0 g0 a "<" Hsolid H0 _ _ _);
      [|reflexivity | discriminate].
    rewrite <- E0, Eo3. unfold S2. cbn [list_ascii_of_string]. list_eq. }
  rewrite E3 in Hnw2. apply Forall_app in Hnw2 as [_ Hnw].
  apply Forall_cons in Hnw as [[H1 H2] _]. destruct Ha; contradiction.
Qed.

Lemma year_consumes (s rest : list ascii) (g : groups) :
  match_at year_pattern s = Some (rest, g) -> exists t, t <> [] /\ s = t ++ rest.
Proof.
  intros E. destruct (match_at_sound _ _ _ _ E) as (t & -> & Hm).
  exists t. split; [|reflexivity].
  destruct (year_shape _ _ Hm) as (yr & tl & _ & _ & _ & -> & Hyr & _).
  destruct (year_word_solid _ Hyr) as [_ Hne].
  destruct yr; [contradiction | discriminate].
Qed.

(** The YEAR rule makes no OR chain: a text without a match of the OR
    pattern has none after the YEAR rule. *)
Lemma or_after_year (s : list ascii) :
  search_go or_pattern s = None ->
  search_go or_pattern (rendered year_pattern (output year_repl) s) = None.
Proof.
  intros Hs.
  apply (rendered_clear or_pattern year_pattern (output year_repl))
    with (n := length s).
  - exact year_consumes.
  - reflexivity.
  - exact year_or_transfer.
  - lia.
  - intros s1 s2 -> _. now apply search_none_suffix, search_none_here in Hs.
  - intros s1 t rest g _ E.
    destruct (match_at_sound _ _ _ _ E) as (t' & Et & Hm).
    apply app_inv_tail in Et as <-. now apply year_or_inert.
Qed.

(** A match of [!=\s*NULL] holds a match of [=\s*NULL]. *)
Lemma not_eq_needs_eq (s : list ascii) :
  search_go pattern_eq s = None -> search_go pattern_not_eq s = None.
Proof.
  intros H. apply search_none_iff. intros a t b g -> Hm.
  unfold pattern_not_eq in Hm.
  apply matches_cat_inv in Hm as (t1 & t2 & g1 & -> & H1 & H2).
  apply (proj1 (search_none_iff _ _) H (a ++ t1) t2 b g).
  - list_eq.
  - apply matches_chr_inv in H1 as (c & _ & _ & ->). exact H2.
Qed.

Lemma found_in_search (r : regex) (s : string) :
  found_in r s = false <-> search_go r (chars s) = None.
Proof.
  unfold found_in, search. destruct (search_go r (chars s)); split; congruence.
Qed.

(** When [=\s*NULL] is found, rule 1 records a change. *)
Lemma null_rule_grows (sql : string) (st : list RewriteChange) :
  found_in pattern_eq sql = true ->
  exists s' c d, _rewrite_null_comparisons sql st = Ok (s', st ++ c :: d).
Proof.
  intros He. unfold _rewrite_null_comparisons, mbind, M_bind, mret, M_ret, append.
  destruct (found_in pattern_not_eq sql).
  - destruct (found_in pattern_eq (sub_const pattern_not_eq "IS NOT NULL" sql)).
    + exists (sub_const pattern_eq "IS NULL"
                (sub_const pattern_not_eq "IS NOT NULL" sql)),
        not_null_change, [is_null_change].
      now rewrite <- app_assoc.
    + now exists (sub_const pattern_not_eq "IS NOT NULL" sql), not_null_change, [].
  - rewrite He. now exists (sub_const pattern_eq "IS NULL" sql), is_null_change, [].
Qed.

(** A call on a text in which the OR pattern matches nowhere: it returns
    the text with an empty change list exactly when neither [=\s*NULL]
    nor the YEAR pattern matches in the text. *)
Lemma quiet_call (out tier : string) :
  found_in or_pattern out = false ->
  rewrite_query out tier
  = Ok {| original_sql := out; rewritten_sql := out; mode := lower tier;
          changes := [] |}
  <-> found_in pattern_eq out = false /\ found_in year_pattern out = false.
Proof.
  intros Hor. split.
  - intros H. destruct (found_in pattern_eq out) eqn:He.
    + exfalso. destruct (null_rule_grows out [] He) as (s' & c & d & E1).
      destruct (sub_changes or_pattern or_repl or_change s' ([] ++ c :: d)
                  (fun m Hm => proj1 (or_repl_ok m Hm))) as (s2 & n2 & E2 & _).
      destruct (sub_changes year_pattern year_repl year_change s2
                  (([] ++ c :: d) ++ repeat or_change n2)
                  (fun m Hm => proj1 (year_repl_ok m Hm))) as (s3 & n3 & E3 & _).
      revert H. unfold rewrite_query, _rewrite_or_to_in,
        _rewrite_year_function_on_column, mbind, M_bind.
      rewrite E1, E2, E3. destruct (bool_decide _); cbn; discriminate.
    + split; [reflexivity|].
      assert (found_in pattern_not_eq out = false) as Hne
          by now apply found_in_search, not_eq_needs_eq, found_in_search.
      destruct (sub_changes year_pattern year_repl year_change out []
                  (fun m Hm => proj1 (year_repl_ok m Hm))) as (s3 & n3 & E3 & H3).
      revert H. unfold rewrite_query, _rewrite_or_to_in,
        _rewrite_year_function_on_column, mbind, M_bind.
      rewrite (null_rule_no_match _ _ Hne He), (sub_no_match _ _ _ _ Hor), E3.
      destruct n3 as [|n3]; [intros _; now apply H3|].
      destruct (bool_decide _); cbn; discriminate.
  - intros [He Hy].
    assert (found_in pattern_not_eq out = false) as Hne
        by now apply found_in_search, not_eq_needs_eq, found_in_search.
    unfold rewrite_query, _rewrite_or_to_in, _rewrite_year_function_on_column,
      mbind, M_bind.
    rewrite (null_rule_no_match _ _ Hne He), (sub_no_match _ _ _ _ Hor),
      (sub_no_match _ _ _ _ Hy).
    destruct (bool_decide _); reflexivity.
Qed.

(** C9 does not hold as the specification states it: the YEAR rule can
    leave a comparison with NULL behind, which rule 1 rewrites in the
    next call. *)
Lemma second_call_rewrites_again :
  rewrite_query "x = YEAR(NULL) = 2024" "safe"
  = Ok {| original_sql := "x = YEAR(NULL) = 2024";
          rewritten_sql := "x = NULL >= '2024-01-01' AND NULL < '2025-01-01'";
          mode := "safe"; changes := [year_change] |}
  /\ rewrite_query "x = NULL >= '2024-01-01' AND NULL < '2025-01-01'" "safe"
     = Ok {| original_sql := "x = NULL >= '2024-01-01' AND NULL < '2025-01-01'";
             rewritten_sql := "x IS NULL >= '2024-01-01' AND NULL < '2025-01-01'";
             mode := "safe"; changes := [is_null_change] |}.
Proof. split; vm_compute; reflexivity. Qed.

(** The second example: the range the YEAR rule writes joins the digits
    before it to a new YEAR comparison. *)
Lemma year_feeds_year :
  rewrite_query "YEAR(a) = 20YEAR(24x) = 2024" "safe"
  = Ok {| original_sql := "YEAR(a) = 20YEAR(24x) = 2024";
          rewritten_sql := "YEAR(a) = 2024x >= '2024-01-01' AND 24x < '2025-01-01'";
          mode := "safe"; changes := [year_change] |}
  /\ rewrite_query "YEAR(a) = 2024x >= '2024-01-01' AND 24x < '2025-01-01'" "safe"
     = Ok {| original_sql :=
               "YEAR(a) = 2024x >= '2024-01-01' AND 24x < '2025-01-01'";
             rewritten_sql :=
               "a >= '2024-01-01' AND a < '2025-01-01'x >= '2024-01-01' AND 24x < '2025-01-01'";
             mode := "safe"; changes := [year_change] |}.
Proof. split; vm_compute; reflexivity. Qed.

(** C9, as the code has it: a second call of [rewrite_query] on the
    output of a first call returns that output unchanged, with an empty
    change list, exactly when the output holds no match of [=\s*NULL]
    and no match of the YEAR pattern.  The OR rule never finds a match
    in an output, and a match of [!=\s*NULL] holds one of [=\s*NULL].
    An output of a call that recorded no change of the YEAR rule holds
    neither: what rule 1 and the OR rule produce has nothing left for
    any of the three rules.  Only the range the YEAR rule writes can
    join its surroundings to a comparison with NULL or to a YEAR
    comparison. *)
Theorem rewrite_twice (sql tier : string) (r : RewriteResult) :
  rewrite_query sql tier = Ok r ->
  (rewrite_query (rewritten_sql r) tier
   = Ok {| original_sql := rewritten_sql r;
           rewritten_sql := rewritten_sql r;
           mode := mode r; changes := [] |}
   <-> found_in pattern_eq (rewritten_sql r) = false
       /\ found_in year_pattern (rewritten_sql r) = false)
  /\ found_in or_pattern (rewritten_sql r) = false
  /\ (~ In year_change (changes r) ->
      rewrite_query (rewritten_sql r) tier
      = Ok {| original_sql := rewritten_sql r;
              rewritten_sql := rewritten_sql r;
              mode := mode r; changes := [] |}).
Proof.
  intros Hr.
  destruct (null_rule_result sql []) as (d1 & E1 & _). cbn [app] in E1.
  set (s1 := null_normal (chars sql)) in *.
  pose proof (sub_result or_pattern or_repl or_change (text s1) d1
                (fun m Hm => proj1 (or_repl_ok m Hm))) as E2.
  rewrite chars_text in E2.
  set (s2 := rendered or_pattern (output or_repl) s1) in *.
  pose proof (sub_result year_pattern year_repl year_change (text s2)
                (d1 ++ repeat or_change (hits (pieces or_pattern s1)))
                (fun m Hm => proj1 (year_repl_ok m Hm))) as E3.
  rewrite chars_text in E3.
  set (s3 := rendered year_pattern (output year_repl) s2) in *.
  assert (r = {| original_sql := sql; rewritten_sql := text s3; mode := lower tier;
                 changes := (d1 ++ repeat or_change (hits (pieces or_pattern s1)))
                            ++ repeat year_change (hits (pieces year_pattern s2)) |})
    as ->.
  { revert Hr. unfold rewrite_query, _rewrite_or_to_in,
      _rewrite_year_function_on_column, mbind, M_bind.
    rewrite E1, E2, E3. destruct (bool_decide _); cbn; congruence. }
  cbn [changes rewritten_sql mode].
  assert (found_in or_pattern (text s3) = false) as Hor
      by apply found_in_none, or_after_year, or_replaced.
  split; [now apply quiet_call|]. split; [exact Hor|].
  intros Hno. apply quiet_call; [exact Hor|].
  assert (hits (pieces year_pattern s2) = 0) as Hn3.
  { destruct (hits (pieces year_pattern s2)) as [|n3]; [reflexivity|].
    exfalso. apply Hno. apply in_or_app. right. now left. }
  assert (s3 = s2) as ->.
  { unfold s3, rendered. rewrite hits_none_render by exact Hn3.
    apply pieces_text. }
  destruct (null_normal_clear (chars sql)) as [N1 N2]. fold s1 in N1, N2.
  split.
  - now apply found_in_none, eq_after_or.
  - now apply found_in_none, hits_zero_search.
Qed.

Lemma rewrite_twice_witness :
  rewrite_query
    "SELECT * FROM orders WHERE created_at >= '2024-01-01' AND created_at < '2025-01-01'"
    "safe"
  = Ok {| original_sql :=
            "SELECT * FROM orders WHERE created_at >= '2024-01-01' AND created_at < '2025-01-01'";
          rewritten_sql :=
            "SELECT * FROM orders WHERE created_at >= '2024-01-01' AND created_at < '2025-01-01'";
          mode := "safe"; changes := [] |}.
Proof.
  refine (proj2 (proj1 (rewrite_twice
            "SELECT * FROM orders WHERE YEAR(created_at) = 2024"
            "safe"
            {| original_sql :=
                 "SELECT * FROM orders WHERE YEAR(created_at) = 2024";
               rewritten_sql :=
                 "SELECT * FROM orders WHERE created_at >= '2024-01-01' AND created_at < '2025-01-01'";
               mode := "safe"; changes := [year_change] |} _)) _).
  - vm_compute. reflexivity.
  - split; vm_compute; reflexivity.
Defined.

(** C1: [rewrite_query] returns a result for every SQL text and tier, and
    when no pattern of the rules matches the text the result carries the
    text unchanged and an empty change list. *)
Theorem rewrite_never_raises (sql tier : string) :
  (exists r, rewrite_query sql tier = Ok r)
  /\ (no_rule_matches sql ->
      rewrite_query sql tier
      = Ok {| original_sql := sql; rewritten_sql := sql;
              mode := lower tier; changes := [] |}).
Proof.
  split.
  - destruct (pipeline sql tier) as (sql' & d & E & _). eauto.
  - intros (H1 & H2 & H3 & H4). unfold rewrite_query, _rewrite_null_comparisons,
      _rewrite_or_to_in, _rewrite_year_function_on_column.
    rewrite H1. unfold mbind, M_bind, mret, M_ret. rewrite H2.
    rewrite (sub_no_match _ _ _ _ H3), (sub_no_match _ _ _ _ H4).
    destruct (bool_decide _); reflexivity.
Qed.

Lemma rewrite_never_raises_witness :
  (exists r, rewrite_query "SELECT id FROM users" "safe" = Ok r)
  /\ (no_rule_matches "SELECT id FROM users" ->
      rewrite_query "SELECT id FROM users" "safe"
      = Ok {| original_sql := "SELECT id FROM users";
              rewritten_sql := "SELECT id FROM users";
              mode := lower "safe"; changes := [] |}).
Proof. exact (rewrite_never_raises "SELECT id FROM users" "safe"). Defined.

(** C2 does not hold as the specification states it: a tier that is none
    of the three tokens is not rejected; the call returns and records
    it. *)
Lemma unknown_tier_is_accepted :
  ~ In (lower "bogus") tiers
  /\ rewrite_query "SELECT 1" "bogus"
     = Ok {| original_sql := "SELECT 1"; rewritten_sql := "SELECT 1";
             mode := "bogus"; changes := [] |}.
Proof.
  split; [|vm_compute; reflexivity].
  vm_compute. intros [H|[H|[H|[]]]]; discriminate.
Qed.

(** C2, as the code has it: [rewrite_query] checks no tier.  Every tier
    string is accepted and recorded lowercased in [mode], so a tier token
    in any letter case is recorded as the token; the tier changes nothing
    else in the result. *)
Theorem tier_is_only_recorded (sql tier : string) :
  exists r r0,
    rewrite_query sql tier = Ok r
    /\ rewrite_query sql "safe" = Ok r0
    /\ mode r = lower tier
    /\ (forall t, In t tiers -> lower tier = t -> mode r = t)
    /\ original_sql r = original_sql r0
    /\ rewritten_sql r = rewritten_sql r0
    /\ changes r = changes r0.
Proof.
  destruct (pipeline sql tier) as (s1 & d1 & E1 & _).
  destruct (pipeline sql "safe") as (s2 & d2 & E2 & _).
  eexists _, _. split; [exact E1|]. split; [exact E2|]. cbn.
  assert (s1 = s2 /\ d1 = d2) as [-> ->].
  { revert E1 E2. unfold rewrite_query, mbind, M_bind.
    destruct (_rewrite_null_comparisons sql []) as [[a sa]|]; [|discriminate].
    destruct (_rewrite_or_to_in a sa) as [[b sb]|]; [|discriminate].
    destruct (_rewrite_year_function_on_column b sb) as [[c sc]|]; [|discriminate].
    do 2 destruct (bool_decide _); cbn; intros; split; congruence. }
  repeat split; congruence.
Qed.

Lemma tier_is_only_recorded_witness :
  exists r r0,
    rewrite_query "SELECT 1" "Moderate" = Ok r
    /\ rewrite_query "SELECT 1" "safe" = Ok r0
    /\ mode r = lower "Moderate"
    /\ (forall t, In t tiers -> lower "Moderate" = t -> mode r = t)
    /\ original_sql r = original_sql r0
    /\ rewritten_sql r = rewritten_sql r0
    /\ changes r = changes r0.
Proof. exact (tier_is_only_recorded "SELECT 1" "Moderate"). Defined.

(** C7: on the chain of the specification the OR rule keeps the first and
    the third value and loses the second: the first part of the text of
    group 3 is a bare value, without an equals sign, and [partition]
    leaves nothing after the separator it did not find. *)
Theorem or_chain_loses_second_value :
  rewrite_query
    "SELECT * FROM t WHERE status = 'a' OR status = 'b' OR status = 'c'" "safe"
  = Ok {| original_sql :=
            "SELECT * FROM t WHERE status = 'a' OR status = 'b' OR status = 'c'";
          rewritten_sql := "SELECT * FROM t WHERE status IN ('a', , 'c')";
          mode := "safe";
          changes := [or_change] |}.
Proof. vm_compute. reflexivity. Qed.

(** C10: the change list of a result is non-empty exactly when the
    rewritten text differs from the original. *)
Theorem changes_iff_rewritten (sql tier : string) :
  exists r,
    rewrite_query sql tier = Ok r
    /\ original_sql r = sql
    /\ (changes r <> [] <-> rewritten_sql r <> original_sql r).
Proof.
  destruct (pipeline sql tier) as (sql' & d & E & Hnil & Hcons).
  eexists. split; [exact E|]. cbn. split; [reflexivity|]. split.
  - exact Hcons.
  - intros Hne ->. now apply Hne, Hnil.
Qed.

End RewriterFacts.

(** ** The schema-aware rewrite *)

Module SchemaFacts.
Import Py Counting Re ReSem PyFacts ReFacts Rewriter RewriteSpec RewriterFacts.
Import Connection Schema SchemaSpec.

Lemma ident_is_word (a : ascii) :
  ident_char a = true -> is_word a = true /\ is_space a = false.
Proof. each_char a. Qed.

(** What the class accepts with [re.IGNORECASE] is a word character, and
    it accepts the characters of the plain class. *)
Lemma ident_ci_is_word (a : ascii) :
  ident_char_ci a = true -> is_word a = true /\ is_space a = false.
Proof. each_char a. Qed.

Lemma ident_ci_of_ident (a : ascii) :
  ident_char a = true -> ident_char_ci a = true.
Proof. each_char a. Qed.

(** On the code points of Latin-1 the two classes are the same. *)
Lemma ident_char_ci_latin1 (a : ascii) : ident_char_ci a = ident_char a.
Proof. each_char a. Qed.

Lemma identifier_word_name (t : list ascii) : identifier t -> word_name t.
Proof.
  intros [Hne Ht]. split; [exact Hne|].
  eapply Forall_impl; [exact Ht|]. intros a Ha. now apply ident_is_word in Ha.
Qed.

Lemma ieq_star (a : ascii) : ieq a "*" = true -> a = "*"%char.
Proof. each_char a. Qed.

Lemma boundary_stops (rest : list ascii) :
  at_boundary rest = true -> stops ident_char_ci rest.
Proof.
  destruct rest as [|c rest]; [reflexivity|]. cbn [at_boundary stops]. intros H.
  apply negb_true_iff in H. destruct (ident_char_ci c) eqn:E; [|reflexivity].
  apply ident_ci_is_word in E as [E _]. congruence.
Qed.

Lemma word_head_stops (w : list ascii) (cs s : list ascii) :
  same_ci w cs -> cs <> [] -> wordlike cs -> stops is_space (w ++ s).
Proof.
  intros H Hne Hcs. destruct H as [|a c w cs Hac H]; [contradiction|].
  cbn [app stops]. apply Forall_cons in Hcs as [Hc _].
  apply (ieq_wordy a c Hac) in Hc. now apply wordy_plain in Hc.
Qed.

(** A statement of the shape the pattern asks for is matched, with the
    table name in group 1 and the rest of the text in group 2. *)
Lemma select_star_found (lead table tail : list ascii) :
  select_star_lead lead -> identifier table -> at_boundary tail = true ->
  select_star_match (lead ++ table ++ tail)
  = Some (Found (lead ++ table ++ tail) (<[2 := tail]> (<[1 := table]> ∅))).
Proof.
  intros (b0 & sel & b1 & b2 & frm & b3 & -> & H0 & Hsel & [H1 N1] & [H2 N2]
          & Hfrm & [H3 N3]) [Nt Ht] Hb.
  unfold select_star_match.
  set (whole := (b0 ++ sel ++ b1 ++ "*"%char :: b2 ++ frm ++ b3) ++ table ++ tail).
  assert (whole = b0 ++ sel ++ b1 ++ "*"%char :: b2 ++ frm ++ b3 ++ table ++ tail)
    as Ew by (unfold whole; repeat (rewrite <- app_assoc || rewrite <- app_comm_cons);
              reflexivity).
  rewrite Ew at 1. clearbody whole.
  unfold select_star_head. cbn [Cat run].
  apply (run_star_cls _ b0); [exact H0 | |].
  { apply (word_head_stops _ (chars "SELECT")); [exact Hsel | discriminate|].
    repeat constructor. }
  rewrite run_word by exact Hsel.
  apply (run_plus_cls _ b1); [exact H1 | exact N1 | reflexivity |].
  cbn [run]. change (ieq "*" "*") with true. cbv iota.
  apply (run_plus_cls _ b2); [exact H2 | exact N2 | |].
  { apply (word_head_stops _ (chars "FROM")); [exact Hfrm | discriminate|].
    repeat constructor. }
  rewrite run_word by exact Hfrm.
  apply (run_plus_cls _ b3); [exact H3 | exact N3 | |].
  { destruct table as [|c table]; [contradiction|]. cbn [app stops].
    apply Forall_cons in Ht as [Hc _]. now apply ident_is_word in Hc. }
  apply (run_plus_cls _ table); [| exact Nt | now apply boundary_stops |].
  { eapply Forall_impl; [exact Ht|]. exact ident_ci_of_ident. }
  rewrite Hb, take_consumed. reflexivity.
Qed.

(** Whatever is matched has that shape. *)
Lemma select_star_shape (s : list ascii) (m : found) :
  select_star_match s = Some m ->
  exists lead table tail,
    s = lead ++ table ++ tail /\ select_star_lead lead /\ word_name table
    /\ at_boundary tail = true
    /\ m = Found s (<[2 := tail]> (<[1 := table]> ∅)).
Proof.
  unfold select_star_match. intros H.
  destruct (run_sound _ _ _ _ _ H) as (t & rest & g & -> & Hm & Hk).
  destruct (at_boundary rest) eqn:Hb; [|discriminate]. injection Hk as <-.
  unfold select_star_head in Hm. split_cat Hm. read_chars. same_groups.
  read_groups. same_groups.
  repeat match goal with
         | M : matches (Plus sp) _ _ _ |- _ =>
             apply matches_plus_cls in M; destruct M as (? & ? & _)
         | M : matches (Plus idc_ci) _ _ _ |- _ =>
             apply matches_plus_cls in M; destruct M as (? & ? & _)
         | M : matches (Star sp) _ _ _ |- _ => apply matches_star_cls in M
         | M : matches (Word _) _ _ _ |- _ => apply matches_chrs_inv in M
         end.
  match goal with E : ieq _ "*" = true |- _ => apply ieq_star in E; subst end.
  match goal with
  | |- context [(?b0 ++ ?sel ++ ?b1 ++ [?star] ++ ?b2 ++ ?frm ++ ?b3 ++ ?tb ++ []) ++ rest] =>
      exists (b0 ++ sel ++ b1 ++ star :: b2 ++ frm ++ b3), tb, rest;
      assert (Eshape : (b0 ++ sel ++ b1 ++ [star] ++ b2 ++ frm ++ b3 ++ tb ++ []) ++ rest
                  = (b0 ++ sel ++ b1 ++ star :: b2 ++ frm ++ b3) ++ tb ++ rest)
        by (rewrite app_nil_r; repeat (rewrite <- app_assoc || rewrite <- app_comm_cons);
            reflexivity);
      rewrite Eshape; clear Eshape
  end.
  split; [reflexivity|]. split.
  { eexists _, _, _, _, _, _. split; [reflexivity|]. auto 10. }
  split.
  { split; [assumption|]. eapply Forall_impl; [eassumption|].
    intros a Ha. now apply ident_ci_is_word in Ha. }
  split; [exact Hb|]. reflexivity.
Qed.

Lemma select_star_on_match (sql : string) (table tail : list ascii)
    (get : string -> result (list string)) (st : list RewriteChange) :
  select_star_match (chars sql)
  = Some (Found (chars sql) (<[2 := tail]> (<[1 := table]> ∅))) ->
  _rewrite_select_star_with_columns sql get st
  = match get (text table) with
    | Ok (c :: cols) =>
        Ok (explicit_select (c :: cols) table tail, st ++ [select_star_change])
    | _ => Ok (sql, st)
    end.
Proof.
  intros H. unfold _rewrite_select_star_with_columns. rewrite H.
  unfold group. cbn [caps].
  rewrite lookup_insert_ne, lookup_insert_eq, lookup_insert_eq by discriminate.
  cbn [fmap option_fmap option_map].
  destruct (get (text table)) as [[|c cols]|e]; reflexivity.
Qed.

(** X1: a statement [SELECT * FROM table ...] whose table the resolver knows
    gets the columns in place of the star; the table and what follows it
    are kept as they are, and one change is recorded. *)
Theorem select_star_rewrites (lead table tail : list ascii) (cols : list string)
    (get : string -> result (list string)) (st : list RewriteChange) :
  select_star_lead lead -> identifier table -> at_boundary tail = true ->
  get (text table) = Ok cols -> cols <> [] ->
  _rewrite_select_star_with_columns (text (lead ++ table ++ tail)) get st
  = Ok (explicit_select cols table tail, st ++ [select_star_change]).
Proof.
  intros Hl Ht Hb Hg Hne.
  rewrite (select_star_on_match _ table tail).
  - rewrite Hg. destruct cols; [contradiction | reflexivity].
  - rewrite chars_text. now apply select_star_found.
Qed.

Lemma select_star_rewrites_witness :
  _rewrite_select_star_with_columns
    (text (chars "SELECT * FROM " ++ chars "users" ++ chars " WHERE active = 1"))
    (fun table => if String.eqb table "users"
                  then Ok ["id"; "name"; "email"] else Raise ValueError)
    []
  = Ok (explicit_select ["id"; "name"; "email"] (chars "users")
          (chars " WHERE active = 1"),
        [] ++ [select_star_change]).
Proof.
  apply select_star_rewrites.
  - exists [], (chars "SELECT"), (chars " "), (chars " "), (chars "FROM"), (chars " ").
    repeat split; try discriminate; repeat constructor.
  - split; [discriminate | repeat constructor].
  - reflexivity.
  - reflexivity.
  - discriminate.
Defined.

(** What the helper does with a statement, by the shape of the
    statement. *)
Lemma select_star_run (sql : string) :
  (forall get st, _rewrite_select_star_with_columns sql get st = Ok (sql, st))
  \/ exists lead table tail,
       chars sql = lead ++ table ++ tail
       /\ select_star_lead lead /\ word_name table /\ at_boundary tail = true
       /\ forall get st,
            _rewrite_select_star_with_columns sql get st
            = match get (text table) with
              | Ok (c :: cols) =>
                  Ok (explicit_select (c :: cols) table tail,
                      st ++ [select_star_change])
              | _ => Ok (sql, st)
              end.
Proof.
  destruct (select_star_match (chars sql)) as [m|] eqn:E.
  - right.
    destruct (select_star_shape _ _ E)
      as (lead & table & tail & Es & Hl & Ht & Hb & ->).
    exists lead, table, tail. repeat split; try assumption; try apply Ht.
    intros get st. now apply select_star_on_match.
  - left. intros get st. unfold _rewrite_select_star_with_columns.
    now rewrite E.
Qed.

(** X2: the helper never raises.  Either it returns the statement and the
    change list as they were, also when the resolver raises or knows no
    column; or the statement is [SELECT * FROM table ...] with a table the
    resolver knows, and it returns the statement with the columns in
    place of the star and records one change.  The two words are read
    the way [re.IGNORECASE] matches them, and the table is a name of
    word characters: with [re.IGNORECASE] the class of the pattern
    accepts letters beyond [[A-Za-z0-9_]]. *)
Theorem select_star_only (sql : string) (get : string -> result (list string))
    (st : list RewriteChange) :
  exists sql' st',
    _rewrite_select_star_with_columns sql get st = Ok (sql', st')
    /\ ((sql' = sql /\ st' = st)
        \/ exists lead table tail cols,
             chars sql = lead ++ table ++ tail
             /\ select_star_lead lead /\ word_name table
             /\ at_boundary tail = true
             /\ get (text table) = Ok cols /\ cols <> []
             /\ sql' = explicit_select cols table tail
             /\ st' = st ++ [select_star_change]).
Proof.
  destruct (select_star_run sql)
    as [H|(lead & table & tail & Es & Hl & Ht & Hb & H)]; rewrite H.
  - eexists _, _. split; [reflexivity | now left].
  - destruct (get (text table)) as [[|c cols]|e] eqn:Hg.
    + eexists _, _. split; [reflexivity | now left].
    + eexists _, _. split; [reflexivity|]. right.
      exists lead, table, tail, (c :: cols).
      split; [exact Es|]. split; [exact Hl|]. split; [exact Ht|].
      split; [exact Hb|]. split; [exact Hg|]. split; [discriminate|].
      split; reflexivity.
    + eexists _, _. split; [reflexivity | now left].
Qed.

(** X3: the resolver is asked about names of word characters only: two
    resolvers that agree on every name made of one or more characters of
    [\w] give the same result.  The names need not be made of
    [[A-Za-z0-9_]]: with [re.IGNORECASE] the class of the pattern accepts
    letters beyond it. *)
Theorem select_star_asks_identifiers (sql : string)
    (get get' : string -> result (list string)) (st : list RewriteChange) :
  (forall t, word_name (chars t) -> get t = get' t) ->
  _rewrite_select_star_with_columns sql get st
  = _rewrite_select_star_with_columns sql get' st.
Proof.
  intros H.
  destruct (select_star_run sql)
    as [Hrun|(lead & table & tail & Es & Hl & Ht & Hb & Hrun)]; rewrite !Hrun.
  - reflexivity.
  - rewrite H; [reflexivity | now rewrite chars_text].
Qed.

Lemma select_star_asks_identifiers_witness :
  _rewrite_select_star_with_columns "SELECT * FROM users"
    (fun t => if String.eqb t "a b" then Raise ValueError else Ok ["id"]) []
  = _rewrite_select_star_with_columns "SELECT * FROM users"
      (fun _ => Ok ["id"]) [].
Proof.
  apply select_star_asks_identifiers. intros t [_ Ht].
  destruct (String.eqb_spec t "a b") as [->|_]; [|reflexivity].
  exfalso. cbn in Ht. apply Forall_cons in Ht as [_ Ht].
  apply Forall_cons in Ht as [Ht _]. discriminate.
Defined.

(** *** The guard of the database resolver *)

Lemma at_end_cases (rest : list ascii) :
  at_end rest = true <-> rest = [] \/ rest = ["010"%char].
Proof.
  destruct rest as [|c [|d rest]]; cbn [at_end].
  - split; auto.
  - split.
    + intros H. apply Ascii.eqb_eq in H as ->. now right.
    + intros [H|H]; [discriminate|]. injection H as ->. reflexivity.
  - split; [discriminate | intros [H|H]; discriminate].
Qed.

Lemma safe_identifier_iff (table : string) :
  safe_identifier table = true
  <-> exists w, identifier w
                /\ (chars table = w \/ chars table = w ++ ["010"%char]).
Proof.
  unfold safe_identifier. split.
  - destruct (run _ _ _ _) as [[]|] eqn:E; [|discriminate]. intros _.
    destruct (run_sound _ _ _ _ _ E) as (t & rest & g & Es & Hm & Hk).
    apply matches_plus_cls in Hm as (Ht & Hne & _).
    destruct (at_end rest) eqn:He; [|discriminate].
    apply at_end_cases in He. exists t. split; [split; assumption|].
    destruct He as [->| ->]; [left | right]; now rewrite Es, ?app_nil_r.
  - intros (w & [Hne Hw] & Hc).
    assert (exists rest, chars table = w ++ rest /\ at_end rest = true)
      as (rest & -> & He).
    { destruct Hc as [->| ->]; [exists [] | exists ["010"%char]];
        rewrite ?app_nil_r; split; reflexivity. }
    destruct (run_complete (A := unit) (Plus idc) ∅ w ∅
                (plus_cls_intro _ _ _ Hw Hne) rest
                (fun rest _ => if at_end rest then Some tt else None) tt)
      as (y & ->); [now rewrite He | reflexivity].
Qed.

(** X4: the guard of [_get_columns_for_table_from_db] lets through the names
    made of [[A-Za-z0-9_]] and those names followed by one newline; for
    every other name the function returns no column and does not ask the
    server. *)
Theorem table_guard (table : string) :
  (safe_identifier table = true
   <-> exists w, identifier w
                 /\ (chars table = w \/ chars table = w ++ ["010"%char]))
  /\ forall show_columns config,
       _get_columns_for_table_from_db show_columns config table
       = if safe_identifier table
         then show_columns config (show_statement table)
         else Ok [].
Proof.
  split; [apply safe_identifier_iff|]. intros show_columns config.
  unfold _get_columns_for_table_from_db. now destruct (safe_identifier table).
Qed.

(** *** The rewrite with a connection *)

Lemma identifier_safe (t : string) : identifier (chars t) -> safe_identifier t = true.
Proof. intros H. apply safe_identifier_iff. exists (chars t). auto. Qed.

(** A name the pattern took that passes the guard is made of
    [[A-Za-z0-9_]]. *)
Lemma guarded_name (table : list ascii) :
  word_name table -> safe_identifier (text table) = true -> identifier table.
Proof.
  intros [Hne Hw] Hs.
  apply safe_identifier_iff in Hs as (w & Hi & [E|E]); rewrite chars_text in E.
  - now subst.
  - exfalso. subst table. apply Forall_app in Hw as [_ Hw].
    apply Forall_cons in Hw as [Hw _]. discriminate.
Qed.

(** What the database resolver answers for a name the pattern took. *)
Lemma resolver_cases (table : list ascii) :
  word_name table ->
  (forall show_columns config,
     _get_columns_for_table_from_db show_columns config (text table) = Ok [])
  \/ (identifier table
      /\ forall show_columns config,
           _get_columns_for_table_from_db show_columns config (text table)
           = show_columns config (show_statement (text table))).
Proof.
  intros Hw. unfold _get_columns_for_table_from_db.
  destruct (safe_identifier (text table)) eqn:Hs; cbn [negb].
  - right. split; [now apply guarded_name | reflexivity].
  - now left.
Qed.

(** X5: [rewrite_query_with_connection] never raises, whatever the server
    does.  Its result is the result of [rewrite_query], unless the tier
    is moderate or aggressive and a database is named: then the rewritten
    text of [rewrite_query] may in addition get the columns of its table
    in place of the star, which adds one change at the end.  And it does
    get them: with such a tier and a database, whenever the text of
    [rewrite_query] is [SELECT * FROM table ...] with a table name of
    [[A-Za-z0-9_]] for which the server returns columns, the result has
    the columns in place of the star and the one change more. *)
Theorem with_connection_result (sql tier : string) (host : option string)
    (port : option Z) (user password database : option string)
    (show_columns : MySQLConnectionConfig -> string -> result (list string)) :
  exists base r,
    rewrite_query sql tier = Ok base
    /\ rewrite_query_with_connection show_columns sql tier host port user
         password database = Ok r
    /\ original_sql r = sql /\ mode r = lower tier
    /\ (r = base
        \/ (lower tier ∈ ["moderate"; "aggressive"] /\ is_set database = true
            /\ changes r = changes base ++ [select_star_change]
            /\ exists lead table tail cols,
                 chars (rewritten_sql base) = lead ++ table ++ tail
                 /\ select_star_lead lead /\ identifier table
                 /\ at_boundary tail = true
                 /\ show_columns
                      {| Connection.host := str_or host "localhost";
                         Connection.port := int_or port 3306;
                         Connection.user := user; Connection.password := password;
                         Connection.database := database |}
                      (show_statement (text table)) = Ok cols
                 /\ cols <> []
                 /\ rewritten_sql r = explicit_select cols table tail))
    /\ (lower tier ∈ ["moderate"; "aggressive"] -> is_set database = true ->
        forall lead table tail cols,
          chars (rewritten_sql base) = lead ++ table ++ tail ->
          select_star_lead lead -> identifier table ->
          at_boundary tail = true ->
          show_columns
            {| Connection.host := str_or host "localhost";
               Connection.port := int_or port 3306;
               Connection.user := user; Connection.password := password;
               Connection.database := database |}
            (show_statement (text table)) = Ok cols ->
          cols <> [] ->
          rewritten_sql r = explicit_select cols table tail
          /\ changes r = changes base ++ [select_star_change]).
Proof.
  set (config := {| Connection.host := str_or host "localhost";
                    Connection.port := int_or port 3306;
                    Connection.user := user; Connection.password := password;
                    Connection.database := database |}).
  destruct (pipeline sql tier) as (sql' & d & E & _).
  eexists _. unfold rewrite_query_with_connection. rewrite E.
  destruct (bool_decide (lower tier ∈ ["moderate"; "aggressive"])) eqn:Ht;
    cbn [negb].
  2:{ eexists. do 4 (split; [reflexivity|]). split; [now left|]. intros Hin.
      apply bool_decide_eq_false in Ht. contradiction. }
  destruct (is_set database) eqn:Hd; cbn [negb].
  2:{ eexists. do 4 (split; [reflexivity|]). split; [now left|]. discriminate. }
  cbn [rewritten_sql changes]. fold config.
  set (get := fun table => _get_columns_for_table_from_db show_columns config table).
  assert (forall lead table tail cols,
            chars sql' = lead ++ table ++ tail ->
            select_star_lead lead -> identifier table ->
            at_boundary tail = true ->
            show_columns config (show_statement (text table)) = Ok cols ->
            cols <> [] ->
            _rewrite_select_star_with_columns sql' get d
            = Ok (explicit_select cols table tail, d ++ [select_star_change]))
    as Hforce.
  { intros lead table tail cols Es Hl Hi Hb Hg Hne.
    rewrite (select_star_on_match sql' table tail).
    - unfold get, _get_columns_for_table_from_db.
      rewrite identifier_safe by (now rewrite chars_text). cbn [negb].
      fold (show_statement (text table)). rewrite Hg.
      destruct cols; [contradiction | reflexivity].
    - rewrite Es. now apply select_star_found. }
  destruct (select_star_run sql')
    as [Hrun|(lead & table & tail & Es & Hl & Hw & Hb & Hrun)].
  { rewrite Hrun. eexists. do 4 (split; [reflexivity|]). split; [now left|].
    intros _ _ lead table tail cols Es Hl Hi Hb Hg Hne. exfalso.
    pose proof (Hforce lead table tail cols Es Hl Hi Hb Hg Hne) as Hf.
    rewrite Hrun in Hf. injection Hf as _ Hf.
    apply (f_equal length) in Hf. rewrite length_app in Hf. cbn in Hf. lia. }
  destruct (_rewrite_select_star_with_columns sql' get d) as [[x y]|e] eqn:Eres.
  2:{ exfalso. rewrite Hrun in Eres. destruct (get (text table)) as [[|c cols]|e'];
        discriminate. }
  eexists. split; [reflexivity|]. split; [reflexivity|]. split; [reflexivity|].
  split; [reflexivity|]. cbn [rewritten_sql changes]. split.
  - rewrite Hrun in Eres. unfold get in Eres.
    destruct (resolver_cases table Hw) as [Hr|[Hi Hr]];
      rewrite Hr in Eres.
    { left. now injection Eres as <- <-. }
    destruct (show_columns config (show_statement (text table)))
      as [[|c cols]|e] eqn:Hg.
    + left. now injection Eres as <- <-.
    + right. injection Eres as <- <-. apply bool_decide_eq_true in Ht.
      split; [exact Ht|]. split; [reflexivity|]. split; [reflexivity|].
      exists lead, table, tail, (c :: cols).
      split; [exact Es|]. split; [exact Hl|]. split; [exact Hi|].
      split; [exact Hb|]. split; [exact Hg|]. split; [discriminate|].
      reflexivity.
    + left. now injection Eres as <- <-.
  - intros _ _ lead' table' tail' cols Es' Hl' Hi' Hb' Hg' Hne'.
    pose proof (Hforce lead' table' tail' cols Es' Hl' Hi' Hb' Hg' Hne') as Hf.
    injection Hf as -> ->. split; reflexivity.
Qed.

Lemma with_connection_result_witness :
  exists r,
    rewrite_query_with_connection
      (fun config stmt =>
         if String.eqb stmt "SHOW COLUMNS FROM `users`"
            && String.eqb (Connection.host config) "localhost"
            && (Connection.port config =? 3306)%Z
         then Ok ["id"; "name"] else Raise ValueError)
      "SELECT * FROM users WHERE gone != NULL" "Moderate" None (Some 0%Z)
      None None (Some "shop") = Ok r
    /\ rewritten_sql r = "SELECT id, name FROM users WHERE gone IS NOT NULL"
    /\ changes r = [not_null_change; select_star_change].
Proof.
  destruct (with_connection_result
              "SELECT * FROM users WHERE gone != NULL" "Moderate" None
              (Some 0%Z) None None (Some "shop")
              (fun config stmt =>
                 if String.eqb stmt "SHOW COLUMNS FROM `users`"
                    && String.eqb (Connection.host config) "localhost"
                    && (Connection.port config =? 3306)%Z
                 then Ok ["id"; "name"] else Raise ValueError))
    as (base & r & Eb & Er & _ & _ & _ & Hforce).
  exists r. split; [exact Er|].
  vm_compute in Eb. injection Eb as <-.
  assert (lower "Moderate" ∈ ["moderate"; "aggressive"]) as Hin by now left.
  destruct (Hforce Hin eq_refl
              (chars "SELECT * FROM ") (chars "users")
              (chars " WHERE gone IS NOT NULL") ["id"; "name"])
    as [H1 H2].
  - reflexivity.
  - exists [], (chars "SELECT"), (chars " "), (chars " "), (chars "FROM"), (chars " ").
    repeat split; try discriminate; repeat constructor.
  - split; [discriminate | repeat constructor].
  - reflexivity.
  - reflexivity.
  - discriminate.
  - split; [exact H1 | exact H2].
Defined.

(** X6: the only statements the function sends to the server are
    [SHOW COLUMNS FROM `t`] for names [t] made of [[A-Za-z0-9_]], on a
    connection whose host and port default to localhost and 3306: two
    servers that answer those alike give the same result. *)
Theorem with_connection_statements (sql tier : string) (host : option string)
    (port : option Z) (user password database : option string)
    (show_columns show_columns' : MySQLConnectionConfig -> string
                                  -> result (list string)) :
  (forall t, identifier (chars t) ->
     show_columns
       {| Connection.host := str_or host "localhost";
          Connection.port := int_or port 3306;
          Connection.user := user; Connection.password := password;
          Connection.database := database |} (show_statement t)
     = show_columns'
         {| Connection.host := str_or host "localhost";
            Connection.port := int_or port 3306;
            Connection.user := user; Connection.password := password;
            Connection.database := database |} (show_statement t)) ->
  rewrite_query_with_connection show_columns sql tier host port user password
    database
  = rewrite_query_with_connection show_columns' sql tier host port user password
      database.
Proof.
  set (config := {| Connection.host := str_or host "localhost";
                    Connection.port := int_or port 3306;
                    Connection.user := user; Connection.password := password;
                    Connection.database := database |}).
  intros H. unfold rewrite_query_with_connection.
  destruct (rewrite_query sql tier) as [base|e]; [|reflexivity].
  destruct (negb _); [reflexivity|]. destruct (negb _); [reflexivity|].
  fold config.
  destruct (select_star_run (rewritten_sql base))
    as [Hrun|(lead & table & tail & Es & Hl & Ht & Hb & Hrun)]; rewrite !Hrun;
    [reflexivity|].
  destruct (resolver_cases table Ht) as [Hr|[Hi Hr]]; rewrite !Hr;
    [reflexivity|].
  rewrite H; [reflexivity | now rewrite chars_text].
Qed.

Lemma with_connection_statements_witness :
  rewrite_query_with_connection
    (fun config stmt => if String.eqb stmt "DROP TABLE users"
                        then Raise ValueError else Ok ["id"; "name"])
    "SELECT * FROM users WHERE gone != NULL" "Moderate" None (Some 0%Z) None None
    (Some "shop")
  = rewrite_query_with_connection
      (fun config stmt => Ok ["id"; "name"])
      "SELECT * FROM users WHERE gone != NULL" "Moderate" None (Some 0%Z) None None
      (Some "shop").
Proof.
  apply with_connection_statements. intros t _.
  destruct (String.eqb_spec (show_statement t) "DROP TABLE users") as [E|_];
    [discriminate | reflexivity].
Defined.

End SchemaFacts.

(** ** The rules one by one *)

Module RuleFacts.
Import Py Counting Re ReSem PyFacts ReFacts Rewriter RewriteSpec RewriterFacts.

(** *** What rule 1 leaves *)

Lemma null_rule_cases (sql : string) (st : list RewriteChange) :
  exists d,
    _rewrite_null_comparisons sql st = Ok (text (null_normal (chars sql)), st ++ d)
    /\ (In not_null_change d <-> found_in pattern_not_eq sql = true)
    /\ (d = [] \/ d = [not_null_change] \/ d = [is_null_change]
        \/ d = [not_null_change; is_null_change]).
Proof.
  unfold _rewrite_null_comparisons, null_normal, found_in, search, sub_const.
  unfold mbind, M_bind, mret, M_ret, append.
  destruct (search_go pattern_not_eq (chars sql)) eqn:E1.
  - rewrite chars_text.
    destruct (search_go pattern_eq _) eqn:E2.
    + exists [not_null_change; is_null_change].
      rewrite <- app_assoc. split; [reflexivity|]. split; [|tauto].
      split; [reflexivity | intros _; now left].
    + exists [not_null_change]. rewrite (replace_all_none _ _ _ E2).
      split; [reflexivity|]. split; [|tauto].
      split; [reflexivity | intros _; now left].
  - rewrite (replace_all_none _ _ _ E1).
    destruct (search_go pattern_eq (chars sql)) eqn:E2.
    + exists [is_null_change]. split; [reflexivity|]. split; [|tauto].
      split; [intros [H|[]]; discriminate | discriminate].
    + exists []. rewrite (replace_all_none _ _ _ E2), app_nil_r, text_chars.
      split; [reflexivity|]. split; [|tauto].
      split; [intros [] | discriminate].
Qed.

Lemma no_null_text (s : list ascii) :
  search_go pattern_not_eq s = None -> search_go pattern_eq s = None ->
  forall pre t post, s = pre ++ t ++ post ->
    ~ null_text (chars "=") t /\ ~ null_text (chars "!=") t.
Proof.
  intros H1 H2 pre t post ->. split; intros Hn.
  - apply search_none_suffix, search_none_here in H2.
    rewrite (eq_match _ _ Hn) in H2. discriminate.
  - apply search_none_suffix, search_none_here in H1.
    rewrite (not_eq_match _ _ Hn) in H1. discriminate.
Qed.

(** X7: rule 1 returns, and in the text it returns no equals sign, alone or
    after an exclamation mark, is followed by optional blanks and [NULL]
    in any letter case; applied to that text the rule changes nothing.
    It appends at most one entry for each of its two replacements, in
    that order, and the first one exactly when the text had
    [!= NULL]. *)
Theorem null_rule_leaves_none (sql : string) (st : list RewriteChange) :
  exists sql' d,
    _rewrite_null_comparisons sql st = Ok (sql', st ++ d)
    /\ (forall pre t post, chars sql' = pre ++ t ++ post ->
          ~ null_text (chars "=") t /\ ~ null_text (chars "!=") t)
    /\ (forall st', _rewrite_null_comparisons sql' st' = Ok (sql', st'))
    /\ (In not_null_change d <-> found_in pattern_not_eq sql = true)
    /\ (d = [] \/ d = [not_null_change] \/ d = [is_null_change]
        \/ d = [not_null_change; is_null_change]).
Proof.
  destruct (null_rule_cases sql st) as (d & E & Hd).
  exists (text (null_normal (chars sql))), d. split; [exact E|].
  split; [|split; [|exact Hd]].
  - rewrite chars_text. destruct (null_normal_clear (chars sql)) as [H1 H2].
    now apply no_null_text.
  - intros st'. apply null_rule_fixed.
Qed.

(** *** What the OR rule leaves *)

Lemma hits_search (r : regex) (s : list ascii) :
  hits (pieces r s) = 0 <-> search_go r s = None.
Proof.
  split; [apply hits_zero_search|]. intros H. unfold pieces.
  rewrite (scan_none r _ s H) by lia.
  clear. induction s as [|c s IH]; [reflexivity | exact IH].
Qed.

(** X8: the OR rule returns, and a search for its pattern in the text it
    returns finds nothing; applied to that text the rule changes
    nothing.  It appends one entry per chain it folded, and it folded
    none exactly when its pattern is not found in the text, and exactly
    when it returns the text as it was. *)
Theorem or_rule_leaves_none (sql : string) (st : list RewriteChange) :
  exists sql' n,
    _rewrite_or_to_in sql st = Ok (sql', st ++ repeat or_change n)
    /\ found_in or_pattern sql' = false
    /\ (forall st', _rewrite_or_to_in sql' st' = Ok (sql', st'))
    /\ (n = 0 <-> found_in or_pattern sql = false)
    /\ (n = 0 <-> sql' = sql).
Proof.
  pose proof (sub_result or_pattern or_repl or_change sql st
                (fun m Hm => proj1 (or_repl_ok m Hm))) as E.
  exists (text (rendered or_pattern (output or_repl) (chars sql))),
         (hits (pieces or_pattern (chars sql))).
  split; [exact E|]. split; [apply found_in_none, or_replaced|].
  split.
  { intros st'. apply sub_no_match, found_in_none, or_replaced. }
  assert (hits (pieces or_pattern (chars sql)) = 0
          <-> found_in or_pattern sql = false) as Hfound.
  { rewrite hits_search. unfold found_in, search.
    destruct (search_go or_pattern (chars sql)); split; congruence. }
  split; [exact Hfound|].
  split.
  - intros H0. unfold rendered. rewrite hits_none_render by exact H0.
    now rewrite pieces_text, text_chars.
  - intros Hsame.
    destruct (hits (pieces or_pattern (chars sql))) as [|n] eqn:Hn; [reflexivity|].
    exfalso.
    pose proof (render_count_lt "=" (output or_repl) (pieces or_pattern (chars sql)))
      as Hlt.
    fold (rendered or_pattern (output or_repl) (chars sql)) in Hlt.
    apply (f_equal chars) in Hsame. rewrite chars_text in Hsame.
    rewrite Hsame, pieces_text, Hn in Hlt.
    enough (count "=" (chars sql) < count "=" (chars sql)) by lia.
    apply Hlt; [|lia].
    eapply Forall_impl; [apply pieces_sound|]. intros [a|m] Hm; [exact I|].
    apply (or_repl_ok m Hm).
Qed.

(** *** The entries of the change list *)

(** X9: the change list of [rewrite_query] is in the order of the rules: at
    most one entry for each of the two null replacements, then one entry
    per OR chain that was folded in the text rule 1 returned, then one
    per YEAR comparison that was rewritten in the text the OR rule
    returned. *)
Theorem changes_in_rule_order (sql tier : string) :
  exists r d,
    rewrite_query sql tier = Ok r
    /\ (d = [] \/ d = [not_null_change] \/ d = [is_null_change]
        \/ d = [not_null_change; is_null_change])
    /\ changes r
       = d ++ repeat or_change
                (hits (pieces or_pattern (null_normal (chars sql))))
           ++ repeat year_change
                (hits (pieces year_pattern
                         (rendered or_pattern (output or_repl)
                            (null_normal (chars sql))))).
Proof.
  destruct (null_rule_cases sql []) as (d & E1 & _ & Hd). cbn [app] in E1.
  set (s1 := null_normal (chars sql)) in *.
  pose proof (sub_result or_pattern or_repl or_change (text s1) d
                (fun m Hm => proj1 (or_repl_ok m Hm))) as E2.
  rewrite chars_text in E2.
  set (s2 := rendered or_pattern (output or_repl) s1) in *.
  pose proof (sub_result year_pattern year_repl year_change (text s2)
                (d ++ repeat or_change (hits (pieces or_pattern s1)))
                (fun m Hm => proj1 (year_repl_ok m Hm))) as E3.
  rewrite chars_text in E3.
  eexists _, d. split; [|split; [exact Hd|]].
  - unfold rewrite_query, _rewrite_or_to_in, _rewrite_year_function_on_column,
      mbind, M_bind.
    rewrite E1, E2, E3. destruct (bool_decide _); reflexivity.
  - cbn [changes]. now rewrite <- app_assoc.
Qed.

(** *** The second value of an OR chain *)

Lemma sep_needs_blank (c : ascii) (s : list ascii) :
  is_space c = false -> match_at or_separator (c :: s) = None.
Proof.
  intros Hc. unfold match_at, or_separator. cbn [Cat Plus run sp].
  now rewrite Hc.
Qed.

Lemma pieces_solid (v more : list ascii) :
  solid v -> pieces or_separator (v ++ more) = map Keep v ++ pieces or_separator more.
Proof.
  intros Hv. apply pieces_skip. induction Hv as [|c v Hc _ IH]; [reflexivity|].
  cbn [clear_before app]. now rewrite (sep_needs_blank c _ Hc).
Qed.

Lemma split_go_keep (v : list ascii) (ps : list piece) (cur : list ascii) :
  split_go (map Keep v ++ ps) cur = split_go ps (rev v ++ cur).
Proof.
  revert cur. induction v as [|c v IH]; intros cur; [reflexivity|].
  cbn [map app split_go rev]. rewrite IH, <- app_assoc. reflexivity.
Qed.

Lemma split_head (v more : list ascii) :
  solid v -> more = [] \/ sep_here more ->
  exists items, split or_separator (text (v ++ more)) = text v :: items.
Proof.
  intros Hv Hmore. unfold split. rewrite chars_text, (pieces_solid _ _ Hv), split_go_keep.
  rewrite app_nil_r.
  destruct Hmore as [->|Hsep].
  - exists []. cbn. now rewrite rev_involutive.
  - apply sep_here_iff in Hsep.
    destruct (match_at or_separator more) as [[rest g]|] eqn:E; [|contradiction].
    pose proof (sep_consumes _ _ _ E) as Hlt.
    destruct (match_at_sound _ _ _ _ E) as (t & -> & _).
    assert (t <> []) as Ht by (intros ->; cbn in Hlt; lia).
    rewrite (pieces_hit _ _ _ _ E Ht). cbn [split_go]. rewrite rev_involutive. eauto.
Qed.

Lemma star_or_more_head (g g' : groups) (more : list ascii) :
  matches (Star or_more) g more g' -> more = [] \/ sep_here more.
Proof.
  intros H. inversion H; subst; [now left|]. right.
  eapply or_more_sep; eassumption.
Qed.

Lemma value_shorter (part : string) :
  part <> "" -> length (chars (value_of part)) < length (chars part).
Proof.
  intros Hne. destruct (value_of_spec part) as [->|(pp & z & E & ->)].
  - destruct part; [contradiction | cbn; lia].
  - destruct (strip_part (text z)) as (a & b & Hz). rewrite chars_text in Hz.
    apply (f_equal length) in Hz. rewrite !length_app in Hz.
    rewrite E, length_app. cbn [length]. lia.
Qed.

Lemma value_without_eq (part : string) :
  Forall (fun a => a <> "="%char) (chars part) -> value_of part = "".
Proof.
  intros H. destruct (value_of_spec part) as [->|(pp & z & E & _)]; [reflexivity|].
  rewrite E in H. apply Forall_app in H as [_ H]. inversion H; subst. contradiction.
Qed.

(** X10: for every match of the OR pattern the replacement function returns
    [WHERE col IN (v1, x, ...)], where [x] stands in the place of the
    second value [v2] of the chain (the text without blanks after the
    second equals sign).  [x] is never [v2]: it is what follows the first
    equals sign inside [v2], stripped, and the empty text when [v2] has
    none. *)
Theorem or_rule_second_value (t rest : list ascii) (g : groups)
    (st : list RewriteChange) :
  match_at or_pattern (t ++ rest) = Some (rest, g) ->
  exists col v1 v2 more items,
    g !! 1 = Some col /\ g !! 2 = Some v1 /\ g !! 3 = Some (v2 ++ more)
    /\ solid v2 /\ v2 <> [] /\ stops (fun a => negb (is_space a)) more
    /\ or_repl (Found t g) st
       = Ok ("WHERE " +:+ text col +:+ " IN ("
             +:+ join ", " (text v1 :: value_of (text v2) :: items) +:+ ")",
             st ++ [or_change])
    /\ length (chars (value_of (text v2))) < length v2
    /\ (Forall (fun a => a <> "="%char) v2 -> value_of (text v2) = "").
Proof.
  intros E. destruct (match_at_sound _ _ _ _ E) as (t' & Et & Hm).
  apply app_inv_tail in Et as <-.
  destruct (or_text _ _ Hm) as (u & Hu & Hok & Hg).
  pose proof (or_output (Found t g) u Hg) as Hout.
  pose proof (proj1 (or_repl_ok (Found t g) Hm) st) as Hrun.
  destruct (matches_seq_inv _ _ _ _ _ (ok_rest u Hok))
    as (v2 & more & g1 & Hrest & Hv2 & Hmore).
  apply matches_plus_cls in Hv2 as (Hsolid & Hne & ->).
  apply solid_nsp in Hsolid.
  apply star_or_more_head in Hmore as Hhead.
  destruct (split_head v2 more Hsolid Hhead) as (items & Hsplit).
  exists (o_col u), (o_v1 u), v2, more, (map value_of items).
  split; [|split; [|split; [|split; [exact Hsolid|split; [exact Hne|split; [|split; [|split]]]]]]].
  - rewrite Hg. unfold or_env. rewrite !lookup_insert_ne by discriminate.
    apply lookup_insert_eq.
  - rewrite Hg. unfold or_env. rewrite lookup_insert_ne by discriminate.
    apply lookup_insert_eq.
  - rewrite Hg, <- Hrest. apply lookup_insert_eq.
  - destruct Hhead as [->|(t1 & r1 & g2 & -> & Hsep)]; [exact I|].
    unfold or_separator in Hsep. cbn [Cat] in Hsep.
    apply matches_seq_inv in Hsep as (b & x & g3 & -> & Hb & _).
    apply matches_plus_cls in Hb as (Hb & Hbne & _).
    destruct b as [|b0 b]; [contradiction|]. inversion Hb; subst.
    cbn [app stops]. now apply negb_false_iff.
  - rewrite Hrun. f_equal. f_equal. apply chars_inj. rewrite Hout.
    unfold or_out, or_items. rewrite Hrest, Hsplit.
    rewrite !chars_app, !chars_text. reflexivity.
  - rewrite <- (chars_text v2) at 2. apply value_shorter.
    intros H0. apply (f_equal chars) in H0. rewrite chars_text in H0. contradiction.
  - intros Hno. apply value_without_eq. now rewrite chars_text.
Qed.

Lemma or_rule_second_value_witness :
  exists col v1 v2 more items,
    (<[3 := chars "2"]> (<[2 := chars "1"]> (<[1 := chars "a"]> ∅)) : groups) !! 1
    = Some col
    /\ (<[3 := chars "2"]> (<[2 := chars "1"]> (<[1 := chars "a"]> ∅)) : groups) !! 2
       = Some v1
    /\ (<[3 := chars "2"]> (<[2 := chars "1"]> (<[1 := chars "a"]> ∅)) : groups) !! 3
       = Some (v2 ++ more)
    /\ solid v2 /\ v2 <> [] /\ stops (fun a => negb (is_space a)) more
    /\ or_repl (Found (chars "WHERE a = 1 OR a = 2")
                  (<[3 := chars "2"]> (<[2 := chars "1"]> (<[1 := chars "a"]> ∅))))
         []
       = Ok ("WHERE " +:+ text col +:+ " IN ("
             +:+ join ", " (text v1 :: value_of (text v2) :: items) +:+ ")",
             [] ++ [or_change])
    /\ length (chars (value_of (text v2))) < length v2
    /\ (Forall (fun a => a <> "="%char) v2 -> value_of (text v2) = "").
Proof.
  apply (or_rule_second_value (chars "WHERE a = 1 OR a = 2") (chars " AND b = 3")).
  vm_compute. reflexivity.
Defined.

End RuleFacts.

(** ** The values of an OR chain *)

Module ChainFacts.
Import Py Counting Re ReSem PyFacts ReFacts Rewriter RewriteSpec RewriterFacts.
Import RuleFacts ChainSpec.

Lemma chain_of_star (col : list ascii) (g g' : groups) (t : list ascii) :
  g !! 1 = Some col -> matches (Star or_more) g t g' ->
  exists ds, t = chain_text ds /\ Forall (disjunct_ok col) ds.
Proof.
  intros Hcol H. remember (Star or_more) as r eqn:Hr.
  induction H as [| | | |r g|r g t1 g1 t2 g2 H1 _ Hne _ IH| |]; try discriminate.
  - exists []. split; [reflexivity | constructor].
  - injection Hr as ->.
    destruct (or_more_text _ _ _ H1)
      as (b & o & b' & c & b3 & b4 & v & col' & -> & Hb & Ho & Hb' & Hc1 & Hc
          & Hb3 & Hb4 & Hv & ->).
    rewrite Hcol in Hc1. injection Hc1 as <-.
    destruct (IH Hcol eq_refl) as (ds & -> & Hds).
    exists ({| d_b1 := b; d_or := o; d_b2 := b'; d_col := c; d_b3 := b3;
               d_b4 := b4; d_val := v |} :: ds).
    split.
    + cbn [chain_text flat_map]. unfold disjunct_text, disjunct_part.
      cbn [d_b1 d_or d_b2 d_col d_b3 d_b4 d_val]. list_eq.
    + constructor; [|exact Hds]. unfold disjunct_ok.
      cbn [d_b1 d_or d_b2 d_col d_b3 d_b4 d_val]. tauto.
Qed.

(** *** Where [re.split] cuts a chain *)

Lemma letter_o (a : ascii) :
  ieq a "O" = true -> is_space a = false /\ a <> "="%char.
Proof. each_char a; split; (reflexivity || discriminate). Qed.

Lemma letter_r (a : ascii) : ieq a "R" = true -> is_space a = false.
Proof. each_char a; reflexivity. Qed.

Lemma or_letters (o : list ascii) :
  same_ci o (chars "OR") ->
  exists o1 o2, o = [o1; o2] /\ is_space o1 = false /\ is_space o2 = false
                /\ o1 <> "="%char.
Proof.
  intros H. inversion H as [|o1 ? o' ? H1 H']; subst.
  inversion H' as [|o2 ? o'' ? H2 H'']; subst. inversion H''; subst.
  exists o1, o2. split; [reflexivity|].
  destruct (letter_o _ H1) as [Hs Hne]. apply letter_r in H2. auto.
Qed.

Lemma sep_shape (s rest : list ascii) (g : groups) :
  match_at or_separator s = Some (rest, g) ->
  exists b o b',
    s = b ++ o ++ b' ++ rest /\ (blank b /\ b <> [])
    /\ same_ci o (chars "OR") /\ (blank b' /\ b' <> []).
Proof.
  intros E. destruct (match_at_sound _ _ _ _ E) as (t & -> & H).
  unfold or_separator in H. cbn [Cat] in H.
  apply matches_seq_inv in H as (b & r1 & g1 & -> & Hb & H).
  apply matches_seq_inv in H as (o & r2 & g2 & -> & Ho & H).
  apply matches_seq_inv in H as (b' & r3 & g3 & -> & Hb' & H).
  apply matches_eps_inv in H as [-> _].
  apply matches_plus_cls in Hb as (Hb & Hbne & _).
  apply matches_plus_cls in Hb' as (Hb' & Hb'ne & _).
  apply matches_chrs_inv in Ho.
  exists b, o, b'. rewrite app_nil_r, <- !app_assoc. auto.
Qed.

Lemma sep_run (b o b' X : list ascii) :
  blank b -> b <> [] -> same_ci o (chars "OR") -> blank b' -> b' <> [] ->
  stops is_space X ->
  match_at or_separator (b ++ o ++ b' ++ X) = Some (X, ∅).
Proof.
  intros Hb Hbne Ho Hb' Hb'ne HX.
  destruct (or_letters o Ho) as (o1 & o2 & -> & Ho1 & _).
  unfold match_at, or_separator. cbn [Cat]. cbn [run].
  apply (run_plus_cls _ b); [exact Hb | exact Hbne | exact Ho1 |].
  rewrite run_word by exact Ho.
  apply (run_plus_cls _ b'); [exact Hb' | exact Hb'ne | exact HX |].
  reflexivity.
Qed.

Lemma kept_in_app (r : regex) (l1 l2 post : list ascii) :
  kept_in r l1 (l2 ++ post) -> kept_in r l2 post -> kept_in r (l1 ++ l2) post.
Proof.
  intros H1 H2 x c y E.
  destruct (elem_app_split _ _ _ _ _ E) as [(m & -> & ->)|(m & -> & ->)].
  - rewrite <- app_assoc. now apply (H1 x c m).
  - now apply (H2 m c y).
Qed.

Lemma kept_in_solid (l post : list ascii) : solid l -> kept_in or_separator l post.
Proof.
  intros H x c y ->. apply sep_needs_blank.
  apply Forall_app in H as [_ H]. now apply Forall_cons in H as [H _].
Qed.

Lemma kept_in_blank (w X : list ascii) :
  blank w ->
  (forall w', blank w' -> w' <> [] -> match_at or_separator (w' ++ X) = None) ->
  kept_in or_separator w X.
Proof.
  intros Hw H x c y ->. apply Forall_app in Hw as [_ Hw].
  apply (H (c :: y) Hw). discriminate.
Qed.

(** A separator that starts in a stretch of blanks takes the stretch to
    its end. *)
Lemma blanks_then (w X b Z : list ascii) (x o : ascii) :
  blank w -> is_space x = false -> blank b -> b <> [] -> is_space o = false ->
  w ++ x :: X = b ++ o :: Z -> w = b /\ x = o /\ X = Z.
Proof.
  intros Hw Hx Hb Hbne Ho E.
  destruct (prefix_before (fun a => is_space a = true) b (o :: Z) w X x Hb)
    as (Y & ->); [congruence | now symmetry |].
  rewrite <- app_assoc in E. apply app_inv_head in E.
  destruct Y as [|y Y]; cbn [app] in E.
  - injection E as -> ->. now rewrite app_nil_r.
  - injection E as -> _. apply Forall_app in Hw as [_ Hw].
    apply Forall_cons in Hw as [Hy _]. congruence.
Qed.

Lemma no_sep_before_eq (w Z : list ascii) :
  blank w -> w <> [] -> match_at or_separator (w ++ "="%char :: Z) = None.
Proof.
  intros Hw Hne.
  destruct (match_at _ _) as [[rest g]|] eqn:E; [exfalso|reflexivity].
  destruct (sep_shape _ _ _ E) as (b & o & b' & Es & [Hb Hbne] & Ho & _).
  destruct (or_letters o Ho) as (o1 & o2 & -> & Ho1 & _ & Hoeq).
  cbn [app] in Es.
  destruct (blanks_then w Z b _ "=" o1 Hw eq_refl Hb Hbne Ho1 Es) as (_ & H & _).
  congruence.
Qed.

Lemma no_sep_before_value (w val Y : list ascii) :
  blank w -> w <> [] -> solid val -> val <> [] ->
  ~ same_ci val (chars "OR") -> stops (fun a => negb (is_space a)) Y ->
  match_at or_separator (w ++ val ++ Y) = None.
Proof.
  intros Hw Hne Hv Hvne Hnot HY.
  destruct (match_at _ _) as [[rest g]|] eqn:E; [exfalso|reflexivity].
  destruct (sep_shape _ _ _ E) as (b & o & b' & Es & [Hb Hbne] & Ho & [Hb' Hb'ne]).
  destruct (or_letters o Ho) as (o1 & o2 & -> & Ho1 & Ho2 & _).
  destruct val as [|v1 val]; [contradiction|].
  apply Forall_cons in Hv as [Hv1 Hv]. cbn [app] in Es.
  destruct (blanks_then w _ b _ v1 o1 Hw Hv1 Hb Hbne Ho1 Es) as (_ & -> & Ev).
  destruct b' as [|c b']; [contradiction|]. apply Forall_cons in Hb' as [Hc _].
  destruct val as [|v2 val]; cbn [app] in Ev.
  - rewrite Ev in HY. cbn [stops] in HY. rewrite Ho2 in HY. discriminate.
  - injection Ev as -> Ev. apply Forall_cons in Hv as [_ Hv].
    destruct val as [|v3 val]; cbn [app] in Ev.
    + now apply Hnot.
    + injection Ev as -> _. apply Forall_cons in Hv as [Hv3 _]. congruence.
Qed.

Lemma part_kept (col : list ascii) (d : disjunct) (Y : list ascii) :
  wordlike col -> disjunct_ok col d -> plain_value d ->
  stops (fun a => negb (is_space a)) Y ->
  kept_in or_separator (disjunct_part d) Y.
Proof.
  intros Hcol (_ & _ & _ & Hc & Hb3 & Hb4 & [Hv Hvne]) Hplain HY.
  unfold disjunct_part.
  apply kept_in_app; [apply kept_in_solid, wordlike_solid;
                      now apply (same_ci_wordlike _ col)|].
  apply kept_in_app.
  { apply kept_in_blank; [exact Hb3|]. intros w' Hw' Hne.
    cbn [app]. now apply no_sep_before_eq. }
  change ("="%char :: d_b4 d ++ d_val d) with (["="%char] ++ d_b4 d ++ d_val d).
  apply kept_in_app; [apply kept_in_solid; now repeat constructor|].
  apply kept_in_app; [|now apply kept_in_solid].
  destruct Hplain as [Hnil|Hnot].
  - rewrite Hnil. intros x c y E. destruct x; discriminate.
  - apply kept_in_blank; [exact Hb4|]. intros w' Hw' Hne.
    now apply no_sep_before_value.
Qed.

Lemma clear_of_kept (r : regex) (pre s : list ascii) :
  kept_in r pre s -> clear_before r pre s = true.
Proof.
  induction pre as [|c pre IH]; intros H; [reflexivity|].
  cbn [clear_before app]. rewrite (H [] c pre eq_refl).
  apply IH. intros x a y ->. apply (H (c :: x)). reflexivity.
Qed.

(** The scan of [re.split] over a chain: every disjunct gives one match,
    its [OR] with the blanks around it, and the characters of its
    comparison. *)
Lemma chain_stops (col : list ascii) (ds : list disjunct) :
  Forall (disjunct_ok col) ds ->
  stops (fun a => negb (is_space a)) (chain_text ds).
Proof.
  intros H. destruct H as [|d ds Hd _]; [exact I|].
  destruct Hd as ([Hb Hbne] & _). cbn [chain_text flat_map].
  unfold disjunct_text. destruct (d_b1 d) as [|b b1]; [contradiction|].
  apply Forall_cons in Hb as [Hb _]. cbn [app stops]. now rewrite Hb.
Qed.

Lemma part_stops (col : list ascii) (d : disjunct) (X : list ascii) :
  wordlike col -> col <> [] -> disjunct_ok col d ->
  stops is_space (disjunct_part d ++ X).
Proof.
  intros Hcol Hne (_ & _ & _ & Hc & _).
  pose proof (same_ci_wordlike _ _ Hc Hcol) as Hw.
  unfold disjunct_part. destruct Hc as [|a b t u Hab Hc]; [contradiction|].
  cbn [app stops]. apply Forall_cons in Hw as [Ha _].
  now apply wordy_plain in Ha.
Qed.

Lemma pieces_chain (col : list ascii) (ds : list disjunct) :
  wordlike col -> col <> [] ->
  Forall (disjunct_ok col) ds -> Forall plain_value ds ->
  pieces or_separator (chain_text ds)
  = flat_map (fun d => Hit (Found (d_b1 d ++ d_or d ++ d_b2 d) ∅)
                       :: map Keep (disjunct_part d)) ds.
Proof.
  intros Hcol Hne Hok Hplain.
  induction Hok as [|d ds Hd Hds IH]; [reflexivity|].
  apply Forall_cons in Hplain as [Hp Hplain].
  cbn [chain_text flat_map]. fold (chain_text ds). unfold disjunct_text.
  pose proof Hd as ([Hb Hbne] & Ho & [Hb' Hb'ne] & _).
  replace (d_b1 d ++ d_or d ++ d_b2 d ++ disjunct_part d ++ chain_text ds)
    with ((d_b1 d ++ d_or d ++ d_b2 d) ++ disjunct_part d ++ chain_text ds)
    by list_eq.
  replace ((d_b1 d ++ d_or d ++ d_b2 d ++ disjunct_part d) ++ chain_text ds)
    with ((d_b1 d ++ d_or d ++ d_b2 d) ++ disjunct_part d ++ chain_text ds)
    by list_eq.
  rewrite (pieces_hit _ _ _ ∅).
  - rewrite pieces_skip.
    + rewrite (IH Hplain). reflexivity.
    + apply clear_of_kept. apply (part_kept col); try assumption.
      now apply (chain_stops col).
  - rewrite <- !app_assoc. apply sep_run; try assumption.
    now apply (part_stops col).
  - destruct (d_b1 d); [contradiction | discriminate].
Qed.

Lemma split_go_chain (v : list ascii) (ds : list disjunct) :
  split_go (map Keep v
            ++ flat_map (fun d => Hit (Found (d_b1 d ++ d_or d ++ d_b2 d) ∅)
                                  :: map Keep (disjunct_part d)) ds) []
  = text v :: map (fun d => text (disjunct_part d)) ds.
Proof.
  revert v. induction ds as [|d ds IH]; intros v.
  - cbn [flat_map map]. rewrite app_nil_r.
    rewrite <- (app_nil_r (map Keep v)), split_go_keep. cbn [split_go].
    now rewrite app_nil_r, rev_involutive.
  - cbn [flat_map map]. rewrite split_go_keep. cbn [split_go app].
    rewrite app_nil_r, rev_involutive. f_equal. apply IH.
Qed.

(** *** The value of a disjunct *)

Lemma partition_go_at (sep : ascii) (pre z acc : list ascii) :
  Forall (fun a => a <> sep) pre ->
  partition_go sep (pre ++ sep :: z) acc = (rev acc ++ pre, [sep], z).
Proof.
  intros H. revert acc. induction H as [|a pre Ha _ IH]; intros acc;
    cbn [app partition_go].
  - rewrite Ascii.eqb_refl. now rewrite app_nil_r.
  - destruct (Ascii.eqb_spec a sep) as [->|_]; [contradiction|].
    rewrite IH. cbn [rev]. now rewrite <- app_assoc.
Qed.

Lemma lstrip_blank (b v : list ascii) : blank b -> lstrip (b ++ v) = lstrip v.
Proof.
  induction 1 as [|a b Ha _ IH]; [reflexivity|]. cbn [app lstrip]. now rewrite Ha.
Qed.

Lemma strip_value (b v : list ascii) :
  blank b -> solid v -> strip (text (b ++ v)) = text v.
Proof.
  intros Hb Hv. unfold strip. rewrite chars_text, lstrip_blank by exact Hb.
  rewrite (lstrip_solid v Hv), lstrip_solid, rev_involutive; [reflexivity|].
  unfold solid. now apply Forall_rev.
Qed.

Lemma value_of_part (col : list ascii) (d : disjunct) :
  wordlike col -> disjunct_ok col d ->
  value_of (text (disjunct_part d)) = text (d_val d).
Proof.
  intros Hcol (_ & _ & _ & Hc & Hb3 & Hb4 & [Hv _]).
  unfold value_of, partition, disjunct_part. rewrite chars_text.
  rewrite app_assoc, partition_go_at.
  - now apply strip_value.
  - apply Forall_app. split.
    + pose proof (same_ci_wordlike _ _ Hc Hcol) as Hw.
      eapply Forall_impl; [exact Hw|]. intros a Ha. now apply wordy_plain in Ha.
    + eapply Forall_impl; [exact Hb3|]. intros a Ha. now apply space_plain in Ha.
Qed.

(** *** The values the OR rule keeps *)

(** X11: for every match of the OR pattern, group 3 is the second value of
    the chain followed by the further disjuncts, each [OR], the column
    and a value.  When no value of a further disjunct is the word [OR]
    after a blank, the replacement function returns
    [WHERE col IN (v1, x, v3, ..., vn)]: the first value and the values
    of the further disjuncts as they are written, in their order, and in
    the place of the second value [v2] what follows the first equals sign
    inside [v2], stripped. *)
Theorem or_rule_keeps_later_values (t rest : list ascii) (g : groups)
    (st : list RewriteChange) :
  match_at or_pattern (t ++ rest) = Some (rest, g) ->
  exists col v1 v2 ds,
    g !! 1 = Some col /\ g !! 2 = Some v1 /\ g !! 3 = Some (v2 ++ chain_text ds)
    /\ solid v2 /\ v2 <> [] /\ Forall (disjunct_ok col) ds
    /\ (Forall plain_value ds ->
        or_repl (Found t g) st
        = Ok ("WHERE " +:+ text col +:+ " IN ("
              +:+ join ", " (text v1 :: value_of (text v2)
                             :: map (fun d => text (d_val d)) ds)
              +:+ ")",
              st ++ [or_change])).
Proof.
  intros E. destruct (match_at_sound _ _ _ _ E) as (t' & Et & Hm).
  apply app_inv_tail in Et as <-.
  destruct (or_text _ _ Hm) as (u & Hu & Hok & Hg).
  pose proof (or_output (Found t g) u Hg) as Hout.
  pose proof (proj1 (or_repl_ok (Found t g) Hm) st) as Hrun.
  destruct (matches_seq_inv _ _ _ _ _ (ok_rest u Hok))
    as (v2 & more & g1 & Hrest & Hv2 & Hmore).
  apply matches_plus_cls in Hv2 as (Hsolid & Hne & ->).
  apply solid_nsp in Hsolid.
  assert (or_env u !! 1 = Some (o_col u)) as Hcol.
  { unfold or_env. rewrite lookup_insert_ne by discriminate.
    apply lookup_insert_eq. }
  destruct (chain_of_star _ _ _ _ Hcol Hmore) as (ds & -> & Hds).
  destruct (ok_col u Hok) as [Hwl Hcne].
  exists (o_col u), (o_v1 u), v2, ds.
  split; [|split; [|split; [|split; [exact Hsolid|split; [exact Hne|split; [exact Hds|]]]]]].
  - rewrite Hg. rewrite lookup_insert_ne by discriminate. exact Hcol.
  - rewrite Hg. unfold or_env. rewrite lookup_insert_ne by discriminate.
    apply lookup_insert_eq.
  - rewrite Hg, <- Hrest. apply lookup_insert_eq.
  - intros Hplain. rewrite Hrun. f_equal. f_equal. apply chars_inj.
    rewrite Hout. unfold or_out, or_items, split.
    rewrite Hrest, chars_text, (pieces_solid _ _ Hsolid).
    rewrite (pieces_chain (o_col u)) by assumption.
    rewrite split_go_chain. cbn [map]. rewrite map_map.
    rewrite (map_ext_in _ (fun d => text (d_val d))).
    + rewrite !chars_app, !chars_text. reflexivity.
    + intros d Hd. apply (value_of_part (o_col u)); [exact Hwl|].
      rewrite List.Forall_forall in Hds. now apply Hds.
Qed.

Lemma or_rule_keeps_later_values_witness :
  exists col v1 v2 ds,
    (<[3 := chars "2 or a = 3 OR a=4"]>
       (<[2 := chars "1"]> (<[1 := chars "a"]> ∅)) : groups) !! 1 = Some col
    /\ (<[3 := chars "2 or a = 3 OR a=4"]>
          (<[2 := chars "1"]> (<[1 := chars "a"]> ∅)) : groups) !! 2 = Some v1
    /\ (<[3 := chars "2 or a = 3 OR a=4"]>
          (<[2 := chars "1"]> (<[1 := chars "a"]> ∅)) : groups) !! 3
       = Some (v2 ++ chain_text ds)
    /\ solid v2 /\ v2 <> [] /\ Forall (disjunct_ok col) ds
    /\ (Forall plain_value ds ->
        or_repl (Found (chars "WHERE a = 1 OR a = 2 or a = 3 OR a=4")
                   (<[3 := chars "2 or a = 3 OR a=4"]>
                      (<[2 := chars "1"]> (<[1 := chars "a"]> ∅)))) []
        = Ok ("WHERE " +:+ text col +:+ " IN ("
              +:+ join ", " (text v1 :: value_of (text v2)
                             :: map (fun d => text (d_val d)) ds)
              +:+ ")",
              [] ++ [or_change])).
Proof.
  apply (or_rule_keeps_later_values
           (chars "WHERE a = 1 OR a = 2 or a = 3 OR a=4") (chars " LIMIT 5")).
  vm_compute. reflexivity.
Defined.

End ChainFacts.

(** ** The health score *)

Module HealthFacts.
Import Py PyFacts IndexRecommender PlanSpec PlanFacts.

Lemma row_penalty_nonneg (row : PlanRow) : (0 <= row_penalty row)%Z.
Proof.
  unfold row_penalty.
  destruct (is_full_scan row), (is_index_scan row), (mentions_filesort row),
    (mentions_temporary row); lia.
Qed.

Lemma recommendation_penalty_bounds (count : nat) :
  (0 <= recommendation_penalty count)%Z
  /\ (count <> 0 -> (5 <= recommendation_penalty count)%Z).
Proof.
  unfold recommendation_penalty. destruct count as [|n]; cbn [Nat.eqb]; lia.
Qed.

Lemma recommendation_penalty_mono (n m : nat) :
  n <= m -> (recommendation_penalty n <= recommendation_penalty m)%Z.
Proof.
  unfold recommendation_penalty. intros H.
  destruct n as [|n], m as [|m]; cbn [Nat.eqb]; lia.
Qed.

(** X12: more plan rows or more recommendations never raise the score:
    whatever rows are put into a plan, and whatever recommendations are
    added, the score of [_compute_index_health] is at most what it
    was. *)
Theorem health_never_improves (before more after : list PlanRow)
    (recs more_recs : list IndexRecommendation) :
  (fst (_compute_index_health (before ++ more ++ after) (recs ++ more_recs))
   <= fst (_compute_index_health (before ++ after) recs))%Z.
Proof.
  rewrite !compute_health_unfold. unfold health, clamp. cbn [fst].
  rewrite !total_penalty_app.
  pose proof (total_penalty_nonneg more).
  pose proof (recommendation_penalty_mono (length recs) (length (recs ++ more_recs))
                ltac:(rewrite length_app; lia)).
  lia.
Qed.

Lemma row_clean (row : PlanRow) : row_penalty row = 0%Z <-> row_issues row = [].
Proof.
  unfold row_penalty, row_issues.
  destruct (is_full_scan row), (is_index_scan row), (mentions_filesort row),
    (mentions_temporary row); cbn [app]; split; intros H;
    first [reflexivity | discriminate | lia].
Qed.

Lemma rows_clean (rows : list PlanRow) :
  total_penalty rows = 0%Z <-> flat_map row_issues rows = [].
Proof.
  induction rows as [|row rows IH]; cbn [total_penalty foldr flat_map];
    [tauto|].
  fold (total_penalty rows).
  pose proof (row_penalty_nonneg row). pose proof (total_penalty_nonneg rows).
  split.
  - intros H1. assert (row_penalty row = 0%Z) as Hr by lia.
    apply row_clean in Hr as ->. apply IH. lia.
  - intros H1. apply app_eq_nil in H1 as [Hr Hrest].
    apply row_clean in Hr. apply IH in Hrest. lia.
Qed.

Lemma perfect_health (rows : list PlanRow) (count : nat) :
  fst (health rows count) = 100%Z <-> snd (health rows count) = [].
Proof.
  unfold health, clamp. cbn [fst snd].
  pose proof (total_penalty_nonneg rows) as Hp.
  destruct (recommendation_penalty_bounds count) as [Hr0 Hr5].
  split.
  - intros H. assert (total_penalty rows = 0%Z) as Ht by lia.
    assert (count = 0) as ->.
    { destruct count; [reflexivity|]. specialize (Hr5 ltac:(lia)). lia. }
    apply rows_clean in Ht as ->. reflexivity.
  - intros H. apply app_eq_nil in H as [H1 H2]. apply rows_clean in H1.
    unfold recommendation_issue, recommendation_penalty in *.
    destruct (count =? 0); [lia | discriminate].
Qed.

(** X13: the score of [_compute_index_health] is 100 exactly when the list
    of issues is empty: every deduction is reported, and every reported
    issue has cost points. *)
Theorem perfect_score_iff_no_issue (rows : list PlanRow)
    (recs : list IndexRecommendation) :
  fst (_compute_index_health rows recs) = 100%Z
  <-> snd (_compute_index_health rows recs) = [].
Proof. rewrite compute_health_unfold. apply perfect_health. Qed.

Lemma total_penalty_perm (rows rows' : list PlanRow) :
  Permutation rows rows' -> total_penalty rows = total_penalty rows'.
Proof.
  induction 1 as [|row a b _ IH|x y a|a b c _ IH1 _ IH2];
    cbn [total_penalty foldr]; fold total_penalty;
    [reflexivity | | | congruence].
  - fold (total_penalty a) (total_penalty b). lia.
  - fold (total_penalty a). lia.
Qed.

(** X14: the order of the plan rows does not matter to the score: a plan
    with the same rows in another order, and as many recommendations,
    has the same score, and the same issues in another order. *)
Theorem health_order_independent (rows rows' : list PlanRow)
    (recs recs' : list IndexRecommendation) :
  Permutation rows rows' -> length recs = length recs' ->
  fst (_compute_index_health rows recs) = fst (_compute_index_health rows' recs')
  /\ Permutation (snd (_compute_index_health rows recs))
       (snd (_compute_index_health rows' recs')).
Proof.
  intros Hp Hl. rewrite !compute_health_unfold. unfold health. cbn [fst snd].
  rewrite (total_penalty_perm _ _ Hp), Hl. split; [reflexivity|].
  apply Permutation_app_tail. now apply Permutation_flat_map.
Qed.

Lemma health_order_independent_witness :
  let scan : PlanRow := {[ "table" := VStr "orders"; "type" := VStr "ALL" ]} in
  let sort : PlanRow :=
    {[ "table" := VStr "users"; "Extra" := VStr "Using filesort" ]} in
  fst (_compute_index_health [scan; sort] [])
  = fst (_compute_index_health [sort; scan] [])
  /\ Permutation (snd (_compute_index_health [scan; sort] []))
       (snd (_compute_index_health [sort; scan] [])).
Proof.
  intros scan sort.
  apply (health_order_independent [scan; sort] [sort; scan] [] []).
  - apply perm_swap.
  - reflexivity.
Defined.

(** *** Recommendations and the score *)

Lemma flagged_full_scan (row : PlanRow) :
  flagged row = true -> is_full_scan row = true.
Proof.
  unfold flagged. intros H.
  apply andb_true_iff in H as [H _]. apply andb_true_iff in H as [H _].
  now apply andb_true_iff in H as [H _].
Qed.

Lemma flagged_penalty (row : PlanRow) :
  flagged row = true -> (20 <= row_penalty row)%Z.
Proof.
  intros H. apply flagged_full_scan in H. unfold row_penalty. rewrite H.
  destruct (mentions_filesort row), (mentions_temporary row); lia.
Qed.

Lemma recommendations_cost (rows : list PlanRow) :
  (20 * Z.of_nat (length (_analyze_explain_for_indexes rows))
   <= total_penalty rows)%Z
  /\ length (_analyze_explain_for_indexes rows) <= length rows.
Proof.
  unfold _analyze_explain_for_indexes. rewrite analyze_loop. cbn [app].
  induction rows as [|row rows [IH1 IH2]]; cbn [flat_map total_penalty foldr length];
    [split; lia|].
  fold (total_penalty rows). rewrite length_app.
  pose proof (row_penalty_nonneg row).
  destruct (flagged row) eqn:F; cbn [andb].
  - apply flagged_penalty in F.
    destruct (names_table row); cbn [length]; split; lia.
  - cbn [length]. split; lia.
Qed.

Lemma named_label (row : PlanRow) :
  names_table row = true -> table_label row = str (get row "table").
Proof. unfold names_table, table_label, or_. now intros ->. Qed.

Lemma recommendation_reported (rows : list PlanRow) (rec : IndexRecommendation) :
  In rec (_analyze_explain_for_indexes rows) ->
  In ("Full table scan on " +:+ str (table rec) +:+ " (type=ALL)")
     (flat_map row_issues rows).
Proof.
  unfold _analyze_explain_for_indexes. rewrite analyze_loop. cbn [app].
  induction rows as [|row rows IH]; cbn [flat_map]; [tauto|].
  intros H. apply in_app_or in H as [H|H]; apply in_or_app; [left|right; auto].
  destruct (flagged row) eqn:F; [|contradiction].
  destruct (names_table row) eqn:N; [|contradiction].
  destruct H as [<-|[]]. cbn [table recommendation_for].
  unfold row_issues. rewrite (flagged_full_scan _ F), (named_label _ N).
  now left.
Qed.

End HealthFacts.

(** ** The analysis of a query *)

Module AnalysisFacts.
Import Py IndexRecommender PlanSpec PlanFacts HealthFacts Connection Analysis.

(** *** The dictionary of a plan row *)

Lemma row_dict_go_other (columns : list string) (row : list value)
    (d : PlanRow) (c : string) :
  c ∉ columns ->
  fold_left (fun d cv => <[cv.1 := cv.2]> d) (zip columns row) d !! c = d !! c.
Proof.
  revert row d. induction columns as [|x columns IH]; intros row d Hc;
    [reflexivity|].
  destruct row as [|v row]; [reflexivity|]. cbn [zip zip_with fold_left].
  apply not_elem_of_cons in Hc as [Hne Hc].
  rewrite IH by exact Hc. cbn. now rewrite lookup_insert_ne.
Qed.

Lemma row_dict_go_at (columns : list string) (row : list value)
    (d : PlanRow) (j : nat) (c : string) :
  NoDup columns -> columns !! j = Some c ->
  fold_left (fun d cv => <[cv.1 := cv.2]> d) (zip columns row) d !! c
  = match row !! j with Some v => Some v | None => d !! c end.
Proof.
  revert row d j. induction columns as [|x columns IH]; intros row d j Hnd Hj;
    [discriminate|].
  apply NoDup_cons in Hnd as [Hx Hnd].
  destruct row as [|v row]; [now destruct j|]. cbn [zip zip_with fold_left].
  destruct j as [|j]; cbn [lookup list_lookup] in *.
  - injection Hj as ->. rewrite row_dict_go_other by exact Hx.
    cbn. now rewrite lookup_insert_eq.
  - rewrite (IH _ _ j Hnd Hj).
    destruct (row !! j); [reflexivity|]. cbn.
    rewrite lookup_insert_ne; [reflexivity|].
    intros ->. apply Hx. now apply list_elem_of_lookup_2 in Hj.
Qed.

Lemma row_dict_at (columns : list string) (row : list value) (j : nat)
    (c : string) :
  NoDup columns -> columns !! j = Some c -> row_dict columns row !! c = row !! j.
Proof.
  intros Hnd Hj. unfold row_dict. rewrite (row_dict_go_at _ _ _ j c Hnd Hj).
  now destruct (row !! j).
Qed.

Lemma row_dict_other (columns : list string) (row : list value) (c : string) :
  c ∉ columns -> row_dict columns row !! c = None.
Proof. intros H. unfold row_dict. now rewrite row_dict_go_other. Qed.

(** X15: [_collect_explain] fails only when the EXPLAIN statement does.  When
    the server names its columns without repetition, the result has one
    dictionary per row of the answer, in order, and a dictionary holds
    for every column the value at the column's position in its row,
    nothing for a column the row is too short for, and nothing else. *)
Theorem collected_rows (Exc : Type) (cursor : Cursor Exc) (q : string)
    (answer : Answer) :
  cursor ("EXPLAIN " +:+ q) = inr answer ->
  NoDup (cursor_description answer) ->
  exists rows,
    _collect_explain Exc cursor q = inr rows
    /\ length rows = length (fetchall answer)
    /\ forall i d, rows !! i = Some d ->
         exists row, fetchall answer !! i = Some row
           /\ (forall j c, cursor_description answer !! j = Some c ->
                 d !! c = row !! j)
           /\ (forall c, c ∉ cursor_description answer -> d !! c = None).
Proof.
  intros E Hnd. unfold _collect_explain. rewrite E.
  eexists. split; [reflexivity|]. split; [apply length_map|].
  intros i d Hd. rewrite list_lookup_fmap in Hd.
  destruct (fetchall answer !! i) as [row|]; [|discriminate].
  injection Hd as <-. exists row. split; [reflexivity|]. split.
  - intros j c Hj. now apply row_dict_at.
  - intros c Hc. now apply row_dict_other.
Qed.

Lemma collected_rows_witness :
  exists rows,
    _collect_explain unit
      (fun statement =>
         inr {| cursor_description := ["table"; "type"];
                fetchall := [[VStr "orders"; VStr "ALL"]; [VStr "users"]] |})
      "SELECT 1" = inr rows
    /\ length rows = 2
    /\ forall i d, rows !! i = Some d ->
         exists row, [[VStr "orders"; VStr "ALL"]; [VStr "users"]] !! i = Some row
           /\ (forall j c, ["table"; "type"] !! j = Some c -> d !! c = row !! j)
           /\ (forall c, c ∉ ["table"; "type"] -> d !! c = None).
Proof.
  apply (collected_rows unit
           (fun statement =>
              inr {| cursor_description := ["table"; "type"];
                     fetchall := [[VStr "orders"; VStr "ALL"]; [VStr "users"]] |})
           "SELECT 1"
           {| cursor_description := ["table"; "type"];
              fetchall := [[VStr "orders"; VStr "ALL"]; [VStr "users"]] |}).
  - reflexivity.
  - cbn [cursor_description]. apply NoDup_cons. split.
    + intros H. apply list_elem_of_singleton in H. discriminate.
    + apply NoDup_singleton.
Defined.

(** *** The result of an analysis *)

Lemma analysis_shape (Exc : Type)
    (connect : MySQLConnectionConfig -> Exc + Cursor Exc)
    (q host : string) (port : Z)
    (user password database version : option string)
    (r : IndexAnalysisResult) :
  analyze_query_indexes Exc connect q host port user password database
    version = inr r ->
  recommendations r = _analyze_explain_for_indexes (explain_rows r)
  /\ (health_score r, issues r)
     = health (explain_rows r) (length (recommendations r)).
Proof.
  unfold analyze_query_indexes.
  destruct (connect _) as [e|cursor]; [discriminate|].
  destruct (_collect_explain Exc cursor q) as [e|rows]; [discriminate|].
  destruct (_compute_index_health rows _) as [score iss] eqn:E.
  intros H. injection H as <-. cbn. split; [reflexivity|].
  now rewrite <- compute_health_unfold, E.
Qed.

(** X16: what [analyze_query_indexes] returns hangs together: the score lies
    between 0 and 100; every recommendation has cost 20 points for the
    full scan of its row, besides the deduction for the number of
    recommendations; there are at most as many recommendations as plan
    rows; the table of every recommendation is named in a full-scan
    issue; and the score is 100 exactly when no issue is listed. *)
Theorem analysis_is_consistent (Exc : Type)
    (connect : MySQLConnectionConfig -> Exc + Cursor Exc)
    (q host : string) (port : Z)
    (user password database mysql_version : option string)
    (r : IndexAnalysisResult) :
  analyze_query_indexes Exc connect q host port user password database
    mysql_version = inr r ->
  let n := Z.of_nat (length (recommendations r)) in
  (0 <= health_score r <= 100)%Z
  /\ (health_score r <= Z.max 0 (100 - 20 * n - Z.min (5 * n) 20))%Z
  /\ length (recommendations r) <= length (explain_rows r)
  /\ (forall rec, In rec (recommendations r) ->
        In ("Full table scan on " +:+ str (table rec) +:+ " (type=ALL)")
           (issues r))
  /\ (health_score r = 100%Z <-> issues r = []).
Proof.
  intros H. destruct (analysis_shape _ _ _ _ _ _ _ _ _ _ H) as [Hrecs Hhealth].
  pose proof (perfect_health (explain_rows r) (length (recommendations r))) as Hp.
  rewrite <- Hhealth in Hp. cbn [fst snd] in Hp.
  destruct (recommendations_cost (explain_rows r)) as [Hcost Hlen].
  rewrite <- Hrecs in Hcost, Hlen.
  unfold health, clamp in Hhealth. injection Hhealth as Hscore Hissues.
  pose proof (total_penalty_nonneg (explain_rows r)) as Hpen.
  destruct (recommendation_penalty_bounds (length (recommendations r)))
    as [Hrp _].
  cbv zeta. split; [lia|]. split; [|split; [exact Hlen|split; [|exact Hp]]].
  - rewrite Hscore. unfold recommendation_penalty.
    destruct (length (recommendations r)) as [|k] eqn:Hk; cbn [Nat.eqb]; lia.
  - intros rec Hrec. rewrite Hrecs in Hrec.
    apply recommendation_reported in Hrec.
    rewrite Hissues. apply in_or_app. now left.
Qed.

Lemma analysis_is_consistent_witness :
  let r :=
    {| query := "SELECT 1";
       recommendations :=
         [ {| table := VStr "orders";
              suggested_index_name := "idx_orders_<choose_filter_column>";
              columns := ["<choose_filter_column>"];
              reason := "Full table scan detected with WHERE filtering and no index; consider adding an index on the main filter column." |} ];
       explain_rows :=
         [ {[ "table" := VStr "orders"; "type" := VStr "ALL";
              "Extra" := VStr "Using where" ]} ];
       mysql_version := None; server_version := Some "8.0.36";
       health_score := 75;
       issues := ["Full table scan on orders (type=ALL)";
                  "1 index recommendation(s) suggested"] |} in
  let n := Z.of_nat (length (recommendations r)) in
  (0 <= health_score r <= 100)%Z
  /\ (health_score r <= Z.max 0 (100 - 20 * n - Z.min (5 * n) 20))%Z
  /\ length (recommendations r) <= length (explain_rows r)
  /\ (forall rec, In rec (recommendations r) ->
        In ("Full table scan on " +:+ str (table rec) +:+ " (type=ALL)")
           (issues r))
  /\ (health_score r = 100%Z <-> issues r = []).
Proof.
  intros r.
  refine (analysis_is_consistent unit
            (fun config =>
               inr (fun statement =>
                      if String.eqb statement "SELECT VERSION()"
                      then inr {| cursor_description := ["VERSION()"];
                                  fetchall := [[VStr "8.0.36"]] |}
                      else inr {| cursor_description := ["table"; "type"; "Extra"];
                                  fetchall := [[VStr "orders"; VStr "ALL";
                                                VStr "Using where"]] |}))
            "SELECT 1" "localhost" 3306 None None None None r _).
  vm_compute. reflexivity.
Defined.

Lemma explain_is_not_version (q : string) :
  "EXPLAIN " +:+ q <> "SELECT VERSION()".
Proof. discriminate. Qed.

(** X17: the probe for the server version cannot fail an analysis or change
    its findings: two servers that differ only in what they answer to
    [SELECT VERSION()], be it an exception, give the same outcome, the
    same exception or results that agree in every field but
    [server_version]. *)
Theorem version_probe_is_harmless (Exc : Type)
    (connect connect' : MySQLConnectionConfig -> Exc + Cursor Exc)
    (q host : string) (port : Z)
    (user password database mysql_version : option string) :
  (forall config,
     match connect config, connect' config with
     | inl e, inl e' => e = e'
     | inr cursor, inr cursor' =>
         forall statement, statement <> "SELECT VERSION()" ->
           cursor statement = cursor' statement
     | _, _ => False
     end) ->
  match analyze_query_indexes Exc connect q host port user password database
          mysql_version,
        analyze_query_indexes Exc connect' q host port user password database
          mysql_version with
  | inl e, inl e' => e = e'
  | inr r, inr r' =>
      query r' = query r /\ recommendations r' = recommendations r
      /\ explain_rows r' = explain_rows r /\ Analysis.mysql_version r' = Analysis.mysql_version r
      /\ health_score r' = health_score r /\ issues r' = issues r
  | _, _ => False
  end.
Proof.
  intros H. unfold analyze_query_indexes.
  specialize (H {| host := host; port := port; user := user;
                   password := password; database := database |}).
  destruct (connect _) as [e|cursor], (connect' _) as [e'|cursor'];
    [exact H | destruct H | destruct H |].
  unfold _collect_explain. rewrite <- (H _ (explain_is_not_version q)).
  destruct (cursor ("EXPLAIN " +:+ q)) as [e|answer]; [reflexivity|].
  destruct (_compute_index_health _ _) as [score iss]. cbn.
  repeat split; reflexivity.
Qed.

Lemma version_probe_is_harmless_witness :
  match analyze_query_indexes unit
          (fun config =>
             inr (fun statement =>
                    if String.eqb statement "SELECT VERSION()" then inl tt
                    else inr {| cursor_description := ["table"; "type"];
                                fetchall := [[VStr "orders"; VStr "ALL"]] |}))
          "SELECT 1" "localhost" 3306 None None None None,
        analyze_query_indexes unit
          (fun config =>
             inr (fun statement =>
                    inr {| cursor_description := ["table"; "type"];
                           fetchall := [[VStr "orders"; VStr "ALL"]] |}))
          "SELECT 1" "localhost" 3306 None None None None with
  | inl e, inl e' => e = e'
  | inr r, inr r' =>
      query r' = query r /\ recommendations r' = recommendations r
      /\ explain_rows r' = explain_rows r
      /\ Analysis.mysql_version r' = Analysis.mysql_version r
      /\ health_score r' = health_score r /\ issues r' = issues r
  | _, _ => False
  end.
Proof.
  apply version_probe_is_harmless. intros config statement Hne.
  destruct (String.eqb_spec statement "SELECT VERSION()") as [E|_];
    [contradiction | reflexivity].
Defined.

End AnalysisFacts.

(** ** The profile of a query *)

Module ProfilerFacts.
Import Py PyFacts IndexRecommender PlanSpec PlanFacts HealthFacts Profiler.

Lemma uses_filesort_exists (rows : list ExplainRow) :
  uses_filesort rows = existsb mentions_filesort (map raw rows).
Proof.
  induction rows as [|row rows IH]; [reflexivity|].
  cbn [uses_filesort map existsb]. rewrite IH.
  unfold mentions_filesort, annotation. now destruct (contains "filesort" _).
Qed.

Lemma uses_temporary_exists (rows : list ExplainRow) :
  uses_temporary rows = existsb mentions_temporary (map raw rows).
Proof.
  induction rows as [|row rows IH]; [reflexivity|].
  cbn [uses_temporary map existsb]. rewrite IH.
  unfold mentions_temporary, annotation. now destruct (contains "temporary" _).
Qed.

Lemma filesort_issue (rows : list PlanRow) (label : string) :
  In ("Filesort required for " +:+ label) (flat_map row_issues rows)
  -> existsb mentions_filesort rows = true.
Proof.
  induction rows as [|row rows IH]; cbn [flat_map existsb]; [intros []|].
  intros H. apply in_app_or in H as [H|H]; [|rewrite (IH H); apply orb_true_r].
  unfold row_issues in H.
  destruct (mentions_filesort row); [reflexivity|]. exfalso.
  destruct (is_full_scan row), (is_index_scan row), (mentions_temporary row);
    cbn [app In] in H;
    repeat match goal with
           | H : _ \/ _ |- _ => destruct H as [H|H]
           | H : False |- _ => destruct H
           | H : _ = _ |- _ => cbn in H; discriminate H
           end.
Qed.

Lemma temporary_issue (rows : list PlanRow) (label : string) :
  In ("Temporary table used for " +:+ label) (flat_map row_issues rows)
  -> existsb mentions_temporary rows = true.
Proof.
  induction rows as [|row rows IH]; cbn [flat_map existsb]; [intros []|].
  intros H. apply in_app_or in H as [H|H]; [|rewrite (IH H); apply orb_true_r].
  unfold row_issues in H.
  destruct (mentions_temporary row); [reflexivity|]. exfalso.
  destruct (is_full_scan row), (is_index_scan row), (mentions_filesort row);
    cbn [app In] in H;
    repeat match goal with
           | H : _ \/ _ |- _ => destruct H as [H|H]
           | H : False |- _ => destruct H
           | H : _ = _ |- _ => cbn in H; discriminate H
           end.
Qed.

Lemma count_issue_head (k : nat) (c : ascii) (s : string) :
  is_digit c = false -> c <> " "%char ->
  str_of_int (Z.of_nat k) +:+ " index recommendation(s) suggested"
  <> String c s.
Proof.
  intros Hd Hs E.
  pose proof (str_of_int_digits (Z.of_nat k) ltac:(lia)) as H.
  destruct (str_of_int (Z.of_nat k)) as [|a rest]; cbn in E.
  - injection E as E _. now symmetry in E.
  - injection E as -> _. cbn in H. inversion H; subst. congruence.
Qed.

Lemma flags_penalty (rows : list PlanRow) :
  ((if existsb mentions_filesort rows then 10 else 0)
   + (if existsb mentions_temporary rows then 10 else 0)
   <= total_penalty rows)%Z.
Proof.
  induction rows as [|row rows IH]; cbn [existsb total_penalty foldr]; [lia|].
  fold (total_penalty rows). pose proof (total_penalty_nonneg rows).
  unfold row_penalty.
  destruct (is_full_scan row), (is_index_scan row), (mentions_filesort row),
    (mentions_temporary row), (existsb mentions_filesort rows),
    (existsb mentions_temporary rows); cbn [orb] in *; lia.
Qed.

Lemma issue_of_flag (f : PlanRow -> bool) (issue : PlanRow -> string)
    (rows : list PlanRow) :
  (forall row, f row = true -> In (issue row) (row_issues row)) ->
  existsb f rows = true ->
  exists row, In (issue row) (flat_map row_issues rows).
Proof.
  intros Hf H. apply existsb_exists in H as (row & Hin & Hrow).
  exists row. apply in_flat_map. exists row. split; [exact Hin | now apply Hf].
Qed.

(** X18: the flags of a profile and the health report of the same plan agree:
    [uses_filesort] holds exactly when the issues list a filesort, and
    [uses_temporary] exactly when they list a temporary table; each flag
    that holds has cost the score at least 10 points. *)
Theorem profile_flags_match_health (rows : list ExplainRow)
    (recs : list IndexRecommendation) :
  (uses_filesort rows = true
   <-> exists label,
         In ("Filesort required for " +:+ label)
            (snd (_compute_index_health (map raw rows) recs)))
  /\ (uses_temporary rows = true
      <-> exists label,
            In ("Temporary table used for " +:+ label)
               (snd (_compute_index_health (map raw rows) recs)))
  /\ (fst (_compute_index_health (map raw rows) recs)
      <= 100 - (if uses_filesort rows then 10 else 0)
         - (if uses_temporary rows then 10 else 0))%Z.
Proof.
  rewrite compute_health_unfold, uses_filesort_exists, uses_temporary_exists.
  unfold health, clamp. cbn [fst snd].
  split; [|split].
  - split.
    + intros H.
      destruct (issue_of_flag mentions_filesort
                  (fun row => "Filesort required for " +:+ table_label row)
                  (map raw rows)) as (row & Hrow); [|exact H|].
      * intros row Hrow. unfold row_issues. rewrite Hrow.
        apply in_or_app. right. apply in_or_app. left. now left.
      * exists (table_label row). apply in_or_app. now left.
    + intros (label & H). apply in_app_or in H as [H|H].
      * now apply filesort_issue in H.
      * unfold recommendation_issue in H.
        destruct (length recs =? 0); [destruct H|]. destruct H as [H|[]].
        exfalso. revert H. now apply count_issue_head.
  - split.
    + intros H.
      destruct (issue_of_flag mentions_temporary
                  (fun row => "Temporary table used for " +:+ table_label row)
                  (map raw rows)) as (row & Hrow); [|exact H|].
      * intros row Hrow. unfold row_issues. rewrite Hrow.
        apply in_or_app. right. apply in_or_app. right. now left.
      * exists (table_label row). apply in_or_app. now left.
    + intros (label & H). apply in_app_or in H as [H|H].
      * now apply temporary_issue in H.
      * unfold recommendation_issue in H.
        destruct (length recs =? 0); [destruct H|]. destruct H as [H|[]].
        exfalso. revert H. now apply count_issue_head.
  - pose proof (flags_penalty (map raw rows)).
    destruct (recommendation_penalty_bounds (length recs)) as [Hr _].
    destruct (existsb mentions_filesort _), (existsb mentions_temporary _); lia.
Qed.

(** *** Indexes in use and indexes recommended *)

Lemma summary_loop (rows : list ExplainRow) (summary : list PlanRow) :
  fold_left summary_row rows summary
  = summary
    ++ flat_map (fun row =>
                   if truthy (get (raw row) "key")
                   then [ ({[ "index" := get (raw row) "key";
                              "type" := get (raw row) "type";
                              "rows" := get (raw row) "rows" ]} : PlanRow) ]
                   else []) rows.
Proof.
  revert summary. induction rows as [|row rows IH]; intros summary;
    cbn [fold_left flat_map]; [now rewrite app_nil_r|].
  rewrite IH. unfold summary_row.
  destruct (truthy (get (raw row) "key")); cbn [negb].
  - now rewrite <- app_assoc.
  - reflexivity.
Qed.

Lemma used_key_not_flagged (row : PlanRow) :
  truthy (get row "key") = true -> flagged row = false.
Proof.
  intros H. unfold flagged, no_key_chosen. rewrite H. cbn [negb].
  now rewrite andb_false_r.
Qed.

(** X19: a plan row is never both reported as using an index and recommended
    for one: the entries of [index_usage_summary] and the recommendations
    of [_analyze_explain_for_indexes] for the same plan are together at
    most as many as the rows, and every entry of the summary names an
    index. *)
Theorem summary_and_recommendations (rows : list ExplainRow) :
  length (index_usage_summary rows)
  + length (_analyze_explain_for_indexes (map raw rows)) <= length rows
  /\ Forall (fun entry => truthy (get entry "index") = true)
       (index_usage_summary rows).
Proof.
  unfold index_usage_summary, _analyze_explain_for_indexes.
  rewrite summary_loop, analyze_loop. cbn [app].
  induction rows as [|row rows [IH1 IH2]]; cbn [flat_map map length];
    [split; [lia | constructor]|].
  rewrite !length_app.
  destruct (truthy (get (raw row) "key")) eqn:K.
  - rewrite (used_key_not_flagged _ K). cbn [andb length app]. split; [lia|].
    constructor; [|exact IH2]. unfold get. rewrite lookup_insert_eq. exact K.
  - cbn [app length]. split; [|exact IH2].
    destruct (flagged (raw row) && names_table (raw row)); cbn [length]; lia.
Qed.

End ProfilerFacts.
